(** * Spiral particle simulation (spiral_particles.py)

    A shallow embedding of [SpiralSimulator]: the particle record, the two
    emitters, the integrator with its removal filter, and the rasterizer.

    - Python [float]  is IEEE-754 binary64: Rocq's primitive [float].
    - Python [int]    is [Z].
    - Python [str]    is [string].
    - the [random] module is a generator state threaded through the emitters;
    - [ZeroDivisionError] (in [p.life / p.max_life]) and the errors of
      [int(x)] on a NaN or an infinity are [None]. *)

From Stdlib Require Import ZArith Floats Uint63 Strings.String Strings.Ascii.
From Stdlib Require Import List Bool Lia Reals Lra.
From stdpp Require Import base option list.

Set Warnings "-inexact-float".
Local Open Scope Z_scope.

(* ================================================================== *)
(** ** Python numbers *)

Module Py.

(** [float(n)]: the binary64 value nearest to the integer [n]. *)
Definition float_of_int (n : Z) : float :=
  SF2Prim (binary_normalize prec emax n 0 false).

(** The integer part of a finite binary64 value [(-1)^s * m * 2^e], rounded
    towards zero. *)
Definition SFtrunc (s : bool) (m : positive) (e : Z) : Z :=
  cond_Zopp s (if 0 <=? e then Z.pos m * 2 ^ e else Z.pos m / 2 ^ (- e)).

(** [int(x)]: truncation towards zero; raises on a NaN ([ValueError]) and on
    an infinity ([OverflowError]). *)
Definition int_of_float (x : float) : option Z :=
  match Prim2SF x with
  | S754_zero _ => Some 0
  | S754_finite s m e => Some (SFtrunc s m e)
  | S754_infinity _ | S754_nan => None
  end.

(** Comparison of an [int] with a [float]: Python compares the two exact
    values (no conversion of the integer), and every comparison with a NaN
    is false. [(-1)^s * m * 2^e] is compared with [n] after both are scaled
    by [2^-e] when [e] is negative. *)
Definition SFcompare_int (s : bool) (m : positive) (e : Z) (n : Z) : comparison :=
  if 0 <=? e then cond_Zopp s (Z.pos m * 2 ^ e) ?= n
  else cond_Zopp s (Z.pos m) ?= n * 2 ^ (- e).

(** [x < n] *)
Definition float_lt_int (x : float) (n : Z) : bool :=
  match Prim2SF x with
  | S754_nan => false
  | S754_infinity s => s
  | S754_zero _ => 0 <? n
  | S754_finite s m e =>
      match SFcompare_int s m e n with Lt => true | _ => false end
  end.

(** [n <= x] *)
Definition int_le_float (n : Z) (x : float) : bool :=
  match Prim2SF x with
  | S754_nan => false
  | S754_infinity s => negb s
  | S754_zero _ => n <=? 0
  | S754_finite s m e =>
      match SFcompare_int s m e n with Lt => false | _ => true end
  end.

(** [a / b] on two [int]s: true division. CPython divides the two operands
    as doubles when both convert exactly (absolute value at most [2^53]),
    which is the case of every life counter here; a zero divisor raises
    [ZeroDivisionError]. *)
Definition truediv (a b : Z) : option float :=
  if b =? 0 then None
  else Some (PrimFloat.div (float_of_int a) (float_of_int b)).

(** [math.pi] *)
Definition pi : float := 0x1.921fb54442d18p+1%float.

End Py.

(* ================================================================== *)
(** ** The [random] module

    The Mersenne Twister is outside the program; it is modelled by the
    sequence of the outcomes of its calls. [outcome g k] is the entropy the
    [k]-th call receives and [calls g] counts the calls made so far; each
    call reduces its entropy into the range it was asked for. *)

Record rng := Rng { outcome : nat -> N; calls : nat }.

Definition Rand (A : Type) : Type := rng -> A * rng.

Definition rand_ret {A} (a : A) : Rand A := fun g => (a, g).

Definition rand_bind {A B} (m : Rand A) (k : A -> Rand B) : Rand B :=
  fun g => let (a, g') := m g in k a g'.

Declare Scope rand_scope.
Delimit Scope rand_scope with rand.
Notation "'let*' x ':=' m 'in' k" := (rand_bind m (fun x => k))
  (at level 10, x name, m at level 100, k at level 200) : rand_scope.

Module Random.

(** One call: read the entropy of this call and count it. *)
Definition next : Rand N :=
  fun g => (outcome g (calls g), Rng (outcome g) (S (calls g))).

(** [_randbelow(n)], for [0 < n]: an integer in [[0, n)]. *)
Definition randbelow (n : Z) : Rand Z :=
  fun g => let (r, g') := next g in (Z.of_N r mod n, g').

(** [random.random()]: [k * 2^-53] for a 53-bit integer [k], a float in
    [[0, 1)]. *)
Definition random : Rand float :=
  fun g => let (r, g') := next g in
    (PrimFloat.mul (of_uint63 (Uint63.of_Z (Z.of_N r mod 2 ^ 53))) 0x1p-53%float, g').

(** [random.randint(a, b)]: an integer in [[a, b]], both ends included. *)
Definition randint (a b : Z) : Rand Z :=
  fun g => let (r, g') := randbelow (b - a + 1) g in (a + r, g').

(** [random.choice(seq)], for a non-empty [seq]. *)
Definition choice {A} (d : A) (l : list A) : Rand A :=
  fun g => let (r, g') := randbelow (Z.of_nat (List.length l)) g in
    (nth (Z.to_nat r) l d, g').

End Random.

(* ================================================================== *)
(** ** Particles and the simulator state *)

(** [COLORS]: the seven ANSI colour codes (["027"] is the escape character). *)
Definition COLORS : list string :=
  String "027" "[91m" :: String "027" "[92m" :: String "027" "[93m"
  :: String "027" "[94m" :: String "027" "[95m" :: String "027" "[96m"
  :: String "027" "[97m" :: nil.

Definition RESET : string := String "027" "[0m".

Record Particle := mkParticle {
  x : float;
  y : float;
  vx : float;
  vy : float;
  life : Z;
  max_life : Z;
  color : string;
  char : string
}.

Definition set_x (p : Particle) (v : float) : Particle :=
  mkParticle v (y p) (vx p) (vy p) (life p) (max_life p) (color p) (char p).
Definition set_y (p : Particle) (v : float) : Particle :=
  mkParticle (x p) v (vx p) (vy p) (life p) (max_life p) (color p) (char p).
Definition set_vx (p : Particle) (v : float) : Particle :=
  mkParticle (x p) (y p) v (vy p) (life p) (max_life p) (color p) (char p).
Definition set_vy (p : Particle) (v : float) : Particle :=
  mkParticle (x p) (y p) (vx p) v (life p) (max_life p) (color p) (char p).
Definition set_life (p : Particle) (v : Z) : Particle :=
  mkParticle (x p) (y p) (vx p) (vy p) v (max_life p) (color p) (char p).
Definition set_char (p : Particle) (v : string) : Particle :=
  mkParticle (x p) (y p) (vx p) (vy p) (life p) (max_life p) (color p) v.

(** The fields of [SpiralSimulator]. *)
Record Sim := mkSim {
  width : Z;
  height : Z;
  particles : list Particle;
  frame : Z;
  running : bool;
  center_x : Z;
  center_y : Z
}.

Definition set_particles (s : Sim) (ps : list Particle) : Sim :=
  mkSim (width s) (height s) ps (frame s) (running s) (center_x s) (center_y s).
Definition set_frame (s : Sim) (f : Z) : Sim :=
  mkSim (width s) (height s) (particles s) f (running s) (center_x s) (center_y s).

(** [self.particles.append(p)] *)
Definition append (s : Sim) (p : Particle) : Sim :=
  set_particles s (particles s ++ p :: nil).

(** [__init__(width, height)]: the fields take the arguments; then the size
    of the terminal, when [shutil.get_terminal_size()] returns one, replaces
    [width] and [height], and the centre is computed again, [center_y] from
    the argument [height]. *)
Definition init (width height : Z) (terminal : option (Z * Z)) : Sim :=
  match terminal with
  | Some (tw, th) => mkSim tw th nil 0 true (tw / 2) (height / 2)
  | None => mkSim width height nil 0 true (width / 2) (height / 2)
  end.

(** A simulator on a canvas of the given size before its first tick: what
    [__init__] leaves when the terminal has the size of the arguments, or
    none. *)
Definition new_sim (w h : Z) : Sim :=
  mkSim w h nil 0 true (w / 2) (h / 2).

(** [for i in range(n): s = body(i, s)] with the generator threaded through. *)
Fixpoint for_each {S : Type} (body : nat -> S -> Rand S) (l : list nat) (s : S) : Rand S :=
  match l with
  | nil => rand_ret s
  | i :: l' => (let* s' := body i s in for_each body l' s')%rand
  end.

(* ================================================================== *)
(** ** The simulator

    [math.cos] and [math.sin] come from the C library; the simulator is
    parameterised by them. *)

Section Simulator.

Variables cos sin : float -> float.

Local Open Scope float_scope.

(** The symbols the spiral emitter cycles through, and those a burst
    chooses from. *)
Definition spiral_chars : list string :=
  "."%string :: "*"%string :: "+"%string :: "o"%string :: "O"%string :: nil.
Definition burst_chars : list string :=
  "*"%string :: "#"%string :: "@"%string :: nil.

(** *** Emitter *)

(** The body of the loop of [emit_spiral] up to the construction of the
    particle, for the index [i]. *)
Definition spiral_particle (s : Sim) (i : nat) : Rand Particle :=
  (let angle := Py.float_of_int (frame s) * 0.25
                + (Py.float_of_int (Z.of_nat i * 2) * Py.pi / Py.float_of_int 12) in
   let radius := Py.float_of_int 1 + sin (Py.float_of_int (frame s) * 0.02) * 0.5 in
   let emit_x := Py.float_of_int (center_x s) + cos angle * radius * Py.float_of_int 3 in
   let emit_y := Py.float_of_int (center_y s) + sin angle * radius * 1.5 in
   let* u := Random.random in
   let speed := 0.6 + u * 0.4 in
   let vx := cos angle * speed in
   let vy := sin angle * speed * 0.5 in
   let* u := Random.random in
   let vx := vx + (u - 0.5) * 0.2 in
   let* u := Random.random in
   let vy := vy + (u - 0.5) * 0.1 in
   let color := nth (Z.to_nat (frame s mod Z.of_nat (List.length COLORS))%Z) COLORS ""%string in
   let char := nth (i mod List.length spiral_chars)%nat spiral_chars ""%string in
   let* r := Random.randint 0 30 in
   let life := (60 + r)%Z in
   rand_ret (mkParticle emit_x emit_y vx vy life life color char))%rand.

Definition emit_spiral (s : Sim) : Rand Sim :=
  let num_particles := 12%nat in
  for_each (fun i s => let* p := spiral_particle s i in rand_ret (append s p))%rand
           (seq 0 num_particles) s.

(** The body of the loop of [emit_burst]. The burst point is an [int]; the
    particle's position becomes a float at its first [p.x += p.vx], so the
    point is stored converted. *)
Definition burst_particle (burst_x burst_y : Z) (i : nat) : Rand Particle :=
  (let angle := Py.float_of_int (Z.of_nat i) / Py.float_of_int 15
                * Py.float_of_int 2 * Py.pi in
   let* u := Random.random in
   let speed := 0.5 + u * 0.6 in
   let vx := cos angle * speed in
   let vy := sin angle * speed * 0.5 in
   let* color := Random.choice ""%string COLORS in
   let* char := Random.choice ""%string burst_chars in
   let* r := Random.randint 0 15 in
   rand_ret (mkParticle (Py.float_of_int burst_x) (Py.float_of_int burst_y)
                        vx vy (35 + r)%Z 50%Z color char))%rand.

Definition emit_burst (s : Sim) : Rand Sim :=
  (let* u := Random.random in
   if u <? 0.04 then
     let num_particles := 15%nat in
     let* dx := Random.randint (-8) 8 in
     let burst_x := (center_x s + dx)%Z in
     let* dy := Random.randint (-4) 4 in
     let burst_y := (center_y s + dy)%Z in
     for_each (fun i s => let* p := burst_particle burst_x burst_y i in
                          rand_ret (append s p))
              (seq 0 num_particles) s
   else rand_ret s)%rand.

(** *** Integrator *)

(** The fade of the symbol, from the ratio of the remaining life. *)
Definition fade (life_ratio : float) (p : Particle) : Particle :=
  if life_ratio <? 0.25 then set_char p "."%string
  else if life_ratio <? 0.5 then set_char p "+"%string
  else if life_ratio <? 0.75 then set_char p "o"%string
  else p.

(** The body of the loop over the particles in [update]: each assignment
    reads the particle the previous one left. *)
Definition integrate (p : Particle) : option Particle :=
  let p := set_x p (x p + vx p) in
  let p := set_y p (y p + vy p) in
  let p := set_vy p (vy p + 0.015) in
  let p := set_vx p (vx p * 0.99) in
  let p := set_vy p (vy p * 0.99) in
  let p := set_life p (life p - 1)%Z in
  life_ratio ← Py.truediv (life p) (max_life p);
  Some (fade life_ratio p).

(** [for p in self.particles: ...]; the first error ends the loop. *)
Fixpoint integrate_all (ps : list Particle) : option (list Particle) :=
  match ps with
  | nil => Some nil
  | p :: ps' =>
      p' ← integrate p;
      ps'' ← integrate_all ps';
      Some (p' :: ps'')
  end.

(** The condition of the list comprehension that removes dead particles. *)
Definition alive (s : Sim) (p : Particle) : bool :=
  (0 <? life p)%Z
  && (Py.int_le_float 0 (x p) && Py.float_lt_int (x p) (width s))
  && (Py.int_le_float 0 (y p) && Py.float_lt_int (y p) (height s)).

(** [update]: one tick. [None] is the [ZeroDivisionError] of the
    integration. *)
Definition update (s : Sim) : Rand (option Sim) :=
  (let s := set_frame s (frame s + 1)%Z in
   let* s := emit_spiral s in
   let* s := emit_burst s in
   rand_ret (ps ← integrate_all (particles s);
             Some (set_particles s (List.filter (alive s) ps))))%rand.

(** *** Rasterizer *)

(** [[[c for _ in range(width)] for _ in range(height)]]: every row is a
    list of its own. *)
Definition blank {A} (w h : Z) (c : A) : list (list A) :=
  replicate (Z.to_nat h) (replicate (Z.to_nat w) c).

(** The character grid and the colour grid. *)
Definition Grids : Type := list (list string) * list (list (option string)).

(** The body of the loop that places the particles. *)
Definition place (s : Sim) (g : Grids) (p : Particle) : option Grids :=
  ix ← Py.int_of_float (x p);
  iy ← Py.int_of_float (y p);
  Some (if ((0 <=? ix)%Z && (ix <? width s)%Z) && ((0 <=? iy)%Z && (iy <? height s)%Z)
        then (alter (fun row => <[Z.to_nat ix := char p]> row) (Z.to_nat iy) (fst g),
              alter (fun row => <[Z.to_nat ix := Some (color p)]> row) (Z.to_nat iy) (snd g))
        else g).

Fixpoint place_all (s : Sim) (g : Grids) (ps : list Particle) : option Grids :=
  match ps with
  | nil => Some g
  | p :: ps' => g' ← place s g p; place_all s g' ps'
  end.

(** The two grids once every particle is placed. *)
Definition rasterize (s : Sim) : option Grids :=
  place_all s (blank (width s) (height s) " "%string, blank (width s) (height s) None)
            (particles s).

(** [grid[y][x]] *)
Definition cell {A} (d : A) (g : list (list A)) (y x : nat) : A :=
  default d (row ← g !! y; row !! x).

(** What one cell adds to its line: a colour that is [None] or empty is
    false. *)
Definition cell_text (g : Grids) (y x : nat) : string :=
  match cell None (snd g) y x with
  | Some EmptyString | None => cell ""%string (fst g) y x
  | Some c => (c ++ cell ""%string (fst g) y x ++ RESET)%string
  end.

Definition line_text (s : Sim) (g : Grids) (y : nat) : string :=
  fold_left (fun line x => (line ++ cell_text g y x)%string)
            (seq 0 (Z.to_nat (width s))) ""%string.

Definition output (s : Sim) (g : Grids) : string :=
  String.concat (String "010" "")
                (map (line_text s g) (seq 0 (Z.to_nat (height s)))).

(** [render] *)
Definition render (s : Sim) : option string :=
  g ← rasterize s; Some (output s g).

End Simulator.

(* ================================================================== *)
(** ** Derived notions used in the statements *)

(** The part of [update] before the loop over the particles: the frame
    counter and the two emitters. *)
Definition emit (cos sin : float -> float) (s : Sim) : Rand Sim :=
  (let s := set_frame s (frame s + 1) in
   let* s := emit_spiral cos sin s in
   emit_burst cos sin s)%rand.

Arguments emit : simpl never.
Arguments emit_spiral : simpl never.
Arguments emit_burst : simpl never.
Arguments spiral_particle : simpl never.
Arguments burst_particle : simpl never.
Arguments update : simpl never.

(** [n] successive integrations of one particle. *)
Fixpoint ticks (n : nat) (p : Particle) : option Particle :=
  match n with
  | O => Some p
  | S n' => q ← ticks n' p; integrate q
  end.

(** The relation between a particle before and after one integration, as the
    five assignments of the loop leave it. *)
Definition moved (p q : Particle) : Prop :=
  x q = (x p + vx p)%float /\
  y q = (y p + vy p)%float /\
  vx q = (vx p * 0.99)%float /\
  vy q = ((vy p + 0.015) * 0.99)%float /\
  life q = life p - 1.

(** The fade table as the specification states it: the bucket of a ratio,
    and the glyph of a bucket. *)
Inductive bucket := Faded_A | Faded_B | Faded_C | Unchanged.

Definition bucket_of (r : float) : bucket :=
  if (r <? 0.25)%float then Faded_A
  else if (r <? 0.5)%float then Faded_B
  else if (r <? 0.75)%float then Faded_C
  else Unchanged.

Definition glyph_table (b : bucket) (current : string) : string :=
  match b with
  | Faded_A => "."%string
  | Faded_B => "+"%string
  | Faded_C => "o"%string
  | Unchanged => current
  end.

(** How far a bucket is faded. *)
Definition fadedness (b : bucket) : nat :=
  match b with Unchanged => 0 | Faded_C => 1 | Faded_B => 2 | Faded_A => 3 end.

(** A particle hits the cell [(ix, iy)] when its truncated position is that
    cell. *)
Definition hits (ix iy : Z) (p : Particle) : Prop :=
  Py.int_of_float (x p) = Some ix /\ Py.int_of_float (y p) = Some iy.

(** The particles a loop of [append]s creates, in order. *)
Fixpoint spawn (mk : nat -> Rand Particle) (l : list nat) : Rand (list Particle) :=
  match l with
  | nil => rand_ret nil
  | i :: l' => (let* p := mk i in let* ps := spawn mk l' in rand_ret (p :: ps))%rand
  end.

(** The particles one call of [emit_spiral] creates. *)
Definition spiral_new (cos sin : float -> float) (s : Sim) (g : rng) : list Particle :=
  fst (spawn (spiral_particle cos sin s) (seq 0 12) g).

Definition burst_fires (g : rng) : bool :=
  (fst (Random.random g) <? 0.04)%float.

(** The particles a burst creates, once it fires. *)
Definition burst_new (cos sin : float -> float) (s : Sim) (g : rng) : list Particle * rng :=
  (let* dx := Random.randint (-8) 8 in
   let* dy := Random.randint (-4) 4 in
   spawn (burst_particle cos sin (center_x s + dx) (center_y s + dy))
         (seq 0 15))%rand (snd (Random.random g)).

(** The offsets of the burst point and the particles of a burst, from the
    outcomes of the calls. *)
Definition burst_dx (g : rng) : Z :=
  fst (Random.randint (-8) 8 (Rng (outcome g) (1 + calls g))).
Definition burst_dy (g : rng) : Z :=
  fst (Random.randint (-4) 4 (Rng (outcome g) (2 + calls g))).

(** The ratio [l / m] is within [[0, 1]]. *)
Definition unit_ratio (m l : Z) : bool :=
  match Py.truediv l m with
  | Some r => (0 <=? r)%float && (r <=? 1)%float
  | None => false
  end.

(** The bucket of the ratio [l / m] ([Unchanged] when the division raises). *)
Definition bucket_at (m l : Z) : bucket :=
  match Py.truediv l m with
  | Some r => bucket_of r
  | None => Unchanged
  end.

(** One more tick does not lead to a less faded bucket. *)
Definition fades_on (m l : Z) : bool :=
  (fadedness (bucket_at m l) <=? fadedness (bucket_at m (l - 1)))%nat.

(** The boolean form of [hits]. *)
Definition hitsb (ix iy : Z) (p : Particle) : bool :=
  match Py.int_of_float (x p), Py.int_of_float (y p) with
  | Some a, Some b => (a =? ix) && (b =? iy)
  | _, _ => false
  end.

(** The last particle of the collection that hits a cell, if any. *)
Fixpoint last_hit (ix iy : Z) (ps : list Particle) : option Particle :=
  match ps with
  | nil => None
  | p :: ps' =>
      match last_hit ix iy ps' with
      | Some q => Some q
      | None => if hitsb ix iy p then Some p else None
      end
  end.

(** The two grids in the words of the specification: a grid of [height]
    rows of [width] cells, each the glyph and the colour tag of the last
    particle of the collection whose truncated position is the cell, or the
    blank and no colour. *)
Definition frame_glyph (ps : list Particle) (iy ix : nat) : string :=
  match last_hit (Z.of_nat ix) (Z.of_nat iy) ps with
  | Some p => char p
  | None => " "%string
  end.

Definition frame_color (ps : list Particle) (iy ix : nat) : option string :=
  match last_hit (Z.of_nat ix) (Z.of_nat iy) ps with
  | Some p => Some (color p)
  | None => None
  end.

Definition table {A} (w h : Z) (f : nat -> nat -> A) : list (list A) :=
  map (fun iy => map (f iy) (seq 0 (Z.to_nat w))) (seq 0 (Z.to_nat h)).

Definition frame_grids (w h : Z) (ps : list Particle) : Grids :=
  (table w h (frame_glyph ps), table w h (frame_color ps)).

(** The frame in the words of the specification, as a function of the size
    of the canvas and of the ordered collection alone: [height] lines of
    [width] cells; a cell shows the glyph of the last particle of the
    collection whose truncated position is the cell, between its colour tag
    and the reset code, and a blank when no particle hits it. *)
Definition shown (ps : list Particle) (iy ix : nat) : string :=
  match last_hit (Z.of_nat ix) (Z.of_nat iy) ps with
  | Some p =>
      match color p with
      | EmptyString => char p
      | c => (c ++ char p ++ RESET)%string
      end
  | None => " "%string
  end.

Definition frame_line (w : Z) (ps : list Particle) (iy : nat) : string :=
  fold_right String.append ""%string (map (shown ps iy) (seq 0 (Z.to_nat w))).

Definition frame_text (w h : Z) (ps : list Particle) : string :=
  String.concat (String "010" "")
                (map (frame_line w ps) (seq 0 (Z.to_nat h))).

(** A grid of [h] rows of [w] cells. *)
Definition rect {A} (w h : nat) (g : list (list A)) : Prop :=
  List.length g = h /\ Forall (fun row => List.length row = w) g.

(** A position [int()] accepts. *)
Definition finite_position (p : Particle) : Prop :=
  is_Some (Py.int_of_float (x p)) /\ is_Some (Py.int_of_float (y p)).

(** The angle of the [i]-th particle of the spiral and the phase of its
    radius, at the frame [fr]. *)
Definition spiral_angle (fr : Z) (i : nat) : float :=
  (Py.float_of_int fr * 0.25
   + (Py.float_of_int (Z.of_nat i * 2) * Py.pi / Py.float_of_int 12))%float.

Definition spiral_phase (fr : Z) : float := (Py.float_of_int fr * 0.02)%float.

(** The simulator of 80 x 24 once the frame counter of its first tick is
    incremented. *)
Definition tick1 : Sim := set_frame (new_sim 80 24) 1.

(* ================================================================== *)
(** ** Ticks in sequence and the loop of [run] *)

(** [n] successive calls of [update], the generator threaded from each to
    the next; the first error ends them. *)
Fixpoint updates (cos sin : float -> float) (n : nat) (s : Sim) : Rand (option Sim) :=
  fun g =>
    match n with
    | O => (Some s, g)
    | S n' =>
        match update cos sin s g with
        | (Some s', g') => updates cos sin n' s' g'
        | (None, g') => (None, g')
        end
    end.

(** The generator by the time the burst of a tick is drawn: the twelve
    spiral particles have made four calls each. *)
Definition burst_draw (g : rng) : rng := Rng (outcome g) (48 + calls g).

(** The lives a tick leaves: positive, below [max_life], which is the 50 of
    a burst or the life a spiral particle was spawned with. *)
Definition in_its_life (p : Particle) : Prop :=
  0 < life p < max_life p /\ (max_life p = 50 \/ 60 <= max_life p <= 90).

(** The emitter a particle comes from, read from its [max_life]. *)
Definition spiral_born (p : Particle) : bool := 60 <=? max_life p.
Definition burst_born (p : Particle) : bool := max_life p =? 50.

(** The number of the particles of a kind with at least [j] ticks left. *)
Definition count_from (K : Particle -> bool) (j : Z) (ps : list Particle) : nat :=
  List.length (List.filter (fun p => K p && (j <=? life p)) ps).

(** The members of [crowd K c L]: collections with at most [c] particles
    of the kind [K] for each remaining life below [L]. *)
Definition crowd (K : Particle -> bool) (c : nat) (L : Z) (ps : list Particle) : Prop :=
  forall j, (count_from K j ps <= c * Z.to_nat (L - j))%nat.

(** The two crowds a tick keeps. *)
Definition in_bounds (s : Sim) : Prop :=
  Forall in_its_life (particles s) /\
  crowd spiral_born 12 90 (particles s) /\
  crowd burst_born 15 50 (particles s).

(** The bucket of [l / m] by integer comparisons, without a division. *)
Definition bucket_by_integers (m l : Z) : bucket :=
  if 4 * l <? m then Faded_A
  else if 2 * l <? m then Faded_B
  else if 4 * l <? 3 * m then Faded_C
  else Unchanged.

Definition same_bucket (a b : bucket) : bool :=
  (fadedness a =? fadedness b)%nat.

(** The 53 bits [random.random()] is made of. *)
Definition random_bits (g : rng) : Z := Z.of_N (outcome g (calls g)) mod 2 ^ 53.

(** The angle of the [i]-th particle of a burst. *)
Definition burst_angle (i : nat) : float :=
  (Py.float_of_int (Z.of_nat i) / Py.float_of_int 15 * Py.float_of_int 2 * Py.pi)%float.

(** A line of [n] blanks. *)
Fixpoint spaces (n : nat) : string :=
  match n with
  | O => ""%string
  | S n' => String " " (spaces n')
  end.

(** What the loop of [run] does to the terminal and to the clock. *)
Inductive event :=
  | Print (text : string)
  | Sleep (seconds : float).


(** The end of an iteration: [elapsed = time.time() - start_time], then
    [time.sleep(frame_time - elapsed)] when that is positive. *)
Definition pace (frame_time start_time now : float) : list event :=
  let elapsed := (now - start_time)%float in
  let sleep_time := (frame_time - elapsed)%float in
  if (0 <? sleep_time)%float then Sleep sleep_time :: nil else nil.





(* ================================================================== *)
(** ** The real value of a float

    The values of the floats are read as real numbers, to bound the results
    of the arithmetic of the program. *)

Module Binary64.

Definition bpow (e : Z) : R := powerRZ 2 e.

Definition F2R (m e : Z) : R := (IZR m * bpow e)%R.

(** The value and the finiteness of a specification float. *)
Definition SFval (f : spec_float) : R :=
  match f with
  | S754_finite s m e => F2R (cond_Zopp s (Z.pos m)) e
  | _ => 0%R
  end.

Definition SFfin (f : spec_float) : Prop :=
  match f with
  | S754_zero _ | S754_finite _ _ _ => True
  | _ => False
  end.

(** The float of sign [s] and magnitude [m * 2^e]. *)
Definition SFmake (s : bool) (m e : Z) : spec_float :=
  match m with
  | Z0 => S754_zero s
  | Z.pos p => S754_finite s p e
  | Z.neg _ => S754_nan
  end.

Definition val (f : float) : R := SFval (Prim2SF f).
Definition fin (f : float) : Prop := SFfin (Prim2SF f).

(** [f] is finite and lies between [lo / 256] and [hi / 256]. *)
Definition inside (lo hi : Z) (f : float) : Prop :=
  fin f /\ (IZR lo / 256 <= val f <= IZR hi / 256)%R.

(** Deciding [inside] on a float that is known. *)
Definition SFinside (lo hi : Z) (f : spec_float) : bool :=
  match f with
  | S754_zero _ => (lo <=? 0) && (0 <=? hi)
  | S754_finite s m e =>
      if 0 <=? e + 8
      then (lo <=? cond_Zopp s (Z.pos m) * 2 ^ (e + 8))
           && (cond_Zopp s (Z.pos m) * 2 ^ (e + 8) <=? hi)
      else (lo * 2 ^ (- (e + 8)) <=? cond_Zopp s (Z.pos m))
           && (cond_Zopp s (Z.pos m) <=? hi * 2 ^ (- (e + 8)))
  | _ => false
  end.

End Binary64.

(** The position of a particle is on the canvas: both coordinates are finite,
    with [0 <= x < width] and [0 <= y < height] as real numbers. *)
Definition on_canvas (s : Sim) (p : Particle) : Prop :=
  (Binary64.fin (x p) /\ (0 <= Binary64.val (x p) < IZR (width s))%R) /\
  (Binary64.fin (y p) /\ (0 <= Binary64.val (y p) < IZR (height s))%R).

(** A value of the range of a sine or a cosine: finite, in [[-1, 1]]. *)
Definition unit_range (v : float) : Prop := Binary64.inside (-256) 256 v.

(* ================================================================== *)
(** ** Concrete inputs for the examples

    A stand-in for the C library (truncated Taylor series, accurate on the
    angles of one turn), two generators, a fresh 80 x 24 simulator and a
    particle in its last tick. *)

Module Libm.

(** [acc + t1 + t2 + ...] with [t(j+1) = - t(j) * x2 / ((k+1) * (k+2))]. *)
Fixpoint series (n : nat) (k : Z) (term acc x2 : float) : float :=
  match n with
  | O => acc
  | S n' =>
      let term' := (- term * x2 / Py.float_of_int ((k + 1) * (k + 2)))%float in
      series n' (k + 2) term' (acc + term')%float x2
  end.

Definition cos (a : float) : float := series 30 0 1%float 1%float (a * a)%float.
Definition sin (a : float) : float := series 30 1 a a (a * a)%float.

End Libm.

(** A generator whose every call receives the same entropy. *)
Definition constant_rng (n : N) : rng := Rng (fun _ => n) 0.

(** A generator with varied outcomes; its burst draw on the first tick (the
    49th call) fails. *)
Definition sample_rng : rng :=
  Rng (fun k => (N.of_nat k * 7919 + 12345) * 1234567891011)%N 0.

Definition sim0 : Sim := new_sim 80 24.

(** The state after the first tick of [sim0] under [sample_rng]. *)
Definition sim1 : Sim :=
  default sim0 (fst (update Libm.cos Libm.sin sim0 sample_rng)).

(** A particle with one tick left out of 60. *)
Definition last_tick : Particle :=
  mkParticle 40 12 1 0 1 60 (String "027" "[91m") "O".

(** A particle at spawn, with 60 ticks out of 60, and one half way. *)
Definition fresh : Particle :=
  mkParticle 40 12 1 0 60 60 (String "027" "[92m") "O".
Definition half_way : Particle :=
  mkParticle 40 12 1 0 31 60 (String "027" "[93m") "*".

(** A particle just left of the canvas, on its first row. *)
Definition left_of_canvas : Particle :=
  mkParticle (-0.5)%float 3 0 0 10 60 (String "027" "[91m") "*".

(** The state after the two first ticks of [sim0] under [sample_rng]. *)
Definition sim2 : Sim :=
  default sim0 (fst (updates Libm.cos Libm.sin 2 sim0 sample_rng)).

(** The state after a first tick of [sim0] in which a burst fires. *)
Definition sim1_burst : Sim :=
  default sim0 (fst (update Libm.cos Libm.sin sim0 (constant_rng 9))).

(* ================================================================== *)
(** ** Bounds on binary64 arithmetic

    The operations of the primitive floats are specified by those of
    [SpecFloat]: the exact result, rounded to nearest. Rounding does not
    cross a number the format holds exactly, so a sum, a difference or a
    product stays between two such bounds whenever the exact result does.
    Values are read as real numbers. *)

Module Binary64Facts.

Import Binary64.

(** ** Powers of two and dyadic numbers *)

Lemma bpow_pos e : (0 < bpow e)%R.
Proof. apply powerRZ_lt. lra. Qed.

Lemma bpow_add a b : bpow (a + b) = (bpow a * bpow b)%R.
Proof. apply powerRZ_add. lra. Qed.

Lemma bpow_IZR e : 0 <= e -> bpow e = IZR (2 ^ e).
Proof.
  intros He. unfold bpow.
  rewrite <- (Zpower_nat_powerRZ_absolu 2 e He), Zpower_nat_Z.
  rewrite Zabs2Nat.id_abs, Z.abs_eq by exact He. reflexivity.
Qed.

Lemma bpow_ge_1 e : 0 <= e -> (1 <= bpow e)%R.
Proof.
  intros He. rewrite bpow_IZR by exact He. apply IZR_le.
  pose proof (Z.pow_pos_nonneg 2 e ltac:(lia) He). lia.
Qed.

Lemma bpow_le a b : a <= b -> (bpow a <= bpow b)%R.
Proof.
  intros Hab. replace b with (a + (b - a)) by lia. rewrite bpow_add.
  pose proof (bpow_pos a). pose proof (bpow_ge_1 (b - a) ltac:(lia)). nra.
Qed.

Lemma bpow_lt_inv a b : (bpow a < bpow b)%R -> a < b.
Proof.
  intros H. destruct (Z_lt_le_dec a b) as [Hlt|Hle]; [exact Hlt|].
  pose proof (bpow_le b a Hle). lra.
Qed.

(** A dyadic number on a finer grid. *)
Lemma F2R_shift m e j : 0 <= j -> F2R (m * 2 ^ j) (e - j) = F2R m e.
Proof.
  intros Hj. unfold F2R. rewrite mult_IZR, <- bpow_IZR by exact Hj.
  rewrite Rmult_assoc, <- bpow_add. f_equal. f_equal. lia.
Qed.

Lemma F2R_le m1 m2 e : (F2R m1 e <= F2R m2 e)%R <-> m1 <= m2.
Proof.
  unfold F2R. pose proof (bpow_pos e). split.
  - intros Hle. apply le_IZR. nra.
  - intros Hle. apply IZR_le in Hle. nra.
Qed.

Lemma F2R_lt m1 m2 e : (F2R m1 e < F2R m2 e)%R <-> m1 < m2.
Proof.
  unfold F2R. pose proof (bpow_pos e). split.
  - intros Hlt. apply lt_IZR. nra.
  - intros Hlt. apply IZR_lt in Hlt. nra.
Qed.

Lemma F2R_0 e : F2R 0 e = 0%R.
Proof. unfold F2R. lra. Qed.

Lemma F2R_opp m e : F2R (- m) e = (- F2R m e)%R.
Proof. unfold F2R. rewrite opp_IZR. lra. Qed.

Lemma F2R_plus m1 m2 e : F2R (m1 + m2) e = (F2R m1 e + F2R m2 e)%R.
Proof. unfold F2R. rewrite plus_IZR. lra. Qed.

Lemma F2R_mult m1 e1 m2 e2 : F2R (m1 * m2) (e1 + e2) = (F2R m1 e1 * F2R m2 e2)%R.
Proof. unfold F2R. rewrite mult_IZR, bpow_add. lra. Qed.

(** ** Digits *)

Lemma digits2_pos_spec m :
  2 ^ (Z.pos (digits2_pos m) - 1) <= Z.pos m < 2 ^ Z.pos (digits2_pos m).
Proof.
  induction m as [m IH|m IH|]; cbn [digits2_pos].
  - rewrite Pos2Z.inj_succ.
    replace (Z.succ (Z.pos (digits2_pos m)) - 1) with (Z.succ (Z.pos (digits2_pos m) - 1)) by lia.
    rewrite !Z.pow_succ_r by lia. lia.
  - rewrite Pos2Z.inj_succ.
    replace (Z.succ (Z.pos (digits2_pos m)) - 1) with (Z.succ (Z.pos (digits2_pos m) - 1)) by lia.
    rewrite !Z.pow_succ_r by lia. lia.
  - cbn. lia.
Qed.

(** ** Shifting right *)

Lemma iter_pos_nat {A} (f : A -> A) p : forall x,
  SpecFloat.iter_pos f p x = Nat.iter (Pos.to_nat p) f x.
Proof.
  induction p as [p IH|p IH|]; intros x; cbn [SpecFloat.iter_pos].
  - rewrite !IH, Pos2Nat.inj_xI.
    replace (S (2 * Pos.to_nat p))%nat with (Pos.to_nat p + (Pos.to_nat p + 1))%nat by lia.
    rewrite !Nat.iter_add. reflexivity.
  - rewrite !IH, Pos2Nat.inj_xO.
    replace (2 * Pos.to_nat p)%nat with (Pos.to_nat p + Pos.to_nat p)%nat by lia.
    rewrite Nat.iter_add. reflexivity.
  - reflexivity.
Qed.

Lemma shr_1_spec m r s :
  0 <= m ->
  shr_1 (Build_shr_record m r s) = Build_shr_record (m / 2) (Z.odd m) (r || s).
Proof.
  intros Hm. rewrite <- Z.div2_div.
  destruct m as [|[p|p|]|p]; try reflexivity. lia.
Qed.

Lemma shr_n_spec n : forall m r s,
  0 <= m ->
  shr_m (Nat.iter n shr_1 (Build_shr_record m r s)) = m / 2 ^ Z.of_nat n /\
  (shr_r (Nat.iter n shr_1 (Build_shr_record m r s))
   || shr_s (Nat.iter n shr_1 (Build_shr_record m r s))
   = negb (m mod 2 ^ Z.of_nat n =? 0) || (r || s)).
Proof.
  induction n as [|n IH]; intros m r s Hm.
  - cbn [Nat.iter shr_m shr_r shr_s]. rewrite Z.pow_0_r, Z.div_1_r, Z.mod_1_r.
    split; reflexivity.
  - rewrite Nat.iter_succ_r, shr_1_spec by exact Hm.
    destruct (IH (m / 2) (Z.odd m) (r || s) ltac:(apply Z.div_pos; lia)) as [-> ->].
    rewrite Nat2Z.inj_succ, Z.pow_succ_r by lia.
    assert (0 < 2 ^ Z.of_nat n) as Hp by (apply Z.pow_pos_nonneg; lia).
    split.
    + rewrite Z.div_div by lia. reflexivity.
    + rewrite (Z.rem_mul_r m 2 (2 ^ Z.of_nat n)) by lia.
      rewrite Zmod_odd.
      pose proof (Z.mod_pos_bound (m / 2) (2 ^ Z.of_nat n) Hp) as Hb.
      destruct (Z.odd m);
        destruct (Z.eqb_spec ((m / 2) mod 2 ^ Z.of_nat n) 0) as [E|E];
        destruct (Z.eqb_spec
          ((if true then 1 else 0) + 2 * ((m / 2) mod 2 ^ Z.of_nat n)) 0);
        destruct (Z.eqb_spec
          ((if false then 1 else 0) + 2 * ((m / 2) mod 2 ^ Z.of_nat n)) 0);
        cbn; try reflexivity; try lia; destruct r, s; reflexivity.
Qed.

(** Shifting [m] right by [n] bits, with or without the rounding to nearest,
    does not cross a multiple of [2^n]. *)
Lemma round_grid m n q' :
  0 <= m ->
  let mrs := Nat.iter n shr_1 (Build_shr_record m false false) in
  q' = shr_m mrs \/ q' = round_nearest_even (shr_m mrs) (loc_of_shr_record mrs) ->
  0 <= q' /\
  forall N, (N * 2 ^ Z.of_nat n <= m -> N <= q') /\
            (m <= N * 2 ^ Z.of_nat n -> q' <= N).
Proof.
  intros Hm mrs Hq'.
  destruct (shr_n_spec n m false false Hm) as [Hq Hf]. fold mrs in Hq, Hf.
  assert (0 < 2 ^ Z.of_nat n) as Hp by (apply Z.pow_pos_nonneg; lia).
  pose proof (Z.div_mod m (2 ^ Z.of_nat n) ltac:(lia)) as Hdm.
  pose proof (Z.mod_pos_bound m (2 ^ Z.of_nat n) Hp) as Hb.
  set (P := 2 ^ Z.of_nat n) in *. set (q := m / P) in *. set (t := m mod P) in *.
  assert (q' = q \/ (q' = q + 1 /\ t <> 0)) as Hcase.
  { destruct Hq' as [->| ->]; [left; exact Hq|]. rewrite Hq.
    destruct mrs as [mq r s]. cbn [shr_m shr_r shr_s loc_of_shr_record] in *.
    destruct r, s; cbn [round_nearest_even]; cbn [orb] in Hf;
      destruct (Z.eqb_spec t 0) as [E|E]; cbn [negb] in Hf; try discriminate;
      try (left; reflexivity); try (right; split; [reflexivity | exact E]).
    destruct (Z.even q); [left; reflexivity | right; split; [reflexivity | exact E]]. }
  assert (0 <= q) as Hq0 by (apply Z.div_pos; lia).
  split; [lia|]. intros N. split; intros HN.
  - assert (N <= q) by nia. lia.
  - destruct Hcase as [->|[-> Ht]]; nia.
Qed.

(** ** One rounding stage

    [shr_fexp] brings a mantissa to the exponent of the format. Between two
    dyadic bounds [N1 * 2^k] and [N2 * 2^k] that the format holds exactly
    ([N2 < 2^53], [k] not below the least exponent), the result stays
    between the bounds, rounded to nearest or truncated. *)
Lemma shr_fexp_bounds m e N1 N2 k q' :
  0 <= m -> emin <= k -> N2 < 2 ^ 53 ->
  (F2R N1 k <= F2R m e <= F2R N2 k)%R ->
  (q' = shr_m (fst (shr_fexp prec emax m e loc_Exact)) \/
   q' = round_nearest_even (shr_m (fst (shr_fexp prec emax m e loc_Exact)))
          (loc_of_shr_record (fst (shr_fexp prec emax m e loc_Exact)))) ->
  0 <= q' /\
  (F2R N1 k <= F2R q' (snd (shr_fexp prec emax m e loc_Exact)) <= F2R N2 k)%R.
Proof.
  intros Hm Hk HN2 Hb. unfold shr_fexp, shr.
  cbn [shr_record_of_loc].
  destruct (fexp prec emax (Zdigits2 m + e) - e) as [|p|p] eqn:Hn;
    cbn [fst snd shr_m loc_of_shr_record round_nearest_even].
  - intros [->| ->]; split; assumption.
  - rewrite iter_pos_nat. intros Hq'.
    destruct (round_grid m (Pos.to_nat p) q' Hm Hq') as [Hq0 Hgrid].
    rewrite positive_nat_Z in Hgrid. split; [exact Hq0|].
    destruct (Z.eq_dec m 0) as [->|Hm0].
    + destruct (Hgrid 0) as [_ Hup]. assert (q' = 0) as -> by lia.
      rewrite F2R_0 in *. exact Hb.
    + destruct m as [|pm|pm]; [congruence| |lia]. cbn [Zdigits2] in Hn.
      pose proof (digits2_pos_spec pm) as [Hd _].
      set (d := Z.pos (digits2_pos pm)) in *.
      assert (d + e - 53 <= k) as Hdk.
      { assert (bpow (d - 1 + e) < bpow (53 + k))%R as Hlt.
        { rewrite !bpow_add, (bpow_IZR (d - 1)), (bpow_IZR 53) by lia.
          apply IZR_le in Hd. apply IZR_lt in HN2.
          pose proof (bpow_pos e). pose proof (bpow_pos k).
          unfold F2R in Hb. nra. }
        apply bpow_lt_inv in Hlt. lia. }
      set (e' := e + Z.pos p) in *.
      assert (e' <= k) as He'k.
      { unfold e'. unfold fexp in Hn. unfold emin, SpecFloat.emin in *.
        change prec with 53 in *. change emax with 1024 in *. lia. }
      set (j := k - e').
      assert (forall N, F2R N k = F2R (N * 2 ^ j * 2 ^ Z.pos p) e) as Hsh.
      { intros N. rewrite <- Z.mul_assoc, <- Z.pow_add_r by lia.
        rewrite <- (F2R_shift N k (j + Z.pos p)) by lia.
        f_equal. unfold j, e'. lia. }
      rewrite (Hsh N1), (Hsh N2), !F2R_le in Hb.
      destruct (Hgrid (N1 * 2 ^ j)) as [Hlo _].
      destruct (Hgrid (N2 * 2 ^ j)) as [_ Hhi].
      rewrite <- (F2R_shift N1 k j), <- (F2R_shift N2 k j) by lia.
      replace (k - j) with e' by (unfold j; lia).
      rewrite !F2R_le. lia.
  - intros [->| ->]; split; assumption.
Qed.

(** ** Rounding *)

Lemma round_aux_bounds s m e N1 N2 k :
  0 <= m -> emin <= k <= 900 -> N2 < 2 ^ 53 ->
  (F2R N1 k <= F2R m e <= F2R N2 k)%R ->
  exists m' e',
    0 <= m' /\ (F2R N1 k <= F2R m' e' <= F2R N2 k)%R /\
    binary_round_aux prec emax s m e loc_Exact = SFmake s m' e'.
Proof.
  intros Hm Hk HN2 Hb. unfold binary_round_aux.
  destruct (shr_fexp_bounds m e N1 N2 k _ Hm (proj1 Hk) HN2 Hb (or_intror eq_refl))
    as [Hm1 Hb1].
  destruct (shr_fexp prec emax m e loc_Exact) as [mrs1 e1]. cbn [fst snd] in Hm1, Hb1.
  set (m1 := round_nearest_even (shr_m mrs1) (loc_of_shr_record mrs1)) in *.
  destruct (shr_fexp_bounds m1 e1 N1 N2 k _ Hm1 (proj1 Hk) HN2 Hb1 (or_introl eq_refl))
    as [Hm2 Hb2].
  destruct (shr_fexp prec emax m1 e1 loc_Exact) as [mrs2 e2]. cbn [fst snd] in Hm2, Hb2.
  exists (shr_m mrs2), e2. split; [exact Hm2|]. split; [exact Hb2|].
  destruct (shr_m mrs2) as [|p|p] eqn:Hp; cbn [SFmake]; [reflexivity| |lia].
  assert (e2 < 53 + k) as He2.
  { apply bpow_lt_inv. rewrite bpow_add, (bpow_IZR 53) by lia.
    apply IZR_lt in HN2. pose proof (bpow_pos e2). pose proof (bpow_pos k).
    assert (1 <= IZR (Z.pos p))%R by (apply IZR_le; lia).
    unfold F2R in Hb2. nra. }
  replace (e2 <=? emax - prec) with true; [reflexivity|].
  symmetry. apply Z.leb_le. change emax with 1024. change prec with 53. lia.
Qed.

Lemma SFmake_fin s m e : 0 <= m -> SFfin (SFmake s m e).
Proof. destruct m; cbn; [tauto | tauto | lia]. Qed.

Lemma SFmake_val s m e : 0 <= m -> SFval (SFmake s m e) = F2R (cond_Zopp s m) e.
Proof.
  destruct m as [|p|p]; cbn [SFmake SFval]; intros H; [|reflexivity|lia].
  destruct s; cbn; rewrite F2R_0; reflexivity.
Qed.

(** Rounding a signed dyadic number keeps it between two dyadic bounds the
    format holds exactly. *)
Lemma round_aux_val s m e NL NH k :
  0 <= m -> emin <= k <= 900 -> - 2 ^ 53 < NL -> NH < 2 ^ 53 ->
  (F2R NL k <= F2R (cond_Zopp s m) e <= F2R NH k)%R ->
  SFfin (binary_round_aux prec emax s m e loc_Exact) /\
  (F2R NL k <= SFval (binary_round_aux prec emax s m e loc_Exact) <= F2R NH k)%R.
Proof.
  intros Hm Hk HNL HNH Hb.
  assert (0 <= F2R m e)%R as Hpos.
  { unfold F2R. pose proof (bpow_pos e). apply IZR_le in Hm. nra. }
  destruct s; cbn [cond_Zopp] in Hb.
  - rewrite F2R_opp in Hb.
    destruct (round_aux_bounds true m e (Z.max (- NH) 0) (- NL) k Hm Hk ltac:(lia))
      as (m' & e' & Hm' & Hb' & ->).
    { split; [|rewrite F2R_opp; lra].
      destruct (Z.max_spec (- NH) 0) as [[_ ->]|[_ ->]];
        [rewrite F2R_0 | rewrite F2R_opp]; lra. }
    split; [apply SFmake_fin; exact Hm'|].
    rewrite SFmake_val by exact Hm'. cbn [cond_Zopp]. rewrite F2R_opp.
    rewrite F2R_opp in Hb'.
    assert (F2R (- NH) k <= F2R (Z.max (- NH) 0) k)%R by (apply F2R_le; lia).
    rewrite F2R_opp in H. lra.
  - destruct (round_aux_bounds false m e (Z.max NL 0) NH k Hm Hk HNH)
      as (m' & e' & Hm' & Hb' & ->).
    { split; [|lra].
      destruct (Z.max_spec NL 0) as [[_ ->]|[_ ->]]; [rewrite F2R_0|]; lra. }
    split; [apply SFmake_fin; exact Hm'|].
    rewrite SFmake_val by exact Hm'. cbn [cond_Zopp].
    assert (F2R NL k <= F2R (Z.max NL 0) k)%R by (apply F2R_le; lia).
    lra.
Qed.

Lemma cond_Zopp_F2R s m e :
  F2R (cond_Zopp s m) e = (if s then - F2R m e else F2R m e)%R.
Proof. destruct s; cbn [cond_Zopp]; [apply F2R_opp | reflexivity]. Qed.

Lemma shl_align_val mx ex ex' :
  F2R (Z.pos (fst (shl_align mx ex ex'))) (snd (shl_align mx ex ex'))
  = F2R (Z.pos mx) ex.
Proof.
  unfold shl_align. destruct (ex' - ex) as [|d|d] eqn:Hd; cbn [fst snd];
    try reflexivity.
  change (Pos.iter xO mx d) with (shift_pos d mx).
  rewrite shift_pos_correct. change (Z.pow_pos 2 d) with (2 ^ Z.pos d).
  rewrite Z.mul_comm. rewrite <- (F2R_shift (Z.pos mx) ex (Z.pos d)) by lia.
  f_equal. lia.
Qed.

Lemma shl_align_snd mx ex ex' : ex' <= ex -> snd (shl_align mx ex ex') = ex'.
Proof.
  intros H. unfold shl_align.
  destruct (ex' - ex) as [|d|d] eqn:Hd; cbn [snd]; lia.
Qed.

Section Bounds.

Variables (NL NH k : Z).
Hypothesis Hk : emin <= k <= 900.
Hypothesis HNL : - 2 ^ 53 < NL.
Hypothesis HNH : NH < 2 ^ 53.

Notation "'between' v" := (F2R NL k <= v <= F2R NH k)%R (at level 10).

Lemma binary_round_val s mx ex :
  between (F2R (cond_Zopp s (Z.pos mx)) ex) ->
  SFfin (binary_round prec emax s mx ex) /\
  between (SFval (binary_round prec emax s mx ex)).
Proof.
  intros Hb. unfold binary_round.
  pose proof (shl_align_val mx ex (fexp prec emax (Z.pos (digits2_pos mx) + ex))) as Hv.
  destruct (shl_align mx ex (fexp prec emax (Z.pos (digits2_pos mx) + ex)))
    as [mz ez]. cbn [fst snd] in Hv.
  apply round_aux_val; try assumption; [lia|].
  rewrite cond_Zopp_F2R, Hv, <- cond_Zopp_F2R. exact Hb.
Qed.

Lemma binary_normalize_val m e sz :
  between (F2R m e) ->
  SFfin (binary_normalize prec emax m e sz) /\
  between (SFval (binary_normalize prec emax m e sz)).
Proof.
  intros Hb. destruct m as [|p|p]; cbn [binary_normalize].
  - rewrite F2R_0 in Hb. cbn. tauto.
  - apply binary_round_val. exact Hb.
  - apply binary_round_val. exact Hb.
Qed.

(** The aligned mantissa of an operand of a sum. *)
Lemma aligned_val s mx ex ez :
  ez <= ex ->
  F2R (cond_Zopp s (Z.pos (fst (shl_align mx ex ez)))) ez
  = SFval (S754_finite s mx ex).
Proof.
  intros H. cbn [SFval]. rewrite !cond_Zopp_F2R.
  rewrite <- (shl_align_val mx ex ez), (shl_align_snd mx ex ez H). reflexivity.
Qed.

Lemma SFadd_val x y :
  SFfin x -> SFfin y ->
  between (SFval x + SFval y) ->
  SFfin (SFadd prec emax x y) /\ between (SFval (SFadd prec emax x y)).
Proof.
  destruct x as [sx|sx| |sx mx ex], y as [sy|sy| |sy my ey]; cbn [SFfin];
    try tauto; intros _ _ Hb.
  - cbn [SFadd]. destruct sx, sy; cbn [SFfin SFval] in *; split; (tauto || lra).
  - cbn [SFadd]. cbn [SFfin]. cbn [SFval] in Hb |- *. split; [tauto|lra].
  - cbn [SFadd]. cbn [SFfin]. cbn [SFval] in Hb |- *. split; [tauto|lra].
  - cbn [SFadd]. apply binary_normalize_val.
    rewrite F2R_plus, !aligned_val by lia. exact Hb.
Qed.

Lemma SFsub_val x y :
  SFfin x -> SFfin y ->
  between (SFval x - SFval y) ->
  SFfin (SFsub prec emax x y) /\ between (SFval (SFsub prec emax x y)).
Proof.
  destruct x as [sx|sx| |sx mx ex], y as [sy|sy| |sy my ey]; cbn [SFfin];
    try tauto; intros _ _ Hb.
  - cbn [SFsub]. destruct sx, sy; cbn [SFfin SFval] in *; split; (tauto || lra).
  - cbn [SFsub]. cbn [SFfin]. cbn [SFval] in Hb |- *. split; [tauto|].
    rewrite cond_Zopp_F2R in *. destruct sy; cbn [negb]; lra.
  - cbn [SFsub]. cbn [SFfin]. cbn [SFval] in Hb |- *. split; [tauto|lra].
  - cbn [SFsub]. apply binary_normalize_val.
    replace (cond_Zopp sx (Z.pos (fst (shl_align mx ex (Z.min ex ey))))
             - cond_Zopp sy (Z.pos (fst (shl_align my ey (Z.min ex ey)))))
      with (cond_Zopp sx (Z.pos (fst (shl_align mx ex (Z.min ex ey))))
            + - cond_Zopp sy (Z.pos (fst (shl_align my ey (Z.min ex ey))))) by lia.
    rewrite F2R_plus, F2R_opp, !aligned_val by lia. exact Hb.
Qed.

Lemma SFmul_val x y :
  SFfin x -> SFfin y ->
  between (SFval x * SFval y) ->
  SFfin (SFmul prec emax x y) /\ between (SFval (SFmul prec emax x y)).
Proof.
  destruct x as [sx|sx| |sx mx ex], y as [sy|sy| |sy my ey]; cbn [SFfin];
    try tauto; intros _ _ Hb; cbn [SFmul].
  - cbn [SFfin SFval] in *. split; [tauto|lra].
  - cbn [SFfin SFval] in *. split; [tauto|lra].
  - cbn [SFfin SFval] in *. split; [tauto|lra].
  - apply round_aux_val; try assumption; [lia|].
    cbn [SFval] in Hb. rewrite !cond_Zopp_F2R in *.
    rewrite Pos2Z.inj_mul, F2R_mult.
    destruct sx, sy; cbn [xorb]; lra.
Qed.

End Bounds.

(** ** Primitive floats *)

Lemma F2R_256 n : F2R n (-8) = (IZR n / 256)%R.
Proof.
  unfold F2R. pose proof (bpow_add (-8) 8) as H.
  rewrite (bpow_IZR 8) in H by lia. change (bpow (-8 + 8)) with 1%R in H.
  change (2 ^ 8) with 256 in H. assert (bpow (-8) = / 256)%R as -> by lra.
  reflexivity.
Qed.

Lemma grid_256 : emin <= -8 <= 900.
Proof.
  unfold SpecFloat.emin. change prec with 53. change emax with 1024. lia.
Qed.

Lemma inside_weaken lo hi lo' hi' f :
  inside lo hi f -> lo' <= lo -> hi <= hi' -> inside lo' hi' f.
Proof.
  intros [Hf Hb] Hlo Hhi. split; [exact Hf|].
  apply IZR_le in Hlo, Hhi. lra.
Qed.

Lemma inside_add l1 h1 l2 h2 a b :
  inside l1 h1 a -> inside l2 h2 b ->
  - 2 ^ 53 < l1 + l2 -> h1 + h2 < 2 ^ 53 ->
  inside (l1 + l2) (h1 + h2) (a + b).
Proof.
  intros [Fa Ba] [Fb Bb] Hl Hh. unfold inside, fin, val.
  rewrite FloatAxioms.add_spec, <- !F2R_256.
  apply (SFadd_val _ _ _ grid_256 Hl Hh); try assumption.
  rewrite !F2R_256, !plus_IZR. unfold val in *. lra.
Qed.

Lemma inside_sub l1 h1 l2 h2 a b :
  inside l1 h1 a -> inside l2 h2 b ->
  - 2 ^ 53 < l1 - h2 -> h1 - l2 < 2 ^ 53 ->
  inside (l1 - h2) (h1 - l2) (a - b).
Proof.
  intros [Fa Ba] [Fb Bb] Hl Hh. unfold inside, fin, val.
  rewrite FloatAxioms.sub_spec, <- !F2R_256.
  apply (SFsub_val _ _ _ grid_256 Hl Hh); try assumption.
  rewrite !F2R_256, !minus_IZR. unfold val in *. lra.
Qed.

(** The product of two floats of magnitudes at most [a / 256] and
    [b / 256]. *)
Lemma inside_mul a b c x y :
  inside (- a) a x -> inside (- b) b y ->
  a * b <= 256 * c -> c < 2 ^ 53 ->
  inside (- c) c (x * y).
Proof.
  intros [Fx Bx] [Fy By] Hc Hc53. unfold inside, fin, val.
  rewrite FloatAxioms.mul_spec, <- !F2R_256.
  apply (SFmul_val (- c) c (-8) grid_256 ltac:(lia) Hc53); try assumption.
  rewrite !F2R_256. unfold val in *.
  destruct Bx as [Bx1 Bx2], By as [By1 By2].
  rewrite opp_IZR in Bx1, By1 |- *.
  apply IZR_le in Hc. rewrite !mult_IZR in Hc.
  assert (0 <= IZR a)%R by lra. assert (0 <= IZR b)%R by lra.
  set (u := SFval (Prim2SF x)) in *. set (v := SFval (Prim2SF y)) in *.
  assert (- (IZR a * IZR b) <= 256 * 256 * (u * v) <= IZR a * IZR b)%R by nra.
  split; lra.
Qed.

(** The product of two non-negative floats. *)
Lemma inside_mul_pos a b c x y :
  inside 0 a x -> inside 0 b y ->
  a * b <= 256 * c -> c < 2 ^ 53 ->
  inside 0 c (x * y).
Proof.
  intros [Fx Bx] [Fy By] Hc Hc53. unfold inside, fin, val.
  rewrite FloatAxioms.mul_spec, <- !F2R_256.
  apply (SFmul_val 0 c (-8) grid_256 ltac:(lia) Hc53); try assumption.
  rewrite !F2R_256. unfold val in *.
  apply IZR_le in Hc. rewrite !mult_IZR in Hc.
  split; nra.
Qed.

Lemma SFinside_sound lo hi f :
  SFinside lo hi (Prim2SF f) = true -> inside lo hi f.
Proof.
  unfold inside, fin, val.
  destruct (Prim2SF f) as [s|s| |s m e]; cbn [SFinside SFfin SFval];
    try discriminate.
  - rewrite andb_true_iff, !Z.leb_le. intros [H1 H2].
    apply IZR_le in H1, H2. split; [tauto | lra].
  - rewrite <- !F2R_256. set (v := cond_Zopp s (Z.pos m)).
    destruct (Z.leb_spec 0 (e + 8)) as [He|He];
      rewrite andb_true_iff, !Z.leb_le; intros [H1 H2]; split; try tauto.
    + rewrite <- (F2R_shift v e (e + 8)) by lia.
      replace (e - (e + 8)) with (-8) by lia. rewrite !F2R_le. lia.
    + rewrite <- (F2R_shift lo (-8) (- (e + 8))),
              <- (F2R_shift hi (-8) (- (e + 8))) by lia.
      replace (-8 - - (e + 8)) with e by lia. rewrite !F2R_le. lia.
Qed.

End Binary64Facts.

(* ================================================================== *)
(** ** Bounds on the numbers of the program *)

Import Binary64 Binary64Facts.

(** A float that is known is within bounds that are known, by evaluation. *)
Ltac known_inside := apply SFinside_sound; vm_compute; reflexivity.

Section ProgramBounds.

(** [random.random()] lies in [[0, 1]]. *)
Lemma random_inside g : inside 0 256 (fst (Random.random g)).
Proof.
  unfold Random.random, Random.next. cbn [fst].
  set (k := Z.of_N (outcome g (calls g)) mod 2 ^ 53).
  assert (0 <= k < 2 ^ 53) as Hk by (apply Z.mod_pos_bound; lia).
  unfold inside, fin, val. rewrite FloatAxioms.mul_spec, <- !F2R_256.
  assert (SFfin (Prim2SF (of_uint63 (of_Z k))) /\
          (F2R 0 0 <= SFval (Prim2SF (of_uint63 (of_Z k))) <= F2R (2 ^ 53 - 1) 0)%R)
    as [Hfin Hval].
  { rewrite of_uint63_spec, of_Z_spec.
    rewrite Z.mod_small by (change wB with (2 ^ 63); lia).
    apply binary_normalize_val; [| lia | lia | rewrite !F2R_le; lia].
    unfold SpecFloat.emin. change prec with 53. change emax with 1024. lia. }
  apply (SFmul_val 0 256 (-8) grid_256 ltac:(lia) ltac:(lia)); [exact Hfin | exact I |].
  change (Prim2SF 0x1p-53) with (S754_finite false 4503599627370496 (-105)).
  cbn [SFval cond_Zopp].
  change 4503599627370496 with (1 * 2 ^ 52). change (-105) with (-53 - 52).
  rewrite F2R_shift by lia. rewrite !F2R_256.
  unfold F2R in *. rewrite Rmult_1_r in Hval.
  pose proof (bpow_add (-53) 53) as Hb. rewrite (bpow_IZR 53) in Hb by lia.
  change (bpow (-53 + 53)) with 1%R in Hb. rewrite minus_IZR in Hval.
  pose proof (bpow_pos (-53)).
  set (v := SFval (Prim2SF (of_uint63 (of_Z k)))) in *.
  set (b := bpow (-53)) in *. set (P := IZR (2 ^ 53)) in *.
  assert (0 < P)%R by (apply IZR_lt; lia).
  change (bpow 0) with 1%R in Hval.
  assert (0 <= v * b <= (P - 1) * b)%R by (split; nra).
  split; nra.
Qed.

(** The comparison of a finite float with an integer is the comparison of
    its value. *)
Lemma SFcompare_int_Lt s m e n :
  Py.SFcompare_int s m e n = Lt <-> (F2R (cond_Zopp s (Z.pos m)) e < IZR n)%R.
Proof.
  unfold Py.SFcompare_int. set (v := cond_Zopp s (Z.pos m)).
  assert (IZR n = F2R n 0) as -> by (unfold F2R; cbn; lra).
  destruct (Z.leb_spec 0 e) as [He|He].
  - replace (cond_Zopp s (Z.pos m * 2 ^ e)) with (v * 2 ^ e)
      by (unfold v; destruct s; cbn [cond_Zopp]; lia).
    rewrite <- (F2R_shift v e e) by lia. replace (e - e) with 0 by lia.
    rewrite F2R_lt, Z.compare_lt_iff. reflexivity.
  - rewrite <- (F2R_shift n 0 (- e)) by lia. replace (0 - - e) with e by lia.
    rewrite F2R_lt, Z.compare_lt_iff. reflexivity.
Qed.

(** [x < n] holds of the finite floats of value below [n], and of the
    negative infinity. *)
Lemma float_lt_int_spec f n :
  Py.float_lt_int f n = true
  <-> (fin f /\ (val f < IZR n)%R) \/ Prim2SF f = S754_infinity true.
Proof.
  unfold Py.float_lt_int, fin, val.
  destruct (Prim2SF f) as [s|s| |s m e]; cbn [SFfin SFval].
  - rewrite Z.ltb_lt. split.
    + intros H. left. split; [exact I | apply IZR_lt; exact H].
    + intros [[_ H]|H]; [apply lt_IZR; exact H | discriminate].
  - split.
    + intros ->. right. reflexivity.
    + intros [[[] _]|H]. injection H as ->. reflexivity.
  - split; [discriminate | intros [[[] _]|H]; discriminate].
  - pose proof (SFcompare_int_Lt s m e n) as HLt.
    destruct (Py.SFcompare_int s m e n); split;
      try discriminate; try (intros _; left; split; [exact I | tauto]);
      try reflexivity; intros [[_ H]|H]; try discriminate;
      apply HLt in H; discriminate.
Qed.

(** [n <= x] holds of the finite floats of value at least [n], and of the
    positive infinity. *)
Lemma int_le_float_spec n f :
  Py.int_le_float n f = true
  <-> (fin f /\ (IZR n <= val f)%R) \/ Prim2SF f = S754_infinity false.
Proof.
  unfold Py.int_le_float, fin, val.
  destruct (Prim2SF f) as [s|s| |s m e]; cbn [SFfin SFval].
  - rewrite Z.leb_le. split.
    + intros H. left. split; [exact I | apply IZR_le; exact H].
    + intros [[_ H]|H]; [apply le_IZR; exact H | discriminate].
  - split.
    + intros H. right. destruct s; [discriminate | reflexivity].
    + intros [[[] _]|H]. injection H as ->. reflexivity.
  - split; [discriminate | intros [[[] _]|H]; discriminate].
  - pose proof (SFcompare_int_Lt s m e n) as HLt.
    destruct (Py.SFcompare_int s m e n); split;
      try discriminate; try reflexivity;
      try (intros _; left; split; [exact I|];
           apply Rnot_lt_le; intros H; apply HLt in H; discriminate).
    intros [[_ H]|H]; [|discriminate].
    assert (Lt = Lt) as E by reflexivity. apply HLt in E. lra.
Qed.

(** [0 <= x < w] holds exactly of the finite floats of value in [[0, w)]. *)
Lemma in_range_spec f w :
  Py.int_le_float 0 f = true /\ Py.float_lt_int f w = true
  <-> fin f /\ (0 <= val f < IZR w)%R.
Proof.
  rewrite int_le_float_spec, float_lt_int_spec. split.
  - intros [[[Hf H0]|H0] [[Hf' Hw]|Hw]].
    + split; [exact Hf | lra].
    + unfold fin in Hf. rewrite Hw in Hf. contradiction.
    + unfold fin in Hf'. rewrite H0 in Hf'. contradiction.
    + rewrite H0 in Hw. discriminate.
  - intros [Hf [H0 Hw]]. split; left; split; assumption.
Qed.

(** A float within known bounds is finite and in the range of the bounds. *)
Lemma inside_in_range lo hi f w :
  inside lo hi f -> 0 <= lo -> hi < 256 * w ->
  fin f /\ (0 <= val f < IZR w)%R.
Proof.
  intros [Hf [Hlo Hhi]] H0 Hw. split; [exact Hf|].
  apply IZR_le in H0. apply IZR_lt in Hw. rewrite mult_IZR in Hw. lra.
Qed.

End ProgramBounds.

(* ================================================================== *)
(** ** The integrator *)

Section Integrator.

Lemma truediv_Some a b : b <> 0 -> exists r, Py.truediv a b = Some r.
Proof.
  intros Hb. unfold Py.truediv.
  destruct (Z.eqb_spec b 0) as [->|_]; [congruence | eauto].
Qed.

Lemma truediv_None a b : Py.truediv a b = None <-> b = 0.
Proof.
  unfold Py.truediv. destruct (Z.eqb_spec b 0); split; congruence.
Qed.

Lemma fade_char r p : char (fade r p) = glyph_table (bucket_of r) (char p).
Proof.
  unfold fade, bucket_of.
  destruct (r <? 0.25)%float; [reflexivity|].
  destruct (r <? 0.5)%float; [reflexivity|].
  destruct (r <? 0.75)%float; reflexivity.
Qed.

Lemma fade_fields r p :
  x (fade r p) = x p /\ y (fade r p) = y p /\ vx (fade r p) = vx p /\
  vy (fade r p) = vy p /\ life (fade r p) = life p /\
  max_life (fade r p) = max_life p /\ color (fade r p) = color p.
Proof.
  unfold fade.
  destruct (r <? 0.25)%float; [repeat split|].
  destruct (r <? 0.5)%float; [repeat split|].
  destruct (r <? 0.75)%float; repeat split.
Qed.

(** What [integrate] returns, field by field. *)
Lemma integrate_inv p q :
  integrate p = Some q ->
  moved p q /\ max_life q = max_life p /\ color q = color p /\
  exists r, Py.truediv (life p - 1) (max_life p) = Some r /\
            char q = glyph_table (bucket_of r) (char p).
Proof.
  unfold integrate. cbn [set_x set_y set_vx set_vy set_life
                         x y vx vy life max_life color char].
  destruct (Py.truediv (life p - 1) (max_life p)) as [r|] eqn:Hr;
    cbn [mbind option_bind]; [|discriminate].
  intros [= <-].
  destruct (fade_fields r
    (mkParticle (x p + vx p) (y p + vy p) (vx p * 0.99)
                ((vy p + 0.015) * 0.99) (life p - 1) (max_life p)
                (color p) (char p))) as (Hx & Hy & Hvx & Hvy & Hl & Hm & Hc).
  cbn in Hx, Hy, Hvx, Hvy, Hl, Hm, Hc.
  repeat split; try assumption.
  exists r. split; [reflexivity|]. rewrite fade_char. reflexivity.
Qed.

(** [integrate] raises exactly on a particle whose [max_life] is zero. *)
Lemma integrate_None p : integrate p = None <-> max_life p = 0.
Proof.
  unfold integrate. cbn [set_x set_y set_vx set_vy set_life
                         x y vx vy life max_life color char].
  rewrite <- (truediv_None (life p - 1) (max_life p)).
  destruct (Py.truediv (life p - 1) (max_life p)); cbn; split; congruence.
Qed.

Lemma integrate_Some p : max_life p <> 0 -> exists q, integrate p = Some q.
Proof.
  intros H. destruct (integrate p) as [q|] eqn:E; [eauto|].
  apply integrate_None in E. contradiction.
Qed.

Lemma integrate_all_inv ps qs :
  integrate_all ps = Some qs ->
  Forall2 (fun p q => integrate p = Some q) ps qs.
Proof.
  revert qs. induction ps as [|p ps IH]; intros qs; cbn.
  - intros [= <-]. constructor.
  - destruct (integrate p) as [p'|] eqn:Hp; cbn; [|discriminate].
    destruct (integrate_all ps) as [ps'|]; cbn; [|discriminate].
    intros [= <-]. constructor; auto.
Qed.

Lemma integrate_all_Some ps :
  Forall (fun p => max_life p <> 0) ps -> exists qs, integrate_all ps = Some qs.
Proof.
  induction 1 as [|p ps Hp _ [qs IH]]; cbn; [eauto|].
  destruct (integrate_Some p Hp) as [q ->]. rewrite IH. cbn. eauto.
Qed.

(** The fields [n] integrations leave alone, and the life they leave. *)
Lemma ticks_inv n : forall p q,
  ticks n p = Some q ->
  life q = life p - Z.of_nat n /\ max_life q = max_life p /\ color q = color p.
Proof.
  induction n as [|n IH]; intros p q; cbn [ticks].
  - intros [= <-]. repeat split; lia.
  - destruct (ticks n p) as [q'|] eqn:Hq'; cbn [mbind option_bind]; [|discriminate].
    intros Hq. destruct (IH p q' Hq') as (Hl & Hm & Hc).
    apply integrate_inv in Hq.
    destruct Hq as ((_ & _ & _ & _ & Hl') & Hm' & Hc' & _).
    repeat split; [lia | congruence | congruence].
Qed.

Lemma init_new_sim w h :
  init w h None = new_sim w h /\ init w h (Some (w, h)) = new_sim w h.
Proof. split; reflexivity. Qed.

End Integrator.

(** The shape of one tick: emission, integration of every particle in
    order, then the filter. *)
Lemma update_eq cos sin s g :
  update cos sin s g =
  (ps ← integrate_all (particles (fst (emit cos sin s g)));
   Some (set_particles (fst (emit cos sin s g))
           (List.filter (alive (fst (emit cos sin s g))) ps)),
   snd (emit cos sin s g)).
Proof.
  unfold update, emit, rand_bind, rand_ret.
  destruct (emit_spiral cos sin (set_frame s (frame s + 1)) g) as [s1 g1].
  destruct (emit_burst cos sin s1 g1) as [s2 g2]. reflexivity.
Qed.

(* ================================================================== *)
(** ** The generator *)

Section Generator.

Lemma rand_bind_eq {A B} (m : Rand A) (k : A -> Rand B) g :
  rand_bind m k g = let (a, g') := m g in k a g'.
Proof. reflexivity. Qed.

Lemma randbelow_range n g : 0 < n -> 0 <= fst (Random.randbelow n g) < n.
Proof. intros Hn. cbn. apply Z.mod_pos_bound. exact Hn. Qed.

Lemma randint_range a b g : a <= b -> a <= fst (Random.randint a b g) <= b.
Proof.
  intros Hab. unfold Random.randint.
  pose proof (randbelow_range (b - a + 1) g ltac:(lia)) as H.
  destruct (Random.randbelow (b - a + 1) g) as [r g']. cbn in *. lia.
Qed.

Lemma choice_In {A} (d : A) (l : list A) g :
  l <> nil -> In (fst (Random.choice d l g)) l.
Proof.
  intros Hl. unfold Random.choice.
  assert (0 < Z.of_nat (List.length l)) as Hlen
    by (destruct l; [congruence | cbn; lia]).
  pose proof (randbelow_range _ g Hlen) as H.
  destruct (Random.randbelow (Z.of_nat (List.length l)) g) as [r g'].
  cbn in *. apply nth_In. lia.
Qed.

End Generator.

(* ================================================================== *)
(** ** The emitters *)

Section Emitters.

Variables cos sin : float -> float.

Lemma set_particles_twice s ps qs :
  set_particles (set_particles s ps) qs = set_particles s qs.
Proof. reflexivity. Qed.

(** A loop whose body creates a particle from the fields the loop leaves
    alone, and appends it, appends the created particles in order. *)
Lemma for_each_append (mk : Sim -> nat -> Rand Particle) :
  (forall s ps, mk (set_particles s ps) = mk s) ->
  forall l s g,
    for_each (fun i s => let* p := mk s i in rand_ret (append s p))%rand l s g
    = (set_particles s (particles s ++ fst (spawn (mk s) l g)),
       snd (spawn (mk s) l g)).
Proof.
  intros Hmk. induction l as [|i l IH]; intros s g.
  - cbn. unfold rand_ret. rewrite app_nil_r. destruct s; reflexivity.
  - cbn [for_each spawn]. unfold rand_bind, rand_ret in *.
    destruct (mk s i g) as [p g1] eqn:Hp.
    rewrite IH. unfold append. rewrite Hmk.
    destruct (spawn (mk s) l g1) as [ps g2]. cbn.
    rewrite <- app_assoc. reflexivity.
Qed.

Lemma spawn_length mk l g : List.length (fst (spawn mk l g)) = List.length l.
Proof.
  revert g. induction l as [|i l IH]; intros g; [reflexivity|].
  cbn [spawn]. unfold rand_bind, rand_ret.
  destruct (mk i g) as [p g1]. specialize (IH g1).
  destruct (spawn mk l g1) as [ps g2]. cbn in *. congruence.
Qed.

Lemma spawn_Forall (P : Particle -> Prop) mk l g :
  (forall i g, P (fst (mk i g))) -> Forall P (fst (spawn mk l g)).
Proof.
  intros HP. revert g. induction l as [|i l IH]; intros g; [constructor|].
  cbn [spawn]. unfold rand_bind, rand_ret.
  pose proof (HP i g) as Hi. destruct (mk i g) as [p g1]. specialize (IH g1).
  destruct (spawn mk l g1) as [ps g2]. cbn in *. constructor; assumption.
Qed.

(** When every creation makes [k] calls to the generator, the [j]-th particle
    of the loop is created from the generator advanced by [k * j] calls. *)
Lemma spawn_closed (mk : nat -> Rand Particle) (k : nat) :
  (forall i g, snd (mk i g) = Rng (outcome g) (k + calls g)) ->
  forall n a g,
    spawn mk (seq a n) g
    = (map (fun j => fst (mk (a + j)%nat (Rng (outcome g) (k * j + calls g))))
           (seq 0 n),
       Rng (outcome g) (k * n + calls g)).
Proof.
  intros Hk. induction n as [|n IH]; intros a g.
  - cbn [seq map spawn]. unfold rand_ret. rewrite Nat.mul_0_r.
    destruct g; reflexivity.
  - cbn [seq spawn]. rewrite rand_bind_eq.
    pose proof (Hk a g) as Ha. destruct (mk a g) as [p g1] eqn:Hp.
    cbn [snd] in Ha. subst g1. rewrite rand_bind_eq, IH. unfold rand_ret.
    cbn [outcome calls]. f_equal.
    + change (seq 0 (S n)) with (0%nat :: seq 1 n).
      rewrite <- seq_shift. cbn [map]. rewrite map_map. f_equal.
      * rewrite Nat.mul_0_r, Nat.add_0_r. cbn [Nat.add].
        destruct g; cbn [outcome calls]. cbn [outcome calls] in Hp.
        rewrite Hp. reflexivity.
      * apply map_ext. intros j.
        replace (S a + j)%nat with (a + S j)%nat by lia.
        replace (k * j + (k + calls g))%nat with (k * S j + calls g)%nat by lia.
        reflexivity.
    + f_equal. lia.
Qed.

(** [emit_spiral] appends what its loop creates. *)
Lemma emit_spiral_eq s g :
  emit_spiral cos sin s g
  = (set_particles s (particles s
                      ++ fst (spawn (spiral_particle cos sin s) (seq 0 12) g)),
     snd (spawn (spiral_particle cos sin s) (seq 0 12) g)).
Proof.
  unfold emit_spiral.
  apply (for_each_append (spiral_particle cos sin)). reflexivity.
Qed.

Lemma spiral_particle_life s i g :
  life (fst (spiral_particle cos sin s i g))
  = 60 + fst (Random.randint 0 30 (Rng (outcome g) (3 + calls g)))
  /\ max_life (fst (spiral_particle cos sin s i g))
     = life (fst (spiral_particle cos sin s i g)).
Proof. split; reflexivity. Qed.

Lemma emit_burst_eq s g :
  emit_burst cos sin s g
  = if burst_fires g
    then (set_particles s (particles s ++ fst (burst_new cos sin s g)),
          snd (burst_new cos sin s g))
    else (s, snd (Random.random g)).
Proof.
  unfold emit_burst, burst_fires, burst_new. rewrite rand_bind_eq.
  destruct (Random.random g) as [u g1]. cbn [fst snd].
  destruct (u <? 0.04)%float; [|reflexivity].
  rewrite !rand_bind_eq. destruct (Random.randint (-8) 8 g1) as [dx g2].
  rewrite !rand_bind_eq. destruct (Random.randint (-4) 4 g2) as [dy g3].
  apply (for_each_append
           (fun _ => burst_particle cos sin (center_x s + dx) (center_y s + dy))).
  reflexivity.
Qed.

Lemma burst_particle_life bx by_ i g :
  life (fst (burst_particle cos sin bx by_ i g))
  = 35 + fst (Random.randint 0 15 (Rng (outcome g) (3 + calls g)))
  /\ max_life (fst (burst_particle cos sin bx by_ i g)) = 50.
Proof. split; reflexivity. Qed.

End Emitters.

(* ================================================================== *)
(** ** One tick *)

Section Tick.

Variables cos sin : float -> float.

(** Emission only appends, and leaves the size of the canvas alone. *)
Lemma emit_eq s g :
  exists new,
    fst (emit cos sin s g)
    = set_particles (set_frame s (frame s + 1)) (particles s ++ new).
Proof.
  unfold emit. rewrite rand_bind_eq, emit_spiral_eq, emit_burst_eq.
  cbn [fst snd particles set_particles set_frame].
  match goal with |- context [burst_fires ?g1] => destruct (burst_fires g1) end;
    cbn [fst particles set_particles]; rewrite ?set_particles_twice.
  - rewrite <- app_assoc. eauto.
  - eauto.
Qed.

Lemma burst_new_length s g : List.length (fst (burst_new cos sin s g)) = 15%nat.
Proof.
  unfold burst_new. rewrite rand_bind_eq.
  destruct (Random.randint (-8) 8 (snd (Random.random g))) as [dx g2].
  rewrite rand_bind_eq. destruct (Random.randint (-4) 4 g2) as [dy g3].
  apply spawn_length.
Qed.

(** The emission of a tick appends the spiral particles of the new frame,
    then the 15 particles of a burst if one fires. *)
Lemma emit_particles s g :
  exists burst,
    particles (fst (emit cos sin s g))
    = particles s ++ spiral_new cos sin (set_frame s (frame s + 1)) g ++ burst /\
    (burst = nil \/ List.length burst = 15%nat).
Proof.
  unfold emit, spiral_new. rewrite rand_bind_eq, emit_spiral_eq, emit_burst_eq.
  cbn [fst snd particles set_particles set_frame].
  match goal with |- context [burst_fires ?g1] => destruct (burst_fires g1) end;
    cbn [fst particles set_particles].
  - eexists. split; [rewrite <- app_assoc; reflexivity|].
    right. apply burst_new_length.
  - exists nil. split; [rewrite app_nil_r; reflexivity | left; reflexivity].
Qed.

Lemma emit_width s g : width (fst (emit cos sin s g)) = width s.
Proof. destruct (emit_eq s g) as [new ->]. reflexivity. Qed.

Lemma emit_height s g : height (fst (emit cos sin s g)) = height s.
Proof. destruct (emit_eq s g) as [new ->]. reflexivity. Qed.

Lemma alive_spec s p : alive s p = true <-> 0 < life p /\ on_canvas s p.
Proof.
  unfold alive, on_canvas. rewrite !andb_true_iff, Z.ltb_lt.
  rewrite <- !in_range_spec. tauto.
Qed.

Lemma alive_emit s g p : alive (fst (emit cos sin s g)) p = alive s p.
Proof. unfold alive. rewrite emit_width, emit_height. reflexivity. Qed.

Lemma filter_sublist {A} (f : A -> bool) (l : list A) :
  sublist (List.filter f l) l.
Proof.
  induction l as [|a l IH]; cbn; [constructor|].
  destruct (f a); constructor; exact IH.
Qed.

(** What a tick that does not raise returns. *)
Lemma update_Some s g s' :
  fst (update cos sin s g) = Some s' ->
  exists qs,
    integrate_all (particles (fst (emit cos sin s g))) = Some qs /\
    s' = set_particles (fst (emit cos sin s g)) (List.filter (alive s) qs).
Proof.
  rewrite update_eq. cbn [fst].
  destruct (integrate_all (particles (fst (emit cos sin s g)))) as [qs|];
    cbn [mbind option_bind]; [|discriminate].
  intros <-%(inj Some). exists qs. split; [reflexivity|].
  rewrite (filter_ext (alive (fst (emit cos sin s g))) (alive s) (alive_emit s g)).
  reflexivity.
Qed.

End Tick.

(* ================================================================== *)
(** ** Claims on the integrator and the removal filter *)

(** C2. After the integration of a tick, a particle is in the active set
    exactly when it is one of the integrated particles with [life > 0],
    [0 <= x < width] and [0 <= y < height], all read after the integration
    (the coordinates are finite floats whose real values lie in these
    ranges); the active set is the integrated list filtered by that test, so the
    survivors keep their relative order. *)
Theorem update_keeps_exactly_the_alive cos sin s g s' :
  fst (update cos sin s g) = Some s' ->
  exists qs,
    integrate_all (particles (fst (emit cos sin s g))) = Some qs /\
    particles s' = List.filter (alive s) qs /\
    sublist (particles s') qs /\
    (forall q, In q (particles s') <-> In q qs /\ 0 < life q /\ on_canvas s q).
Proof.
  intros H. destruct (update_Some cos sin s g s' H) as (qs & Hqs & ->).
  exists qs. cbn [particles set_particles].
  split; [exact Hqs|]. split; [reflexivity|]. split; [apply filter_sublist|].
  intros q. rewrite filter_In, alive_spec. reflexivity.
Qed.

(** C3. In a tick every particle is integrated in this order: the position
    takes the velocity the particle held when the tick began, then the
    vertical velocity takes the gravity 0.015, then both components of the
    velocity are multiplied by 0.99, then the life loses 1. The new position
    is therefore the old position plus the old velocity: the gravity and
    the friction of a tick do not reach the position of that tick. *)
Theorem update_integrates_in_order cos sin s g s' :
  fst (update cos sin s g) = Some s' ->
  exists qs,
    Forall2 moved (particles (fst (emit cos sin s g))) qs /\
    particles s' = List.filter (alive s) qs.
Proof.
  intros H. destruct (update_Some cos sin s g s' H) as (qs & Hqs & ->).
  exists qs. split; [|reflexivity].
  apply integrate_all_inv in Hqs.
  eapply Forall2_impl; [exact Hqs|].
  intros p q Hpq. apply integrate_inv in Hpq. tauto.
Qed.

(** C10. Integration never changes the colour tag of a particle nor its
    [max_life]: after the update pass of a tick both are what they were
    before it, and after any number of ticks both are what they were at
    spawn. *)
Theorem update_preserves_color_and_max_life cos sin s g s' :
  fst (update cos sin s g) = Some s' ->
  (exists qs,
     Forall2 (fun p q => color q = color p /\ max_life q = max_life p)
             (particles (fst (emit cos sin s g))) qs /\
     particles s' = List.filter (alive s) qs) /\
  (forall n p q, ticks n p = Some q ->
     color q = color p /\ max_life q = max_life p).
Proof.
  intros H. split.
  - destruct (update_Some cos sin s g s' H) as (qs & Hqs & ->).
    exists qs. split; [|reflexivity].
    apply integrate_all_inv in Hqs.
    eapply Forall2_impl; [exact Hqs|].
    intros p q Hpq. apply integrate_inv in Hpq. tauto.
  - intros n p q Hq. apply ticks_inv in Hq. tauto.
Qed.

Lemma sim1_eq : fst (update Libm.cos Libm.sin sim0 sample_rng) = Some sim1.
Proof. vm_compute. reflexivity. Qed.

Lemma update_keeps_exactly_the_alive_witness :
  exists qs,
    integrate_all (particles (fst (emit Libm.cos Libm.sin sim0 sample_rng))) = Some qs /\
    particles sim1 = List.filter (alive sim0) qs /\
    sublist (particles sim1) qs /\
    (forall q, In q (particles sim1) <-> In q qs /\ 0 < life q /\ on_canvas sim0 q).
Proof.
  apply (update_keeps_exactly_the_alive Libm.cos Libm.sin sim0 sample_rng sim1).
  vm_compute. reflexivity.
Defined.

Lemma update_integrates_in_order_witness :
  exists qs,
    Forall2 moved (particles (fst (emit Libm.cos Libm.sin sim0 sample_rng))) qs /\
    particles sim1 = List.filter (alive sim0) qs.
Proof.
  apply (update_integrates_in_order Libm.cos Libm.sin sim0 sample_rng sim1).
  vm_compute. reflexivity.
Defined.

Lemma update_preserves_color_and_max_life_witness :
  (exists qs,
     Forall2 (fun p q => color q = color p /\ max_life q = max_life p)
             (particles (fst (emit Libm.cos Libm.sin sim0 sample_rng))) qs /\
     particles sim1 = List.filter (alive sim0) qs) /\
  (color (default last_tick (ticks 1 last_tick)) = color last_tick /\
   max_life (default last_tick (ticks 1 last_tick)) = max_life last_tick).
Proof.
  destruct (update_preserves_color_and_max_life
              Libm.cos Libm.sin sim0 sample_rng sim1) as [H1 H2].
  - vm_compute. reflexivity.
  - split; [exact H1|]. apply (H2 1%nat). vm_compute. reflexivity.
Defined.

(* ================================================================== *)
(** ** Claims on the emitters *)

Section EmitterClaims.

Variables cos sin : float -> float.

Lemma randint_outcome a b g :
  fst (Random.randint a b g) = a + Z.of_N (outcome g (calls g)) mod (b - a + 1).
Proof. reflexivity. Qed.

Lemma choice_outcome {A} (d : A) l g :
  fst (Random.choice d l g)
  = nth (Z.to_nat (Z.of_N (outcome g (calls g)) mod Z.of_nat (List.length l))) l d.
Proof. reflexivity. Qed.

Lemma spiral_particle_calls s i g :
  snd (spiral_particle cos sin s i g) = Rng (outcome g) (4 + calls g).
Proof. reflexivity. Qed.

Lemma burst_particle_calls bx by_ i g :
  snd (burst_particle cos sin bx by_ i g) = Rng (outcome g) (4 + calls g).
Proof. reflexivity. Qed.

Lemma spiral_particle_life_range s i g :
  60 <= life (fst (spiral_particle cos sin s i g)) <= 90
  /\ max_life (fst (spiral_particle cos sin s i g))
     = life (fst (spiral_particle cos sin s i g)).
Proof.
  destruct (spiral_particle_life cos sin s i g) as [-> Hm]. split; [|reflexivity].
  pose proof (randint_range 0 30 (Rng (outcome g) (3 + calls g)) ltac:(lia)). lia.
Qed.

Lemma burst_particle_life_range bx by_ i g :
  35 <= life (fst (burst_particle cos sin bx by_ i g)) <= 50
  /\ max_life (fst (burst_particle cos sin bx by_ i g)) = 50.
Proof.
  destruct (burst_particle_life cos sin bx by_ i g) as [-> Hm]. split; [|exact Hm].
  pose proof (randint_range 0 15 (Rng (outcome g) (3 + calls g)) ltac:(lia)). lia.
Qed.

Lemma emit_spiral_new s g :
  fst (emit_spiral cos sin s g)
  = set_particles s (particles s ++ spiral_new cos sin s g).
Proof. unfold spiral_new. rewrite emit_spiral_eq. reflexivity. Qed.

Lemma spiral_new_closed s g :
  spiral_new cos sin s g
  = map (fun j => fst (spiral_particle cos sin s j (Rng (outcome g) (4 * j + calls g))))
        (seq 0 12).
Proof.
  unfold spiral_new.
  rewrite (spawn_closed (spiral_particle cos sin s) 4 (spiral_particle_calls s)).
  reflexivity.
Qed.

End EmitterClaims.

(** C1 (amended). Every call of [emit_spiral] appends exactly 12 particles to
    the collection; each of them has a spawn life in the closed range
    [[60, 90]] ([random.randint(0, 30)] includes both ends) and a [max_life]
    equal to that life; and every life of that range is drawn by some
    outcome of the generator. The emission of every tick appends 12 such
    particles after the particles it found, followed only by the 15 particles
    of a burst when one fires. *)
Theorem emit_spiral_appends_twelve cos sin s g :
  (exists new,
     fst (emit_spiral cos sin s g) = set_particles s (particles s ++ new) /\
     List.length new = 12%nat /\
     Forall (fun p => 60 <= life p <= 90 /\ max_life p = life p) new /\
     (forall v, 60 <= v <= 90 ->
        exists g' new',
          fst (emit_spiral cos sin s g') = set_particles s (particles s ++ new') /\
          Forall (fun p => life p = v) new')) /\
  (exists new burst,
     particles (fst (emit cos sin s g)) = particles s ++ new ++ burst /\
     (burst = nil \/ List.length burst = 15%nat) /\
     List.length new = 12%nat /\
     Forall (fun p => 60 <= life p <= 90 /\ max_life p = life p) new).
Proof.
  split.
  2: {
    destruct (emit_particles cos sin s g) as (burst & Hps & Hburst).
    exists (spiral_new cos sin (set_frame s (frame s + 1)) g), burst.
    split; [exact Hps|]. split; [exact Hburst|].
    split; [unfold spiral_new; rewrite spawn_length; reflexivity|].
    apply spawn_Forall. intros i g0. apply spiral_particle_life_range.
  }
  exists (spiral_new cos sin s g).
  split; [apply emit_spiral_new|].
  split; [unfold spiral_new; rewrite spawn_length; reflexivity|].
  split.
  - apply spawn_Forall. intros i g0. apply spiral_particle_life_range.
  - intros v Hv. exists (constant_rng (Z.to_N (v - 60))).
    exists (spiral_new cos sin s (constant_rng (Z.to_N (v - 60)))).
    split; [apply emit_spiral_new|].
    rewrite spiral_new_closed. apply Forall_map, Forall_forall. intros j _.
    destruct (spiral_particle_life cos sin s j
                (Rng (outcome (constant_rng (Z.to_N (v - 60))))
                     (4 * j + calls (constant_rng (Z.to_N (v - 60))))))
      as [-> _].
    rewrite randint_outcome. cbn [outcome calls constant_rng].
    rewrite Z2N.id by lia. rewrite Z.mod_small by lia. lia.
Qed.

Lemma emit_spiral_appends_twelve_witness :
  exists g' new',
    fst (emit_spiral Libm.cos Libm.sin sim0 g')
    = set_particles sim0 (particles sim0 ++ new') /\
    Forall (fun p => life p = 75) new'.
Proof.
  destruct (emit_spiral_appends_twelve Libm.cos Libm.sin sim0 sample_rng)
    as [(new & _ & _ & _ & H) _].
  apply (H 75). lia.
Defined.

(** C1, as stated, fails: with the outcome 30 of [random.randint(0, 30)] a
    spiral particle is spawned with life 90, outside [[60, 90)]. *)
Lemma spiral_life_reaches_90 :
  ~ Forall (fun p => 60 <= life p < 90)
      (particles (fst (emit_spiral Libm.cos Libm.sin sim0 (constant_rng 30)))).
Proof.
  intros H. apply (Forall_map life (fun l => 60 <= l < 90)) in H.
  vm_compute in H. apply Forall_inv in H. destruct H as [_ H].
  discriminate H.
Qed.

Section BurstClaims.

Variables cos sin : float -> float.

Lemma set_particles_id s : set_particles s (particles s ++ nil) = s.
Proof. rewrite app_nil_r. destruct s; reflexivity. Qed.

Lemma emit_burst_new s g :
  fst (emit_burst cos sin s g)
  = set_particles s (particles s
                     ++ if burst_fires g then fst (burst_new cos sin s g) else nil).
Proof.
  rewrite emit_burst_eq. destruct (burst_fires g); cbn [fst].
  - reflexivity.
  - symmetry. apply set_particles_id.
Qed.

Lemma burst_new_closed s g :
  fst (burst_new cos sin s g)
  = map (fun j => fst (burst_particle cos sin (center_x s + burst_dx g)
                         (center_y s + burst_dy g) j
                         (Rng (outcome g) (4 * j + (3 + calls g)))))
        (seq 0 15).
Proof.
  unfold burst_new, burst_dx, burst_dy. rewrite !rand_bind_eq.
  change (snd (Random.random g)) with (Rng (outcome g) (1 + calls g)).
  destruct (Random.randint (-8) 8 (Rng (outcome g) (1 + calls g))) as [dx g2] eqn:E2.
  assert (g2 = Rng (outcome g) (2 + calls g)) as -> by (inversion E2; reflexivity).
  rewrite rand_bind_eq.
  destruct (Random.randint (-4) 4 (Rng (outcome g) (2 + calls g))) as [dy g3] eqn:E3.
  assert (g3 = Rng (outcome g) (3 + calls g)) as -> by (inversion E3; reflexivity).
  cbn [fst].
  rewrite (spawn_closed (burst_particle cos sin (center_x s + dx) (center_y s + dy))
             4 (burst_particle_calls cos sin _ _)).
  reflexivity.
Qed.

Lemma burst_particle_color bx by_ i g :
  color (fst (burst_particle cos sin bx by_ i g))
  = fst (Random.choice ""%string COLORS (Rng (outcome g) (1 + calls g)))
  /\ char (fst (burst_particle cos sin bx by_ i g))
     = fst (Random.choice ""%string burst_chars (Rng (outcome g) (2 + calls g))).
Proof. split; reflexivity. Qed.

End BurstClaims.

(** Checking a property of every integer of a range by evaluation. *)
Lemma forallb_range (f : Z -> bool) (n : nat) :
  forallb (fun k => f (Z.of_nat k)) (seq 0 n) = true ->
  forall z, 0 <= z < Z.of_nat n -> f z = true.
Proof.
  intros H z Hz. rewrite forallb_forall in H.
  specialize (H (Z.to_nat z)). rewrite Z2Nat.id in H by lia.
  apply H. apply in_seq. lia.
Qed.

Lemma unit_ratio_50 l : 0 <= l <= 50 -> unit_ratio 50 l = true.
Proof.
  intros Hl. apply (forallb_range (unit_ratio 50) 51); [vm_compute; reflexivity | lia].
Qed.

Lemma unit_ratio_spec m l :
  unit_ratio m l = true ->
  exists r, Py.truediv l m = Some r /\
            (0 <=? r)%float = true /\ (r <=? 1)%float = true.
Proof.
  unfold unit_ratio. destruct (Py.truediv l m) as [r|]; [|discriminate].
  intros H. apply andb_true_iff in H. eauto.
Qed.

Lemma burst_fires_small n :
  0 <= n < 16 -> burst_fires (constant_rng (Z.to_N n)) = true.
Proof.
  intros Hn.
  apply (forallb_range (fun n => burst_fires (constant_rng (Z.to_N n))) 16);
    [vm_compute; reflexivity | lia].
Qed.

(** C5 (amended). Every particle a burst creates has a spawn life in the
    closed range [[35, 50]] ([random.randint(0, 15)] includes both ends) and
    [max_life] 50 whatever the life drawn; every life of that range is drawn
    by some outcome of the generator; and as long as the particle has not
    run out of life, its life is at most its [max_life] and the ratio
    [life / max_life] lies in [[0, 1]]. *)
Theorem burst_life_within_max_life cos sin s g :
  exists new,
    fst (emit_burst cos sin s g) = set_particles s (particles s ++ new) /\
    Forall (fun p =>
      35 <= life p <= 50 /\ max_life p = 50 /\
      forall n q, ticks n p = Some q -> 0 <= life q ->
        life q <= max_life q /\
        exists r, Py.truediv (life q) (max_life q) = Some r /\
                  (0 <=? r)%float = true /\ (r <=? 1)%float = true) new /\
    (forall v, 35 <= v <= 50 ->
       exists g' new',
         fst (emit_burst cos sin s g') = set_particles s (particles s ++ new') /\
         List.length new' = 15%nat /\
         Forall (fun p => life p = v) new').
Proof.
  eexists. split; [apply emit_burst_new|]. split.
  - destruct (burst_fires g); [|constructor].
    rewrite burst_new_closed. apply Forall_map, Forall_forall. intros j _.
    match goal with |- context [burst_particle cos sin ?bx ?by_ j ?g0] =>
      destruct (burst_particle_life_range cos sin bx by_ j g0) as [Hl Hm]
    end.
    split; [exact Hl|]. split; [exact Hm|].
    intros n q Hq Hpos. apply ticks_inv in Hq. destruct Hq as (Hlq & Hmq & _).
    rewrite Hmq, Hm. split; [lia|].
    apply unit_ratio_spec, unit_ratio_50. lia.
  - intros v Hv. exists (constant_rng (Z.to_N (v - 35))). eexists.
    split; [apply emit_burst_new|].
    rewrite burst_fires_small by lia. rewrite burst_new_closed.
    split; [rewrite length_map, length_seq; reflexivity|].
    apply Forall_map, Forall_forall. intros j _.
    match goal with |- context [burst_particle cos sin ?bx ?by_ j ?g0] =>
      destruct (burst_particle_life cos sin bx by_ j g0) as [-> _]
    end.
    rewrite randint_outcome. cbn [outcome calls constant_rng].
    rewrite Z2N.id by lia. rewrite Z.mod_small by lia. lia.
Qed.

Lemma burst_life_within_max_life_witness :
  exists g' new',
    fst (emit_burst Libm.cos Libm.sin sim0 g')
    = set_particles sim0 (particles sim0 ++ new') /\
    List.length new' = 15%nat /\
    Forall (fun p => life p = 42) new'.
Proof.
  destruct (burst_life_within_max_life Libm.cos Libm.sin sim0 sample_rng)
    as (new & _ & _ & H).
  apply (H 42). lia.
Defined.

(** C5, as stated, fails on the range: with the outcome 15 of
    [random.randint(0, 15)] a burst particle is spawned with life 50, outside
    [[35, 50)]. *)
Lemma burst_life_reaches_50 :
  ~ Forall (fun p => 35 <= life p < 50)
      (particles (fst (emit_burst Libm.cos Libm.sin sim0 (constant_rng 15)))).
Proof.
  intros H. apply (Forall_map life (fun l => 35 <= l < 50)) in H.
  vm_compute in H. apply Forall_inv in H. destruct H as [_ H].
  discriminate H.
Qed.

(** C6 (amended). When a burst fires it creates 15 particles, and for each
    of them the colour tag is [random.choice] over the full set of seven
    colours and the glyph is [random.choice] over the three symbols of the
    burst, [*], [#] and [@] (not the five of the spiral): each is the
    outcome of a call of its own to the generator, and neither depends on
    the index of the particle in the burst nor on the frame. *)
Theorem burst_samples_color_and_glyph cos sin s g :
  burst_fires g = true ->
  exists new,
    fst (emit_burst cos sin s g) = set_particles s (particles s ++ new) /\
    List.length new = 15%nat /\
    forall j p, nth_error new j = Some p ->
      color p = nth (Z.to_nat (Z.of_N (outcome g (4 * j + 4 + calls g)) mod 7))
                    COLORS ""%string /\
      char p = nth (Z.to_nat (Z.of_N (outcome g (4 * j + 5 + calls g)) mod 3))
                   burst_chars ""%string /\
      In (color p) COLORS /\ In (char p) burst_chars.
Proof.
  intros Hf. eexists. split; [apply emit_burst_new|]. rewrite Hf.
  rewrite burst_new_closed.
  split; [rewrite length_map, length_seq; reflexivity|].
  intros j p Hj. rewrite nth_error_map in Hj.
  destruct (nth_error (seq 0 15) j) as [j'|] eqn:Hj'; [|discriminate].
  assert (j' = j) as ->.
  { pose proof (nth_error_Some (seq 0 15) j) as Hlt.
    rewrite length_seq in Hlt.
    assert (j < 15)%nat as Hlt' by (apply Hlt; rewrite Hj'; discriminate).
    rewrite nth_error_nth' with (d := 0%nat) in Hj'
      by (rewrite length_seq; exact Hlt').
    rewrite seq_nth in Hj' by exact Hlt'. injection Hj' as <-. reflexivity. }
  cbn [option_map] in Hj. apply (inj Some) in Hj. subst p.
  match goal with |- context [burst_particle cos sin ?bx ?by_ j ?g0] =>
    destruct (burst_particle_color cos sin bx by_ j g0) as [Hc Hg];
    rewrite Hc, Hg; clear Hc Hg
  end.
  cbn [outcome calls].
  split; [|split; [|split]].
  - rewrite choice_outcome. cbn [outcome calls].
    replace (4 * j + 4 + calls g)%nat with (1 + (4 * j + (3 + calls g)))%nat by lia.
    reflexivity.
  - rewrite choice_outcome. cbn [outcome calls].
    replace (4 * j + 5 + calls g)%nat with (2 + (4 * j + (3 + calls g)))%nat by lia.
    reflexivity.
  - apply choice_In. discriminate.
  - apply choice_In. discriminate.
Qed.

Lemma burst_samples_color_and_glyph_witness :
  exists new,
    fst (emit_burst Libm.cos Libm.sin sim0 (constant_rng 9))
    = set_particles sim0 (particles sim0 ++ new) /\
    List.length new = 15%nat /\
    forall j p, nth_error new j = Some p ->
      color p = nth (Z.to_nat (Z.of_N (outcome (constant_rng 9)
                                         (4 * j + 4 + calls (constant_rng 9))) mod 7))
                    COLORS ""%string /\
      char p = nth (Z.to_nat (Z.of_N (outcome (constant_rng 9)
                                        (4 * j + 5 + calls (constant_rng 9))) mod 3))
                   burst_chars ""%string /\
      In (color p) COLORS /\ In (char p) burst_chars.
Proof.
  apply (burst_samples_color_and_glyph Libm.cos Libm.sin sim0 (constant_rng 9)).
  vm_compute. reflexivity.
Defined.

(** C6, as stated, fails on the glyph set: a burst particle can carry [#],
    which is not one of the five symbols of the spiral. *)
Lemma burst_glyph_outside_spiral_set :
  ~ Forall (fun p => In (char p) spiral_chars)
      (particles (fst (emit_burst Libm.cos Libm.sin sim0 (constant_rng 1)))).
Proof.
  intros H. apply (Forall_map char (fun c => In c spiral_chars)) in H.
  vm_compute in H. apply Forall_inv in H.
  repeat (destruct H as [H|H]; [discriminate H|]). exact H.
Qed.

(* ================================================================== *)
(** ** The fade of the glyph *)

Lemma fades_on_128 m l : 0 < m <= 128 -> 0 < l <= 128 -> fades_on m l = true.
Proof.
  intros Hm Hl.
  assert (forallb (fun l => fades_on m l) (map Z.of_nat (seq 0 129)) = true) as H.
  { apply (forallb_range
             (fun m => forallb (fun l => fades_on m l) (map Z.of_nat (seq 0 129)))
             129); [vm_compute; reflexivity | lia]. }
  rewrite forallb_forall in H. apply H. apply in_map_iff.
  exists (Z.to_nat l). split; [lia | apply in_seq; lia].
Qed.

Lemma integrate_bucket p q :
  integrate p = Some q ->
  char q = glyph_table (bucket_at (max_life q) (life q)) (char p).
Proof.
  intros H. apply integrate_inv in H.
  destruct H as ((_ & _ & _ & _ & Hl) & Hm & _ & r & Hr & Hc).
  unfold bucket_at. rewrite Hl, Hm, Hr. exact Hc.
Qed.

Lemma glyph_table_faded b c1 c2 :
  b <> Unchanged \/ c1 = c2 -> glyph_table b c1 = glyph_table b c2.
Proof. intros [H| ->]; [destruct b; cbn; congruence | reflexivity]. Qed.

Lemma fadedness_0 b : fadedness b = 0%nat -> b = Unchanged.
Proof. destruct b; cbn; congruence. Qed.

Lemma integrate_fades q1 q2 :
  0 < max_life q1 <= 128 -> 0 < life q1 <= 128 ->
  integrate q1 = Some q2 ->
  (fadedness (bucket_at (max_life q1) (life q1))
   <= fadedness (bucket_at (max_life q2) (life q2)))%nat.
Proof.
  intros Hm Hl H. apply integrate_inv in H.
  destruct H as ((_ & _ & _ & _ & Hl') & Hm' & _).
  rewrite Hl', Hm'. apply Nat.leb_le. apply fades_on_128; assumption.
Qed.

Lemma unchanged_keeps_spawn_glyph p n : forall q,
  0 < max_life p <= 128 -> life p <= 128 ->
  ticks (S n) p = Some q -> 0 <= life q ->
  bucket_at (max_life q) (life q) = Unchanged ->
  char q = char p.
Proof.
  induction n as [|n IH]; intros q Hm Hl Hq Hpos Hb.
  - cbn [ticks mbind option_bind] in Hq.
    rewrite (integrate_bucket p q Hq), Hb. reflexivity.
  - change (ticks (S (S n)) p) with (q' ← ticks (S n) p; integrate q') in Hq.
    destruct (ticks (S n) p) as [q'|] eqn:Hq'; cbn [mbind option_bind] in Hq;
      [|discriminate].
    rewrite (integrate_bucket q' q Hq), Hb. cbn [glyph_table].
    destruct (ticks_inv _ _ _ Hq') as (Hl' & Hm' & _).
    pose proof (integrate_inv _ _ Hq) as ((_ & _ & _ & _ & Hlq) & _).
    apply IH; [assumption | assumption | reflexivity | lia |].
    apply fadedness_0.
    pose proof (integrate_fades q' q ltac:(lia) ltac:(lia) Hq) as Hle.
    rewrite Hb in Hle. cbn [fadedness] in Hle. lia.
Qed.

(** C4. The glyph an integration writes is a function of the ratio
    [r = life / max_life] taken after the decrement of the life, by the
    table of four buckets: [r < 0.25], [0.25 <= r < 0.5], [0.5 <= r < 0.75]
    give the three faded glyphs and [r >= 0.75] leaves the glyph as it is.
    It does not depend on the colour tag, nor on the glyph before the tick
    except in the last bucket. For a life and a [max_life] of at most 128
    (every particle the emitters create), a further tick never leads to a
    less faded bucket, and a particle in the last bucket still carries its
    spawn glyph. *)
Theorem glyph_fade_table :
  (forall p q, integrate p = Some q ->
     exists r, Py.truediv (life q) (max_life q) = Some r /\
               char q = glyph_table (bucket_of r) (char p)) /\
  (forall p1 p2 q1 q2,
     integrate p1 = Some q1 -> integrate p2 = Some q2 ->
     life q1 = life q2 -> max_life q1 = max_life q2 ->
     bucket_at (max_life q1) (life q1) <> Unchanged \/ char p1 = char p2 ->
     char q1 = char q2) /\
  (forall q1 q2,
     0 < max_life q1 <= 128 -> 0 < life q1 <= 128 ->
     integrate q1 = Some q2 ->
     (fadedness (bucket_at (max_life q1) (life q1))
      <= fadedness (bucket_at (max_life q2) (life q2)))%nat) /\
  (forall p n q,
     0 < max_life p <= 128 -> life p <= 128 ->
     ticks (S n) p = Some q -> 0 <= life q ->
     bucket_at (max_life q) (life q) = Unchanged ->
     char q = char p).
Proof.
  split; [|split; [|split]].
  - intros p q H. apply integrate_inv in H.
    destruct H as ((_ & _ & _ & _ & Hl) & Hm & _ & r & Hr & Hc).
    exists r. rewrite Hl, Hm. split; assumption.
  - intros p1 p2 q1 q2 H1 H2 Hl Hm Hb.
    rewrite (integrate_bucket _ _ H1), (integrate_bucket _ _ H2), <- Hl, <- Hm.
    apply glyph_table_faded. exact Hb.
  - exact integrate_fades.
  - intros p n q. apply unchanged_keeps_spawn_glyph.
Qed.

(** The scenario of the specification: a particle with life 1 out of 60 is
    written the most faded glyph, whatever its colour and its glyph; and the
    three other parts at [half_way] and [fresh]. *)
Lemma glyph_fade_table_witness :
  (exists r, Py.truediv 0 60 = Some r /\
             char (default last_tick (integrate last_tick))
             = glyph_table (bucket_of r) "O") /\
  char (default last_tick (integrate last_tick))
  = char (default last_tick (integrate (set_life half_way 1))) /\
  (fadedness (bucket_at 60 31)
   <= fadedness (bucket_at 60 (life (default half_way (integrate half_way)))))%nat /\
  char (default fresh (ticks 3 fresh)) = char fresh.
Proof.
  destruct glyph_fade_table as (H1 & H2 & H3 & H4).
  split; [|split; [|split]].
  - apply (H1 last_tick (default last_tick (integrate last_tick))).
    vm_compute. reflexivity.
  - apply (H2 last_tick (set_life half_way 1)).
    + vm_compute. reflexivity.
    + vm_compute. reflexivity.
    + vm_compute. reflexivity.
    + vm_compute. reflexivity.
    + left. vm_compute. discriminate.
  - apply (H3 half_way (default half_way (integrate half_way))).
    + vm_compute. split; [reflexivity | discriminate].
    + vm_compute. split; [reflexivity | discriminate].
    + vm_compute. reflexivity.
  - apply (H4 fresh 2%nat (default fresh (ticks 3 fresh))).
    + vm_compute. split; [reflexivity | discriminate].
    + vm_compute. discriminate.
    + vm_compute. reflexivity.
    + vm_compute. discriminate.
    + vm_compute. reflexivity.
Defined.

(* ================================================================== *)
(** ** The rasterizer *)

Section Rasterizer.

Lemma hitsb_spec ix iy p : hitsb ix iy p = true <-> hits ix iy p.
Proof.
  unfold hitsb, hits.
  destruct (Py.int_of_float (x p)) as [a|], (Py.int_of_float (y p)) as [b|];
    try (split; [discriminate | intros [? ?]; discriminate]).
  rewrite andb_true_iff, !Z.eqb_eq. split.
  - intros [-> ->]. split; reflexivity.
  - intros [[= ->] [= ->]]. split; reflexivity.
Qed.

Lemma rect_blank {A} (w h : Z) (c : A) :
  rect (Z.to_nat w) (Z.to_nat h) (blank w h c).
Proof.
  unfold rect, blank. rewrite length_replicate. split; [reflexivity|].
  apply Forall_replicate. apply length_replicate.
Qed.

Lemma cell_blank {A} (d : A) (w h : Z) (c : A) (cy cx : nat) :
  (cy < Z.to_nat h)%nat -> (cx < Z.to_nat w)%nat ->
  cell d (blank w h c) cy cx = c.
Proof.
  intros Hy Hx. unfold cell, blank.
  rewrite (lookup_replicate_2 _ _ _ Hy). cbn [mbind option_bind].
  rewrite (lookup_replicate_2 _ _ _ Hx). reflexivity.
Qed.

Lemma rect_write {A} (w h : nat) (g : list (list A)) (iy ix : nat) (v : A) :
  rect w h g -> rect w h (alter (fun row => <[ix := v]> row) iy g).
Proof.
  intros [Hh Hw]. split.
  - rewrite length_alter. exact Hh.
  - apply Forall_alter; [exact Hw|]. intros row _ Hrow.
    rewrite length_insert. exact Hrow.
Qed.

(** A write in range changes the written cell and no other. *)
Lemma cell_write {A} (d : A) (w h : nat) (g : list (list A)) (iy ix : nat) (v : A)
      (cy cx : nat) :
  rect w h g -> (iy < h)%nat -> (ix < w)%nat ->
  cell d (alter (fun row => <[ix := v]> row) iy g) cy cx
  = if decide (cy = iy /\ cx = ix) then v else cell d g cy cx.
Proof.
  intros [Hh Hw] Hy Hx. unfold cell. rewrite list_lookup_alter.
  destruct (decide (iy = cy)) as [->|Hne].
  - destruct (lookup_lt_is_Some_2 g cy ltac:(lia)) as [row Hrow].
    rewrite Hrow. cbn [fmap option_fmap option_map mbind option_bind].
    assert (List.length row = w) as Hlen.
    { rewrite Forall_lookup in Hw. exact (Hw cy row Hrow). }
    rewrite list_lookup_insert.
    destruct (decide (ix = cx /\ (ix < List.length row)%nat)) as [[-> _]|Hn].
    + destruct (decide (cy = cy /\ cx = cx)) as [_|Hn]; [reflexivity | tauto].
    + destruct (decide (cy = cy /\ cx = ix)) as [[_ ->]|_]; [|reflexivity].
      exfalso. apply Hn. split; [reflexivity | lia].
  - destruct (decide (cy = iy /\ cx = ix)) as [[-> _]|_];
      [congruence | reflexivity].
Qed.

(** [place] raises exactly on a position that is not finite; otherwise it
    writes the cell the particle hits, when that cell is on the canvas. *)
Lemma place_inv s g p g' :
  place s g p = Some g' ->
  exists ix iy,
    hits ix iy p /\
    g' = if ((0 <=? ix) && (ix <? width s)) && ((0 <=? iy) && (iy <? height s))
         then (alter (fun row => <[Z.to_nat ix := char p]> row) (Z.to_nat iy) (fst g),
               alter (fun row => <[Z.to_nat ix := Some (color p)]> row)
                     (Z.to_nat iy) (snd g))
         else g.
Proof.
  unfold place, hits.
  destruct (Py.int_of_float (x p)) as [ix|]; cbn [mbind option_bind]; [|discriminate].
  destruct (Py.int_of_float (y p)) as [iy|]; cbn [mbind option_bind]; [|discriminate].
  intros H. apply (inj Some) in H. subst g'. exists ix, iy. repeat split.
Qed.

Lemma place_rect s g p g' :
  rect (Z.to_nat (width s)) (Z.to_nat (height s)) (fst g) ->
  rect (Z.to_nat (width s)) (Z.to_nat (height s)) (snd g) ->
  place s g p = Some g' ->
  rect (Z.to_nat (width s)) (Z.to_nat (height s)) (fst g') /\
  rect (Z.to_nat (width s)) (Z.to_nat (height s)) (snd g').
Proof.
  intros H1 H2 H. apply place_inv in H. destruct H as (ix & iy & _ & ->).
  destruct (((0 <=? ix) && (ix <? width s)) && ((0 <=? iy) && (iy <? height s)));
    cbn [fst snd]; split; try assumption; apply rect_write; assumption.
Qed.

(** The two cells at [(ix, iy)] once [p] is placed. *)
Lemma place_cell s g p g' ix iy :
  rect (Z.to_nat (width s)) (Z.to_nat (height s)) (fst g) ->
  rect (Z.to_nat (width s)) (Z.to_nat (height s)) (snd g) ->
  0 <= ix < width s -> 0 <= iy < height s ->
  place s g p = Some g' ->
  cell ""%string (fst g') (Z.to_nat iy) (Z.to_nat ix)
  = (if hitsb ix iy p then char p
     else cell ""%string (fst g) (Z.to_nat iy) (Z.to_nat ix)) /\
  cell None (snd g') (Z.to_nat iy) (Z.to_nat ix)
  = (if hitsb ix iy p then Some (color p)
     else cell None (snd g) (Z.to_nat iy) (Z.to_nat ix)).
Proof.
  intros H1 H2 Hx Hy H. apply place_inv in H.
  destruct H as (jx & jy & [Hjx Hjy] & ->).
  unfold hitsb. rewrite Hjx, Hjy.
  destruct (((0 <=? jx) && (jx <? width s)) && ((0 <=? jy) && (jy <? height s)))
    eqn:Hin.
  - rewrite !andb_true_iff, !Z.leb_le, !Z.ltb_lt in Hin. cbn [fst snd].
    rewrite (cell_write _ _ _ _ _ _ _ _ _ H1) by lia.
    rewrite (cell_write _ _ _ _ _ _ _ _ _ H2) by lia.
    destruct (decide (Z.to_nat iy = Z.to_nat jy /\ Z.to_nat ix = Z.to_nat jx))
      as [[Ey Ex]|Hn].
    + assert (jx = ix) as -> by lia. assert (jy = iy) as -> by lia.
      rewrite !Z.eqb_refl. split; reflexivity.
    + destruct (Z.eqb_spec jx ix) as [->|?], (Z.eqb_spec jy iy) as [->|?];
        cbn [andb]; try (split; reflexivity).
      exfalso. apply Hn. split; reflexivity.
  - destruct (Z.eqb_spec jx ix) as [->|?], (Z.eqb_spec jy iy) as [->|?];
      cbn [andb]; try (split; reflexivity).
    exfalso. rewrite !andb_false_iff, !Z.leb_gt, !Z.ltb_ge in Hin. lia.
Qed.

(** Once every particle is placed, a cell holds what the last particle that
    hits it wrote, or what it held before. *)
Lemma place_all_cell s ps : forall g g' ix iy,
  rect (Z.to_nat (width s)) (Z.to_nat (height s)) (fst g) ->
  rect (Z.to_nat (width s)) (Z.to_nat (height s)) (snd g) ->
  0 <= ix < width s -> 0 <= iy < height s ->
  place_all s g ps = Some g' ->
  cell ""%string (fst g') (Z.to_nat iy) (Z.to_nat ix)
  = match last_hit ix iy ps with
    | Some p => char p
    | None => cell ""%string (fst g) (Z.to_nat iy) (Z.to_nat ix)
    end /\
  cell None (snd g') (Z.to_nat iy) (Z.to_nat ix)
  = match last_hit ix iy ps with
    | Some p => Some (color p)
    | None => cell None (snd g) (Z.to_nat iy) (Z.to_nat ix)
    end.
Proof.
  induction ps as [|p ps IH]; intros g g' ix iy H1 H2 Hx Hy H.
  - cbn in H. apply (inj Some) in H. subst g'. split; reflexivity.
  - cbn [place_all] in H.
    destruct (place s g p) as [g1|] eqn:Hp; cbn [mbind option_bind] in H;
      [|discriminate].
    destruct (place_rect s g p g1 H1 H2 Hp) as [R1 R2].
    destruct (IH g1 g' ix iy R1 R2 Hx Hy H) as [-> ->].
    destruct (place_cell s g p g1 ix iy H1 H2 Hx Hy Hp) as [-> ->].
    cbn [last_hit]. destruct (last_hit ix iy ps) as [q|]; [split; reflexivity|].
    destruct (hitsb ix iy p); split; reflexivity.
Qed.

Lemma last_hit_None ix iy ps :
  last_hit ix iy ps = None <-> Forall (fun q => ~ hits ix iy q) ps.
Proof.
  induction ps as [|p ps IH]; cbn [last_hit].
  - split; [constructor | reflexivity].
  - destruct (last_hit ix iy ps) as [q|].
    + split; [discriminate|]. intros H. apply Forall_inv_tail in H.
      apply IH in H. discriminate.
    + destruct (hitsb ix iy p) eqn:Hp.
      * split; [discriminate|]. intros H. apply Forall_inv in H.
        exfalso. apply H. apply hitsb_spec. exact Hp.
      * split; [|reflexivity]. intros _. constructor.
        -- rewrite <- hitsb_spec, Hp. discriminate.
        -- apply IH. reflexivity.
Qed.

Lemma last_hit_app ix iy l1 p l2 :
  hits ix iy p -> Forall (fun q => ~ hits ix iy q) l2 ->
  last_hit ix iy (l1 ++ p :: l2) = Some p.
Proof.
  intros Hp Hl2. induction l1 as [|a l1 IH]; cbn [app last_hit].
  - apply last_hit_None in Hl2. rewrite Hl2.
    apply hitsb_spec in Hp. rewrite Hp. reflexivity.
  - rewrite IH. reflexivity.
Qed.

End Rasterizer.

Section RasterizerTotal.

Lemma fin_int_of_float v : fin v -> is_Some (Py.int_of_float v).
Proof.
  unfold fin, Py.int_of_float.
  destruct (Prim2SF v) as [sg|sg| |sg m e]; cbn [SFfin]; intros H; eauto;
    contradiction.
Qed.

Lemma alive_finite s p : alive s p = true -> finite_position p.
Proof.
  intros H. apply alive_spec in H. destruct H as (_ & (Hx & _) & (Hy & _)).
  split; apply fin_int_of_float; assumption.
Qed.

Lemma place_all_total s ps : forall g,
  Forall finite_position ps -> exists g', place_all s g ps = Some g'.
Proof.
  induction ps as [|p ps IH]; intros g H; cbn [place_all]; [eauto|].
  pose proof (Forall_inv H) as [[ix Hx] [iy Hy]]. apply Forall_inv_tail in H.
  unfold place. rewrite Hx, Hy. cbn [mbind option_bind]. apply IH. exact H.
Qed.

Lemma render_total s :
  Forall finite_position (particles s) -> exists out, render s = Some out.
Proof.
  intros H. unfold render, rasterize.
  destruct (place_all_total s (particles s)
              (blank (width s) (height s) " "%string, blank (width s) (height s) None) H)
    as [g ->].
  cbn [mbind option_bind]. eauto.
Qed.

Lemma place_all_ext s1 s2 ps : forall g,
  width s1 = width s2 -> height s1 = height s2 ->
  place_all s1 g ps = place_all s2 g ps.
Proof.
  induction ps as [|p ps IH]; intros g Hw Hh; cbn [place_all]; [reflexivity|].
  assert (place s1 g p = place s2 g p) as ->
    by (unfold place; rewrite Hw, Hh; reflexivity).
  destruct (place s2 g p) as [g1|]; cbn [mbind option_bind]; [|reflexivity].
  apply IH; assumption.
Qed.

End RasterizerTotal.

(** ** The frame [render] returns

    The string [render] builds from the two grids is compared with the frame
    the specification describes, a function of the size of the canvas and of
    the ordered collection. *)

Section Frame.

Lemma string_append_assoc (a b c : string) : ((a ++ b) ++ c = a ++ (b ++ c))%string.
Proof. induction a as [|ch a IH]; cbn; [reflexivity | rewrite IH; reflexivity]. Qed.

Lemma string_append_empty_r (a : string) : (a ++ "")%string = a.
Proof. induction a as [|ch a IH]; cbn; [reflexivity | rewrite IH; reflexivity]. Qed.

(** A line built by successive [+=] is the concatenation of its cells. *)
Lemma fold_left_append {A} (f : A -> string) (l : list A) : forall acc,
  fold_left (fun line x => (line ++ f x)%string) l acc
  = (acc ++ fold_right String.append ""%string (map f l))%string.
Proof.
  induction l as [|a l IH]; intros acc; cbn [fold_left map fold_right].
  - rewrite string_append_empty_r. reflexivity.
  - rewrite IH, string_append_assoc. reflexivity.
Qed.

Lemma place_all_rect s ps : forall g g',
  rect (Z.to_nat (width s)) (Z.to_nat (height s)) (fst g) ->
  rect (Z.to_nat (width s)) (Z.to_nat (height s)) (snd g) ->
  place_all s g ps = Some g' ->
  rect (Z.to_nat (width s)) (Z.to_nat (height s)) (fst g') /\
  rect (Z.to_nat (width s)) (Z.to_nat (height s)) (snd g').
Proof.
  induction ps as [|p ps IH]; intros g g' H1 H2 H; cbn [place_all] in H.
  - apply (inj Some) in H. subst g'. split; assumption.
  - destruct (place s g p) as [g1|] eqn:Hp; cbn [mbind option_bind] in H;
      [|discriminate].
    destruct (place_rect s g p g1 H1 H2 Hp) as [R1 R2].
    exact (IH g1 g' R1 R2 H).
Qed.

(** [place_all] raises exactly when a position is not finite. *)
Lemma place_all_Some s ps : forall g,
  is_Some (place_all s g ps) <-> Forall finite_position ps.
Proof.
  induction ps as [|p ps IH]; intros g; cbn [place_all].
  - split; [constructor | eauto].
  - split.
    + intros [g' H].
      destruct (place s g p) as [g1|] eqn:Hp; cbn [mbind option_bind] in H;
        [|discriminate].
      constructor.
      * apply place_inv in Hp. destruct Hp as (ix & iy & [Hx Hy] & _).
        split; eauto.
      * apply (IH g1). eauto.
    + intros H. exact (place_all_total s (p :: ps) g H).
Qed.

(** The cells of the rasterized grids, by the last particle that hits
    them. *)
Lemma rasterize_cells s g iy ix :
  rasterize s = Some g ->
  (iy < Z.to_nat (height s))%nat -> (ix < Z.to_nat (width s))%nat ->
  cell ""%string (fst g) iy ix
  = match last_hit (Z.of_nat ix) (Z.of_nat iy) (particles s) with
    | Some p => char p
    | None => " "%string
    end /\
  cell None (snd g) iy ix
  = match last_hit (Z.of_nat ix) (Z.of_nat iy) (particles s) with
    | Some p => Some (color p)
    | None => None
    end.
Proof.
  intros Hg Hy Hx. unfold rasterize in Hg.
  destruct (place_all_cell s (particles s)
              (blank (width s) (height s) " "%string, blank (width s) (height s) None)
              g (Z.of_nat ix) (Z.of_nat iy) (rect_blank _ _ _) (rect_blank _ _ _)
              ltac:(lia) ltac:(lia) Hg) as [Hc Hk].
  rewrite !Nat2Z.id in Hc, Hk. cbn [fst snd] in Hc, Hk.
  rewrite cell_blank in Hc by assumption. rewrite cell_blank in Hk by assumption.
  split; assumption.
Qed.

Lemma cell_text_shown s g iy ix :
  rasterize s = Some g ->
  (iy < Z.to_nat (height s))%nat -> (ix < Z.to_nat (width s))%nat ->
  cell_text g iy ix = shown (particles s) iy ix.
Proof.
  intros Hg Hy Hx. destruct (rasterize_cells s g iy ix Hg Hy Hx) as [Hc Hk].
  unfold cell_text, shown. rewrite Hc, Hk.
  destruct (last_hit (Z.of_nat ix) (Z.of_nat iy) (particles s)) as [p|];
    [|reflexivity].
  destruct (color p); reflexivity.
Qed.

Lemma output_frame_text s g :
  rasterize s = Some g ->
  output s g = frame_text (width s) (height s) (particles s).
Proof.
  intros Hg. unfold output, frame_text. apply f_equal.
  apply map_ext_in. intros iy Hy. apply in_seq in Hy.
  unfold line_text, frame_line. rewrite fold_left_append. cbn [String.append].
  apply f_equal. apply map_ext_in. intros ix Hx. apply in_seq in Hx.
  apply (cell_text_shown s g iy ix Hg); lia.
Qed.

Lemma render_frame_text s :
  Forall finite_position (particles s) ->
  render s = Some (frame_text (width s) (height s) (particles s)).
Proof.
  intros H. unfold render.
  destruct (rasterize s) as [g|] eqn:Hg.
  - cbn [mbind option_bind]. rewrite (output_frame_text s g Hg). reflexivity.
  - exfalso. unfold rasterize in Hg.
    destruct (place_all_total s (particles s)
                (blank (width s) (height s) " "%string,
                 blank (width s) (height s) None) H) as [g Hg'].
    rewrite Hg' in Hg. discriminate.
Qed.

Lemma render_Some s out :
  render s = Some out ->
  Forall finite_position (particles s) /\
  out = frame_text (width s) (height s) (particles s).
Proof.
  unfold render. intros H.
  destruct (rasterize s) as [g|] eqn:Hg; cbn [mbind option_bind] in H;
    [|discriminate].
  apply (inj Some) in H. subst out. split.
  - unfold rasterize in Hg. eapply place_all_Some. rewrite Hg. eauto.
  - apply output_frame_text. exact Hg.
Qed.

Lemma rect_table {A} (w h : Z) (f : nat -> nat -> A) :
  rect (Z.to_nat w) (Z.to_nat h) (table w h f).
Proof.
  unfold rect, table. rewrite length_map, length_seq. split; [reflexivity|].
  apply Forall_map, Forall_forall. intros iy _. cbn.
  rewrite length_map, length_seq. reflexivity.
Qed.

Lemma cell_table {A} (d : A) (w h : Z) (f : nat -> nat -> A) (iy ix : nat) :
  (iy < Z.to_nat h)%nat -> (ix < Z.to_nat w)%nat ->
  cell d (table w h f) iy ix = f iy ix.
Proof.
  intros Hy Hx. unfold cell, table.
  rewrite list_lookup_fmap, lookup_seq_lt by exact Hy.
  cbn [fmap option_fmap option_map mbind option_bind].
  rewrite list_lookup_fmap, lookup_seq_lt by exact Hx. reflexivity.
Qed.

(** Two grids of the same shape with the same cells are the same grid. *)
Lemma rect_ext {A} (d : A) (w h : nat) (g1 g2 : list (list A)) :
  rect w h g1 -> rect w h g2 ->
  (forall iy ix, (iy < h)%nat -> (ix < w)%nat -> cell d g1 iy ix = cell d g2 iy ix) ->
  g1 = g2.
Proof.
  intros [H1 W1] [H2 W2] Hc. apply list_eq. intros iy.
  destruct (decide (iy < h)%nat) as [Hy|Hy].
  - destruct (lookup_lt_is_Some_2 g1 iy ltac:(lia)) as [r1 Hr1].
    destruct (lookup_lt_is_Some_2 g2 iy ltac:(lia)) as [r2 Hr2].
    rewrite Hr1, Hr2. f_equal.
    assert (List.length r1 = w) as L1
      by (rewrite Forall_lookup in W1; exact (W1 iy r1 Hr1)).
    assert (List.length r2 = w) as L2
      by (rewrite Forall_lookup in W2; exact (W2 iy r2 Hr2)).
    apply list_eq. intros ix.
    destruct (decide (ix < w)%nat) as [Hx|Hx].
    + destruct (lookup_lt_is_Some_2 r1 ix ltac:(lia)) as [a Ha].
      destruct (lookup_lt_is_Some_2 r2 ix ltac:(lia)) as [b Hb].
      specialize (Hc iy ix Hy Hx). unfold cell in Hc.
      rewrite Hr1, Hr2 in Hc. cbn [mbind option_bind] in Hc.
      rewrite Ha, Hb in Hc. rewrite Ha, Hb. f_equal. exact Hc.
    + rewrite !lookup_ge_None_2 by lia. reflexivity.
  - rewrite !lookup_ge_None_2 by lia. reflexivity.
Qed.

(** The grids [rasterize] returns are those of the specification. *)
Lemma rasterize_frame_grids s g :
  rasterize s = Some g ->
  g = frame_grids (width s) (height s) (particles s).
Proof.
  intros Hg.
  pose proof Hg as Hr. unfold rasterize in Hr.
  destruct (place_all_rect s (particles s)
              (blank (width s) (height s) " "%string,
               blank (width s) (height s) None)
              g (rect_blank _ _ _) (rect_blank _ _ _) Hr) as [R1 R2].
  destruct g as [g1 g2]. cbn [fst snd] in R1, R2. unfold frame_grids. f_equal.
  - apply (rect_ext ""%string _ _ _ _ R1 (rect_table _ _ _)).
    intros iy ix Hy Hx. rewrite cell_table by assumption.
    exact (proj1 (rasterize_cells s (g1, g2) iy ix Hg Hy Hx)).
  - apply (rect_ext None _ _ _ _ R2 (rect_table _ _ _)).
    intros iy ix Hy Hx. rewrite cell_table by assumption.
    exact (proj2 (rasterize_cells s (g1, g2) iy ix Hg Hy Hx)).
Qed.

End Frame.

(** C9. In the rendered grids, a cell of the canvas that at least one
    particle hits (by its truncated position) holds the glyph and the
    colour tag of the last such particle of the collection, whatever the
    earlier ones wrote; a cell no particle hits holds the blank and no
    colour. *)
Theorem rasterize_last_writer_wins s g ix iy :
  rasterize s = Some g ->
  0 <= ix < width s -> 0 <= iy < height s ->
  (forall l1 p l2,
     particles s = l1 ++ p :: l2 ->
     hits ix iy p -> Forall (fun q => ~ hits ix iy q) l2 ->
     cell ""%string (fst g) (Z.to_nat iy) (Z.to_nat ix) = char p /\
     cell None (snd g) (Z.to_nat iy) (Z.to_nat ix) = Some (color p)) /\
  (Forall (fun q => ~ hits ix iy q) (particles s) ->
     cell ""%string (fst g) (Z.to_nat iy) (Z.to_nat ix) = " "%string /\
     cell None (snd g) (Z.to_nat iy) (Z.to_nat ix) = None).
Proof.
  intros Hg Hx Hy. unfold rasterize in Hg.
  destruct (place_all_cell s (particles s)
              (blank (width s) (height s) " "%string, blank (width s) (height s) None)
              g ix iy (rect_blank _ _ _) (rect_blank _ _ _) Hx Hy Hg) as [Hc Hk].
  cbn [fst snd] in Hc, Hk. split.
  - intros l1 p l2 Hps Hp Hl2.
    rewrite Hps, (last_hit_app ix iy l1 p l2 Hp Hl2) in Hc, Hk. split; assumption.
  - intros Hnone. apply last_hit_None in Hnone. rewrite Hnone in Hc, Hk.
    rewrite cell_blank in Hc by lia. rewrite cell_blank in Hk by lia.
    split; assumption.
Qed.

(** C8. Rendering is deterministic and free of side effects. On every
    collection whose positions are finite, the two grids [render] fills are
    [frame_grids] and the frame it returns is [frame_text]: functions of the
    width, the height and the ordered collection of particles alone, so that
    rendering the same collection twice gives the same frame, whatever the
    frame counter, the flags, the state of the generator and the frames
    rendered before. [render] takes no generator and returns no state: it
    reads the particles and writes only the grids of its own call. Its only
    failure is [int] on a position that is not finite, which no state left
    by a tick holds. Each call starts from grids of its own of [height] rows
    of [width] cells, blank and without colour: the grids it returns have
    that shape, and a cell no particle of the collection hits is blank and
    has no colour. *)
Theorem render_depends_on_particles_only :
  (forall s,
     Forall finite_position (particles s) ->
     rasterize s = Some (frame_grids (width s) (height s) (particles s)) /\
     render s = Some (frame_text (width s) (height s) (particles s))) /\
  (forall s out,
     render s = Some out ->
     Forall finite_position (particles s) /\
     out = frame_text (width s) (height s) (particles s)) /\
  (forall s g,
     rasterize s = Some g ->
     rect (Z.to_nat (width s)) (Z.to_nat (height s)) (fst g) /\
     rect (Z.to_nat (width s)) (Z.to_nat (height s)) (snd g) /\
     forall iy ix,
       (iy < Z.to_nat (height s))%nat -> (ix < Z.to_nat (width s))%nat ->
       Forall (fun q => ~ hits (Z.of_nat ix) (Z.of_nat iy) q) (particles s) ->
       cell ""%string (fst g) iy ix = " "%string /\
       cell None (snd g) iy ix = None) /\
  (forall s1 s2,
     width s1 = width s2 -> height s1 = height s2 ->
     particles s1 = particles s2 -> render s1 = render s2) /\
  (forall cos sin s g s',
     fst (update cos sin s g) = Some s' ->
     render s' = Some (frame_text (width s) (height s) (particles s'))).
Proof.
  split; [|split; [exact render_Some|]].
  { intros s H. split; [|exact (render_frame_text s H)].
    destruct (place_all_total s (particles s)
                (blank (width s) (height s) " "%string,
                 blank (width s) (height s) None) H) as [g Hg].
    change (rasterize s = Some g) in Hg.
    rewrite Hg. rewrite (rasterize_frame_grids s g Hg) at 1. reflexivity. }
  split; [|split].
  - intros s g Hg. unfold rasterize in Hg.
    destruct (place_all_rect s (particles s)
                (blank (width s) (height s) " "%string,
                 blank (width s) (height s) None)
                g (rect_blank _ _ _) (rect_blank _ _ _) Hg) as [R1 R2].
    split; [exact R1|]. split; [exact R2|].
    intros iy ix Hy Hx Hnone.
    destruct (rasterize_cells s g iy ix Hg Hy Hx) as [Hc Hk].
    apply last_hit_None in Hnone. rewrite Hnone in Hc, Hk. split; assumption.
  - intros s1 s2 Hw Hh Hp. unfold render, rasterize, output, line_text.
    rewrite (place_all_ext s1 s2 _ _ Hw Hh), Hw, Hh, Hp. reflexivity.
  - intros cos sin s g s' H. apply update_Some in H.
    destruct H as (qs & _ & ->).
    set (e := fst (emit cos sin s g)).
    set (ps := List.filter (alive s) qs).
    assert (Forall finite_position ps) as Hfin.
    { apply Forall_forall. intros p Hp.
      apply list_elem_of_In, filter_In in Hp. destruct Hp as [_ Hp].
      apply (alive_finite s). exact Hp. }
    rewrite (render_frame_text (set_particles e ps) Hfin).
    change (width (set_particles e ps)) with (width e).
    change (height (set_particles e ps)) with (height e).
    change (particles (set_particles e ps)) with ps.
    unfold e. rewrite emit_width, emit_height. reflexivity.
Qed.

(** The frame of [sim1]: twelve coloured cells on a canvas of 80 x 24, the
    same for another state with the same canvas and collection. *)
Lemma render_depends_on_particles_only_witness :
  render sim1 = Some (frame_text 80 24 (particles sim1)) /\
  render (mkSim 80 24 (particles sim1) 7 false 0 0) = render sim1 /\
  String.length (frame_text 80 24 (particles sim1)) = 2051%nat /\
  frame_line 80 (particles sim1) 12
  = (String.concat "" (repeat " " 36)
     ++ String "027" "[92m" ++ "." ++ RESET
     ++ String.concat "" (repeat " " 6)
     ++ String "027" "[92m" ++ "." ++ RESET
     ++ String.concat "" (repeat " " 36))%string.
Proof.
  destruct render_depends_on_particles_only as (_ & _ & _ & H4 & H5).
  split; [|split; [|split]].
  - apply (H5 Libm.cos Libm.sin sim0 sample_rng sim1). vm_compute. reflexivity.
  - apply H4; vm_compute; reflexivity.
  - vm_compute. reflexivity.
  - vm_compute. reflexivity.
Defined.

(** The cell [(43, 12)] of the frame of [sim1] holds the glyph and the colour
    of the first particle, the only one that hits it. *)
Lemma rasterize_last_writer_wins_witness :
  cell ""%string (fst (default (nil, nil) (rasterize sim1))) 12 43
  = char (hd last_tick (particles sim1)) /\
  cell None (snd (default (nil, nil) (rasterize sim1))) 12 43
  = Some (color (hd last_tick (particles sim1))).
Proof.
  destruct (rasterize_last_writer_wins sim1 (default (nil, nil) (rasterize sim1)) 43 12)
    as [H _].
  - vm_compute. reflexivity.
  - vm_compute. split; [discriminate | reflexivity].
  - vm_compute. split; [discriminate | reflexivity].
  - apply (H nil (hd last_tick (particles sim1)) (tl (particles sim1))).
    + vm_compute. reflexivity.
    + split; vm_compute; reflexivity.
    + apply last_hit_None. vm_compute. reflexivity.
Defined.

Section SpiralBounds.

Local Open Scope float_scope.

Lemma radius_inside s0 :
  unit_range s0 -> inside (-384) 384 (Py.float_of_int 1 + s0 * 0.5).
Proof.
  intros Hs0.
  assert (inside (-128) 128 (s0 * 0.5)) as Ht.
  { apply (inside_mul 256 128 128); [exact Hs0 | known_inside | lia | lia]. }
  assert (inside 256 256 (Py.float_of_int 1)) as H1 by known_inside.
  apply (inside_weaken (256 + -128) (256 + 128)); [|lia|lia].
  apply inside_add; [exact H1 | exact Ht | lia | lia].
Qed.

Lemma speed_inside u : inside 0 256 u -> inside (-257) 257 (0.6 + u * 0.4).
Proof.
  intros Hu.
  assert (inside 0 103 (u * 0.4)) as Ht.
  { apply (inside_mul_pos 256 103 103); [exact Hu | known_inside | lia | lia]. }
  assert (inside 153 154 0.6) as H6 by known_inside.
  apply (inside_weaken (153 + 0) (154 + 103)); [|lia|lia].
  apply inside_add; [exact H6 | exact Ht | lia | lia].
Qed.

Lemma jitter_inside u j a b :
  inside 0 256 u -> inside (- a) a j -> 128 * a <= 256 * b -> b < 2 ^ 53 ->
  inside (- b) b ((u - 0.5) * j).
Proof.
  intros Hu Hj Hab Hb.
  assert (inside (0 - 128) (256 - 128) (u - 0.5)) as Ht.
  { apply inside_sub; [exact Hu | known_inside | lia | lia]. }
  apply (inside_mul 128 a b); [|exact Hj|exact Hab|exact Hb].
  apply (inside_weaken _ _ _ _ _ Ht); lia.
Qed.

(** The horizontal position of a spiral particle of the first tick after
    its first move, on a canvas centred at 40. *)
Lemma spiral_x_inside c s0 u1 u2 :
  unit_range c -> unit_range s0 -> inside 0 256 u1 -> inside 0 256 u2 ->
  inside 8805 11675
    ((Py.float_of_int 40 + c * (Py.float_of_int 1 + s0 * 0.5) * Py.float_of_int 3)
     + (c * (0.6 + u1 * 0.4) + (u2 - 0.5) * 0.2)).
Proof.
  intros Hc Hs0 Hu1 Hu2.
  pose proof (radius_inside s0 Hs0) as Hr.
  pose proof (speed_inside u1 Hu1) as Hsp.
  assert (inside (-384) 384 (c * (Py.float_of_int 1 + s0 * 0.5))) as H1.
  { apply (inside_mul 256 384 384); [exact Hc | exact Hr | lia | lia]. }
  assert (inside (-1152) 1152
            (c * (Py.float_of_int 1 + s0 * 0.5) * Py.float_of_int 3)) as H2.
  { apply (inside_mul 384 768 1152); [exact H1 | known_inside | lia | lia]. }
  assert (inside (10240 + -1152) (10240 + 1152)
            (Py.float_of_int 40
             + c * (Py.float_of_int 1 + s0 * 0.5) * Py.float_of_int 3)) as H3.
  { apply inside_add; [known_inside | exact H2 | lia | lia]. }
  assert (inside (-257) 257 (c * (0.6 + u1 * 0.4))) as H4.
  { apply (inside_mul 256 257 257); [exact Hc | exact Hsp | lia | lia]. }
  assert (inside (-26) 26 ((u2 - 0.5) * 0.2)) as H5.
  { apply (jitter_inside u2 0.2 52 26); [exact Hu2 | known_inside | lia | lia]. }
  assert (inside (-257 + -26) (257 + 26)
            (c * (0.6 + u1 * 0.4) + (u2 - 0.5) * 0.2)) as H6.
  { apply inside_add; [exact H4 | exact H5 | lia | lia]. }
  apply (inside_weaken (10240 + -1152 + (-257 + -26)) (10240 + 1152 + (257 + 26)));
    [|lia|lia].
  apply inside_add; [exact H3 | exact H6 | lia | lia].
Qed.

(** Its vertical position, on a canvas centred at 12. *)
Lemma spiral_y_inside sn s0 u1 u3 :
  unit_range sn -> unit_range s0 -> inside 0 256 u1 -> inside 0 256 u3 ->
  inside 2354 3790
    ((Py.float_of_int 12 + sn * (Py.float_of_int 1 + s0 * 0.5) * 1.5)
     + (sn * (0.6 + u1 * 0.4) * 0.5 + (u3 - 0.5) * 0.1)).
Proof.
  intros Hc Hs0 Hu1 Hu3.
  pose proof (radius_inside s0 Hs0) as Hr.
  pose proof (speed_inside u1 Hu1) as Hsp.
  assert (inside (-384) 384 (sn * (Py.float_of_int 1 + s0 * 0.5))) as H1.
  { apply (inside_mul 256 384 384); [exact Hc | exact Hr | lia | lia]. }
  assert (inside (-576) 576 (sn * (Py.float_of_int 1 + s0 * 0.5) * 1.5)) as H2.
  { apply (inside_mul 384 384 576); [exact H1 | known_inside | lia | lia]. }
  assert (inside (3072 + -576) (3072 + 576)
            (Py.float_of_int 12 + sn * (Py.float_of_int 1 + s0 * 0.5) * 1.5)) as H3.
  { apply inside_add; [known_inside | exact H2 | lia | lia]. }
  assert (inside (-257) 257 (sn * (0.6 + u1 * 0.4))) as H4.
  { apply (inside_mul 256 257 257); [exact Hc | exact Hsp | lia | lia]. }
  assert (inside (-129) 129 (sn * (0.6 + u1 * 0.4) * 0.5)) as H4'.
  { apply (inside_mul 257 128 129); [exact H4 | known_inside | lia | lia]. }
  assert (inside (-13) 13 ((u3 - 0.5) * 0.1)) as H5.
  { apply (jitter_inside u3 0.1 26 13); [exact Hu3 | known_inside | lia | lia]. }
  assert (inside (-129 + -13) (129 + 13)
            (sn * (0.6 + u1 * 0.4) * 0.5 + (u3 - 0.5) * 0.1)) as H6.
  { apply inside_add; [exact H4' | exact H5 | lia | lia]. }
  apply (inside_weaken (3072 + -576 + (-129 + -13)) (3072 + 576 + (129 + 13)));
    [|lia|lia].
  apply inside_add; [exact H3 | exact H6 | lia | lia].
Qed.

End SpiralBounds.

(* ================================================================== *)
(** ** The first tick *)

Section FirstTick.

Variables cos sin : float -> float.

Local Open Scope float_scope.

(** The position and the velocity a spiral particle is spawned with. *)
Lemma spiral_particle_fields s i g :
  let c := cos (spiral_angle (frame s) i) in
  let sn := sin (spiral_angle (frame s) i) in
  let radius := Py.float_of_int 1 + sin (spiral_phase (frame s)) * 0.5 in
  let u1 := fst (Random.random g) in
  let u2 := fst (Random.random (Rng (outcome g) (1 + calls g))) in
  let u3 := fst (Random.random (Rng (outcome g) (2 + calls g))) in
  let p := fst (spiral_particle cos sin s i g) in
  x p = Py.float_of_int (center_x s) + c * radius * Py.float_of_int 3 /\
  y p = Py.float_of_int (center_y s) + sn * radius * 1.5 /\
  vx p = c * (0.6 + u1 * 0.4) + (u2 - 0.5) * 0.2 /\
  vy p = sn * (0.6 + u1 * 0.4) * 0.5 + (u3 - 0.5) * 0.1.
Proof. repeat split; reflexivity. Qed.

(** A spiral particle of the first tick is integrated and survives the
    filter. *)
Lemma spiral_particle_survives i g :
  unit_range (cos (spiral_angle 1 i)) ->
  unit_range (sin (spiral_angle 1 i)) ->
  unit_range (sin (spiral_phase 1)) ->
  exists q,
    integrate (fst (spiral_particle cos sin tick1 i g)) = Some q /\
    alive (new_sim 80 24) q = true.
Proof.
  intros Hc Hs Hs0.
  set (p := fst (spiral_particle cos sin tick1 i g)).
  destruct (spiral_particle_life_range cos sin tick1 i g) as [Hl Hm].
  fold p in Hl, Hm.
  destruct (integrate_Some p ltac:(lia)) as [q Hq]. exists q.
  split; [exact Hq|].
  apply integrate_inv in Hq. destruct Hq as ((Hx & Hy & _ & _ & Hlq) & _).
  destruct (spiral_particle_fields tick1 i g) as (Ex & Ey & Evx & Evy).
  fold p in Ex, Ey, Evx, Evy.
  cbn [frame center_x center_y tick1 set_frame new_sim] in Ex, Ey, Evx, Evy.
  change (80 / 2)%Z with 40%Z in Ex. change (24 / 2)%Z with 12%Z in Ey.
  assert (inside 8805 11675 (x q)) as Bx.
  { rewrite Hx, Ex, Evx.
    apply spiral_x_inside; try assumption; apply random_inside. }
  assert (inside 2354 3790 (y q)) as By.
  { rewrite Hy, Ey, Evy.
    apply spiral_y_inside; try assumption; apply random_inside. }
  apply alive_spec. split; [lia|]. unfold on_canvas. cbn [width height new_sim].
  split.
  - apply (inside_in_range _ _ _ _ Bx); lia.
  - apply (inside_in_range _ _ _ _ By); lia.
Qed.

Lemma integrate_all_alive s ps :
  Forall (fun p => exists q, integrate p = Some q /\ alive s q = true) ps ->
  exists qs,
    integrate_all ps = Some qs /\ List.filter (alive s) qs = qs /\
    Forall2 (fun p q => integrate p = Some q) ps qs.
Proof.
  induction 1 as [|p ps (q & Hq & Ha) _ (qs & Hqs & Hf & H2)].
  - exists nil. repeat split. constructor.
  - exists (q :: qs). cbn [integrate_all]. rewrite Hq, Hqs.
    cbn [mbind option_bind List.filter]. rewrite Ha, Hf.
    repeat split. constructor; assumption.
Qed.

(** The particles after the emission of the first tick, when the burst does
    not fire. *)
Lemma emit_first_tick g :
  burst_fires (Rng (outcome g) (48 + calls g)) = false ->
  fst (emit cos sin (new_sim 80 24) g)
  = set_particles tick1 (spiral_new cos sin tick1 g).
Proof.
  intros Hb. unfold emit. rewrite rand_bind_eq. fold tick1.
  rewrite emit_spiral_eq.
  rewrite (spawn_closed (spiral_particle cos sin tick1) 4
             (spiral_particle_calls cos sin tick1)).
  cbn [fst snd]. rewrite emit_burst_eq.
  change (4 * 12 + calls g)%nat with (48 + calls g)%nat.
  rewrite Hb. cbn [fst]. rewrite spiral_new_closed. reflexivity.
Qed.

End FirstTick.

(** C7. On a canvas of 80 x 24, for every outcome of the generator in which
    the burst draw of the first tick fails, and a C library whose sine and
    cosine are within [[-1, 1]] at the angles of that tick, the first tick
    returns, and leaves in the active set exactly the 12 spiral particles
    emitted in that tick, each integrated once: its position after the tick
    is its spawn position plus its spawn velocity. *)
Theorem first_tick_keeps_the_spiral cos sin g :
  Forall (fun i => unit_range (cos (spiral_angle 1 i)) /\
                   unit_range (sin (spiral_angle 1 i))) (seq 0 12) ->
  unit_range (sin (spiral_phase 1)) ->
  burst_fires (Rng (outcome g) (48 + calls g)) = false ->
  exists s1,
    fst (update cos sin (new_sim 80 24) g) = Some s1 /\
    List.length (particles s1) = 12%nat /\
    Forall2 (fun p q => integrate p = Some q /\
                        x q = (x p + vx p)%float /\ y q = (y p + vy p)%float)
            (spiral_new cos sin tick1 g) (particles s1).
Proof.
  intros Hlibm Hphase Hburst.
  destruct (integrate_all_alive (new_sim 80 24) (spiral_new cos sin tick1 g))
    as (qs & Hqs & Hf & H2).
  { rewrite spiral_new_closed. apply Forall_map.
    rewrite Forall_forall in Hlibm |- *. intros i Hi.
    destruct (Hlibm i Hi) as [Hc Hs].
    apply spiral_particle_survives; assumption. }
  exists (set_particles tick1 qs). split; [|split].
  - rewrite update_eq. cbn [fst].
    rewrite (emit_first_tick cos sin g Hburst). cbn [particles set_particles].
    rewrite Hqs. cbn [mbind option_bind].
    change (alive (set_particles tick1 (spiral_new cos sin tick1 g)))
      with (alive (new_sim 80 24)).
    rewrite Hf. reflexivity.
  - cbn [particles set_particles].
    rewrite <- (Forall2_length _ _ _ H2). unfold spiral_new.
    rewrite spawn_length. reflexivity.
  - cbn [particles set_particles].
    eapply Forall2_impl; [exact H2|]. intros p q Hpq. split; [exact Hpq|].
    apply integrate_inv in Hpq. destruct Hpq as ((Hx & Hy & _) & _).
    split; assumption.
Qed.

Lemma first_tick_keeps_the_spiral_witness :
  exists s1,
    fst (update Libm.cos Libm.sin (new_sim 80 24) sample_rng) = Some s1 /\
    List.length (particles s1) = 12%nat /\
    Forall2 (fun p q => integrate p = Some q /\
                        x q = (x p + vx p)%float /\ y q = (y p + vy p)%float)
            (spiral_new Libm.cos Libm.sin tick1 sample_rng) (particles s1).
Proof.
  apply (first_tick_keeps_the_spiral Libm.cos Libm.sin sample_rng).
  - repeat (constructor; [split; known_inside|]). constructor.
  - known_inside.
  - vm_compute. reflexivity.
Defined.

(* ================================================================== *)
(** * Further properties of the simulator

    Properties of the emitters, of the integration, of the rasterizer and of
    the loop of [run] beyond those of the specification. *)

(** ** More on binary64: comparison, truncation, differences, products *)

Section Binary64More.

Lemma emin_is : emin = -1074.
Proof. reflexivity. Qed.

(** The mantissa and the exponent of a finite float are canonical: the
    exponent is at least [emin], the mantissa has at most 53 bits, and 53
    bits exactly above [emin]. *)
Lemma valid_finite f s m e :
  Prim2SF f = S754_finite s m e ->
  emin <= e <= emax - prec /\ Z.pos m < 2 ^ 53 /\ (emin < e -> 2 ^ 52 <= Z.pos m).
Proof.
  intros Hf. pose proof (Prim2SF_valid f) as Hv. rewrite Hf in Hv.
  unfold SpecFloat.valid_binary, SpecFloat.bounded, canonical_mantissa, fexp in Hv.
  apply andb_true_iff in Hv. destruct Hv as [Hc He].
  apply Z.eqb_eq in Hc. apply Z.leb_le in He.
  pose proof (digits2_pos_spec m) as [Hlo Hhi].
  set (d := Z.pos (digits2_pos m)) in *.
  unfold SpecFloat.emin in *. change prec with 53 in *. change emax with 1024 in *.
  assert (d <= 53) as Hd by lia.
  split; [|split].
  - split; [lia | exact He].
  - apply Z.lt_le_trans with (2 ^ d); [exact Hhi|].
    apply Z.pow_le_mono_r; lia.
  - intros Hlt. assert (d = 53) as Ed by lia. rewrite Ed in Hlo. exact Hlo.
Qed.

Lemma F2R_pos_gt_0 m e : (0 < F2R (Z.pos m) e)%R.
Proof.
  unfold F2R. apply Rmult_lt_0_compat; [apply IZR_lt; lia | apply bpow_pos].
Qed.

(** Of two canonical positive numbers, the one of smaller exponent is the
    smaller. *)
Lemma canonical_lt m1 e1 m2 e2 :
  Z.pos m1 < 2 ^ 53 -> 2 ^ 52 <= Z.pos m2 -> e1 < e2 ->
  (F2R (Z.pos m1) e1 < F2R (Z.pos m2) e2)%R.
Proof.
  intros H1 H2 He.
  rewrite <- (F2R_shift (Z.pos m2) e2 (e2 - e1)) by lia.
  replace (e2 - (e2 - e1)) with e1 by lia. apply F2R_lt.
  assert (2 <= 2 ^ (e2 - e1)) as Hp.
  { change 2 with (2 ^ 1) at 1. apply Z.pow_le_mono_r; lia. }
  change (2 ^ 53) with (2 ^ 52 * 2) in H1. nia.
Qed.

(** The comparison of two finite floats is that of their values. *)
Lemma compare_val x y :
  fin x -> fin y ->
  exists c, SFcompare (Prim2SF x) (Prim2SF y) = Some c /\
    match c with
    | Lt => (val x < val y)%R
    | Eq => val x = val y
    | Gt => (val y < val x)%R
    end.
Proof.
  unfold fin, val.
  destruct (Prim2SF x) as [sx|sx| |sx mx ex] eqn:Hx; cbn [SFfin]; try contradiction.
  all: destruct (Prim2SF y) as [sy|sy| |sy my ey] eqn:Hy; cbn [SFfin]; try contradiction.
  all: intros _ _; cbn [SFcompare SFval].
  - exists Eq. split; reflexivity.
  - pose proof (F2R_pos_gt_0 my ey) as Hp.
    destruct sy; eexists; (split; [reflexivity|]); cbn [cond_Zopp].
    + change (Z.neg my) with (- Z.pos my). rewrite F2R_opp. lra.
    + exact Hp.
  - pose proof (F2R_pos_gt_0 mx ex) as Hp.
    destruct sx; eexists; (split; [reflexivity|]); cbn [cond_Zopp].
    + change (Z.neg mx) with (- Z.pos mx). rewrite F2R_opp. lra.
    + exact Hp.
  - pose proof (F2R_pos_gt_0 mx ex) as Hpx.
    pose proof (F2R_pos_gt_0 my ey) as Hpy.
    destruct (valid_finite x sx mx ex Hx) as ([Hex _] & Hmx & Hnx).
    destruct (valid_finite y sy my ey Hy) as ([Hey _] & Hmy & Hny).
    assert (match ex ?= ey with
            | Eq => match Pos.compare_cont Eq mx my with
                    | Lt => (F2R (Z.pos mx) ex < F2R (Z.pos my) ey)%R
                    | Eq => F2R (Z.pos mx) ex = F2R (Z.pos my) ey
                    | Gt => (F2R (Z.pos my) ey < F2R (Z.pos mx) ex)%R
                    end
            | Lt => (F2R (Z.pos mx) ex < F2R (Z.pos my) ey)%R
            | Gt => (F2R (Z.pos my) ey < F2R (Z.pos mx) ex)%R
            end) as Hcmp.
    { destruct (Z.compare_spec ex ey) as [->|Hlt|Hgt].
      - change (Pos.compare_cont Eq mx my) with (Pos.compare mx my).
        destruct (Pos.compare_spec mx my) as [->|Hlt|Hgt].
        + reflexivity.
        + apply F2R_lt. lia.
        + apply F2R_lt. lia.
      - apply canonical_lt; [exact Hmx | apply Hny; lia | exact Hlt].
      - apply canonical_lt; [exact Hmy | apply Hnx; lia | exact Hgt]. }
    destruct sx, sy; cbn [cond_Zopp];
      change (Z.neg mx) with (- Z.pos mx); change (Z.neg my) with (- Z.pos my);
      rewrite ?F2R_opp.
    + destruct (ex ?= ey).
      * destruct (Pos.compare_cont Eq mx my); eexists; (split; [reflexivity|]);
          cbn [CompOpp]; lra.
      * eexists; (split; [reflexivity|]); cbn; lra.
      * eexists; (split; [reflexivity|]); cbn; lra.
    + eexists; (split; [reflexivity|]); cbn; lra.
    + eexists; (split; [reflexivity|]); cbn; lra.
    + destruct (ex ?= ey).
      * destruct (Pos.compare_cont Eq mx my); eexists; (split; [reflexivity|]);
          cbn; lra.
      * eexists; (split; [reflexivity|]); cbn; lra.
      * eexists; (split; [reflexivity|]); cbn; lra.
Qed.

Lemma ltb_val x y :
  fin x -> fin y -> ((x <? y)%float = true <-> (val x < val y)%R).
Proof.
  intros Hx Hy. rewrite FloatAxioms.ltb_spec. unfold SFltb.
  destruct (compare_val x y Hx Hy) as (c & -> & Hc).
  destruct c; split; try discriminate; try reflexivity; lra.
Qed.

Lemma F2R_IZR n : F2R n 0 = IZR n.
Proof. unfold F2R. cbn. lra. Qed.

(** [int(x)] on a finite float: the integer part of its value, towards
    zero. *)
Lemma int_of_float_val f :
  fin f ->
  exists t, Py.int_of_float f = Some t /\
    ((0 <= val f -> IZR t <= val f < IZR t + 1) /\
     (val f <= 0 -> IZR t - 1 < val f <= IZR t))%R.
Proof.
  unfold fin, val, Py.int_of_float.
  destruct (Prim2SF f) as [s|s| |s m e]; cbn [SFfin SFval]; try contradiction;
    intros _.
  - exists 0. split; [reflexivity|]. split; intros _; lra.
  - eexists. split; [reflexivity|]. unfold Py.SFtrunc.
    set (q := if 0 <=? e then Z.pos m * 2 ^ e else Z.pos m / 2 ^ (- e)).
    assert (IZR q <= F2R (Z.pos m) e < IZR q + 1)%R as Hq.
    { unfold q. destruct (Z.leb_spec 0 e) as [He|He].
      - rewrite <- (F2R_shift (Z.pos m) e e) by lia.
        replace (e - e) with 0 by lia. rewrite F2R_IZR. lra.
      - pose proof (Z.pow_pos_nonneg 2 (- e) ltac:(lia) ltac:(lia)) as Hp.
        pose proof (Z.div_mod (Z.pos m) (2 ^ (- e)) ltac:(lia)) as Hdm.
        pose proof (Z.mod_pos_bound (Z.pos m) (2 ^ (- e)) Hp) as Hmod.
        set (d := Z.pos m / 2 ^ (- e)) in *.
        replace (IZR d + 1)%R with (IZR (d + 1)) by (rewrite plus_IZR; lra).
        rewrite <- !F2R_IZR.
        rewrite <- (F2R_shift d 0 (- e)) by lia.
        rewrite <- (F2R_shift (d + 1) 0 (- e)) by lia.
        replace (0 - - e) with e by lia.
        split; [apply F2R_le | apply F2R_lt]; lia. }
    pose proof (F2R_pos_gt_0 m e) as Hpos.
    destruct s; cbn [cond_Zopp].
    + change (Z.neg m) with (- Z.pos m). rewrite F2R_opp, opp_IZR.
      split; intros H; lra.
    + split; intros H; lra.
Qed.

(** Every finite float is a multiple of [2^emin]. *)
Lemma fin_multiple f : fin f -> exists M, val f = F2R M emin.
Proof.
  unfold fin, val. destruct (Prim2SF f) as [s|s| |s m e] eqn:Hf; cbn [SFfin SFval];
    try contradiction; intros _.
  - exists 0. rewrite F2R_0. reflexivity.
  - destruct (valid_finite f s m e Hf) as ([He _] & _).
    exists (cond_Zopp s (Z.pos m) * 2 ^ (e - emin)).
    rewrite <- (F2R_shift (cond_Zopp s (Z.pos m)) e (e - emin)) by lia.
    f_equal. lia.
Qed.

Lemma sub_fin_val x y NL NH k :
  emin <= k <= 900 -> - 2 ^ 53 < NL -> NH < 2 ^ 53 ->
  fin x -> fin y ->
  (F2R NL k <= val x - val y <= F2R NH k)%R ->
  fin (x - y) /\ (F2R NL k <= val (x - y) <= F2R NH k)%R.
Proof.
  intros Hk HL HH Hx Hy Hb. unfold fin, val. rewrite FloatAxioms.sub_spec.
  apply (SFsub_val NL NH k Hk HL HH); assumption.
Qed.

(** The difference of two floats is positive when the first is the
    larger: it is a multiple of [2^emin], and rounding keeps it above the
    power of two below it. *)
Lemma sub_positive a x y :
  a < 2 ^ 52 -> inside (- a) a x -> inside (- a) a y ->
  (val y < val x)%R -> fin (x - y) /\ (0 < val (x - y))%R.
Proof.
  intros Ha [Hx Bx] [Hy By] Hlt.
  destruct (fin_multiple x Hx) as [Mx Ex]. destruct (fin_multiple y Hy) as [My Ey].
  assert (val x - val y = F2R (Mx - My) emin)%R as Ev.
  { rewrite Ex, Ey. unfold F2R. rewrite minus_IZR. lra. }
  set (N := Mx - My) in *.
  assert (0 < N) as HN.
  { apply (F2R_lt 0 N emin). rewrite F2R_0. lra. }
  set (j := Z.log2 N).
  destruct (Z.log2_spec N HN) as [Hlo Hhi]. fold j in Hlo, Hhi.
  assert (0 <= j) as Hj by apply Z.log2_nonneg.
  assert (F2R 1 (emin + j) <= val x - val y <= F2R 2 (emin + j))%R as Hb.
  { rewrite Ev.
    rewrite <- (F2R_shift 1 (emin + j) j), <- (F2R_shift 2 (emin + j) j) by lia.
    replace (emin + j - j) with emin by lia. rewrite !F2R_le.
    replace (Z.succ j) with (j + 1) in Hhi by lia.
    rewrite Z.pow_add_r in Hhi by lia. lia. }
  assert (emin + j < 53) as Hk.
  { apply bpow_lt_inv.
    assert (bpow (emin + j) <= val x - val y)%R as H1.
    { destruct Hb as [Hb _]. unfold F2R in Hb. lra. }
    assert (val x - val y < IZR (2 ^ 53))%R as H2.
    { apply IZR_lt in Ha. rewrite opp_IZR in Bx, By.
      change (2 ^ 53) with (2 ^ 52 * 2). rewrite mult_IZR. lra. }
    rewrite (bpow_IZR 53) by lia.
    eapply Rle_lt_trans; [exact H1 | exact H2]. }
  destruct (sub_fin_val x y 1 2 (emin + j)) as [Hf [Hv _]];
    try assumption; try lia.
  split; [exact Hf|].
  pose proof (bpow_pos (emin + j)). unfold F2R in Hv. lra.
Qed.

(** It is not positive when the first is not the larger. *)
Lemma sub_not_positive a x y :
  a < 2 ^ 52 -> inside (- a) a x -> inside (- a) a y ->
  (val x <= val y)%R -> fin (x - y) /\ (val (x - y) <= 0)%R.
Proof.
  intros Ha [Hx Bx] [Hy By] Hle.
  destruct (sub_fin_val x y (- (2 * a)) 0 (-8) grid_256) as [Hf [_ Hv]];
    try assumption; try lia.
  - rewrite F2R_0, F2R_256, opp_IZR, mult_IZR. rewrite opp_IZR in Bx, By. lra.
  - rewrite F2R_0 in Hv. split; assumption.
Qed.

(** Taking a non-negative float off a float of [[0, 1]] does not round
    above it. *)
Lemma sub_below x y :
  inside 0 256 x -> fin y -> (0 <= val y <= val x)%R ->
  (val (x - y) <= val x)%R.
Proof.
  intros [Hx Bx] Hy Hle. unfold fin, val in Hx, Bx.
  destruct (Prim2SF x) as [s|s| |s m e] eqn:Ex; cbn [SFfin] in Hx; try contradiction.
  - assert (val x = 0%R) as E0 by (unfold val; rewrite Ex; reflexivity).
    destruct (sub_fin_val x y 0 0 0) as [_ [_ Hv]]; try assumption; try lia.
    + rewrite emin_is. lia.
    + unfold fin. rewrite Ex. exact I.
    + rewrite F2R_0. lra.
    + rewrite F2R_0 in Hv. lra.
  - assert (val x = SFval (S754_finite s m e)) as Ev by (unfold val; rewrite Ex; reflexivity).
    cbn [SFval] in Bx, Ev.
    assert (s = false) as ->.
    { destruct s; [|reflexivity]. exfalso. cbn [cond_Zopp] in Bx.
      change (Z.neg m) with (- Z.pos m) in Bx. rewrite F2R_opp in Bx.
      pose proof (F2R_pos_gt_0 m e). lra. }
    cbn [cond_Zopp] in Bx, Ev.
    destruct (valid_finite x false m e Ex) as ([He _] & Hm & _).
    assert (e <= 0) as He0.
    { destruct (Z_le_dec e 0) as [H|H]; [exact H|]. exfalso.
      pose proof (bpow_le 1 e ltac:(lia)) as Hb.
      rewrite (bpow_IZR 1) in Hb by lia. change (2 ^ 1) with 2 in Hb.
      assert (1 <= IZR (Z.pos m))%R by (apply IZR_le; lia).
      assert (F2R (Z.pos m) e <= 1)%R as Hone by lra.
      unfold F2R in Hone. nra. }
    destruct (sub_fin_val x y 0 (Z.pos m) e) as [_ [_ Hv]]; try assumption; try lia.
    + unfold fin. rewrite Ex. exact I.
    + rewrite F2R_0, <- Ev. lra.
    + rewrite Ev. exact Hv.
Qed.

Lemma mul_fin_val x y NL NH k :
  emin <= k <= 900 -> - 2 ^ 53 < NL -> NH < 2 ^ 53 ->
  fin x -> fin y ->
  (F2R NL k <= val x * val y <= F2R NH k)%R ->
  fin (x * y) /\ (F2R NL k <= val (x * y) <= F2R NH k)%R.
Proof.
  intros Hk HL HH Hx Hy Hb. unfold fin, val. rewrite FloatAxioms.mul_spec.
  apply (SFmul_val NL NH k Hk HL HH); assumption.
Qed.

(** The exponent of a finite float below [2^52] is below 52. *)
Lemma small_exponent f s m e a :
  Prim2SF f = S754_finite s m e -> a < 2 ^ 52 -> inside (- a) a f -> e < 52.
Proof.
  intros Hf Ha [_ [B1 B2]]. unfold val in B1, B2. rewrite Hf in B1, B2.
  cbn [SFval] in B1, B2. apply bpow_lt_inv.
  assert (F2R (Z.pos m) e <= IZR a / 256)%R as Hm.
  { destruct s; cbn [cond_Zopp] in B1, B2; [|exact B2].
    change (Z.neg m) with (- Z.pos m) in B1. rewrite F2R_opp, opp_IZR in B1. lra. }
  assert (1 <= IZR (Z.pos m))%R as H1 by (apply IZR_le; lia).
  pose proof (bpow_pos e) as Hp. unfold F2R in Hm.
  assert (0 <= IZR a)%R as Ha0 by nra.
  apply IZR_lt in Ha. rewrite (bpow_IZR 52) by lia.
  eapply Rle_lt_trans; [|exact Ha]. nra.
Qed.

(** A product by a factor of [[0, 1]] is not larger than the other
    factor: rounding does not cross the factor itself. *)
Lemma mul_shrinks a x c :
  a < 2 ^ 52 -> inside (- a) a x -> inside 0 256 c ->
  fin (x * c) /\ (Rabs (val (x * c)) <= Rabs (val x))%R.
Proof.
  intros Ha Hx [Hc Bc].
  assert (0 <= val c <= 1)%R as Bc' by lra.
  pose proof Hx as [Fx _]. unfold fin in Fx.
  destruct (Prim2SF x) as [s|s| |s m e] eqn:Ex; cbn [SFfin] in Fx; try contradiction.
  - assert (val x = 0%R) as E0 by (unfold val; rewrite Ex; reflexivity).
    destruct (mul_fin_val x c 0 0 0) as [Hf [Hv1 Hv2]]; try assumption; try lia.
    + change emin with (-1074). lia.
    + unfold fin. rewrite Ex. exact I.
    + rewrite F2R_0, E0. lra.
    + split; [exact Hf|]. rewrite F2R_0 in Hv1, Hv2.
      replace (val (x * c)) with 0%R by lra. rewrite E0. lra.
  - assert (val x = F2R (cond_Zopp s (Z.pos m)) e) as Ev
      by (unfold val; rewrite Ex; reflexivity).
    destruct (valid_finite x s m e Ex) as ([He _] & Hm & _).
    pose proof (small_exponent x s m e a Ex Ha Hx) as He52.
    pose proof (F2R_pos_gt_0 m e) as Hpos.
    assert (Rabs (val x) = F2R (Z.pos m) e) as Eabs.
    { rewrite Ev. destruct s; cbn [cond_Zopp].
      - change (Z.neg m) with (- Z.pos m). rewrite F2R_opp, Rabs_Ropp.
        apply Rabs_pos_eq. lra.
      - apply Rabs_pos_eq. lra. }
    destruct (mul_fin_val x c (- Z.pos m) (Z.pos m) e) as [Hf [Hv1 Hv2]];
      try assumption; try lia.
    + unfold fin. rewrite Ex. exact I.
    + rewrite F2R_opp, <- Eabs.
      pose proof (Rabs_pos (val x)). pose proof (Rle_abs (val x)).
      pose proof (Rle_abs (- val x)) as Hn. rewrite Rabs_Ropp in Hn.
      split; nra.
    + split; [exact Hf|]. rewrite Eabs. rewrite F2R_opp in Hv1.
      apply Rabs_le. split; assumption.
Qed.

(** [random.random()] is exactly its 53 bits scaled by [2^-53]. *)
Lemma random_val g :
  fin (fst (Random.random g)) /\
  val (fst (Random.random g)) = F2R (random_bits g) (-53).
Proof.
  unfold Random.random, Random.next. cbn [fst]. fold (random_bits g).
  set (k := random_bits g).
  assert (0 <= k < 2 ^ 53) as Hk by (apply Z.mod_pos_bound; lia).
  unfold fin, val. rewrite FloatAxioms.mul_spec.
  assert (SFfin (Prim2SF (of_uint63 (of_Z k))) /\
          (F2R k 0 <= SFval (Prim2SF (of_uint63 (of_Z k))) <= F2R k 0)%R)
    as [Hfin Hval].
  { rewrite of_uint63_spec, of_Z_spec.
    rewrite Z.mod_small by (change wB with (2 ^ 63); lia).
    apply binary_normalize_val; [| lia | lia | lra].
    rewrite emin_is. lia. }
  assert (emin <= -53 <= 900) as Hg by (rewrite emin_is; lia).
  destruct (SFmul_val k k (-53) Hg ltac:(lia) ltac:(lia)
              (Prim2SF (of_uint63 (of_Z k))) (Prim2SF 0x1p-53) Hfin I) as [Hf Hv].
  - change (Prim2SF 0x1p-53) with (S754_finite false 4503599627370496 (-105)).
    cbn [SFval cond_Zopp].
    change 4503599627370496 with (1 * 2 ^ 52). change (-105) with (-53 - 52).
    rewrite (F2R_shift 1 (-53) 52) by lia.
    assert (SFval (Prim2SF (of_uint63 (of_Z k))) = F2R k 0) as -> by lra.
    rewrite <- F2R_mult. replace (k * 1) with k by lia.
    replace (0 + -53) with (-53) by lia. lra.
  - split; [exact Hf | apply Rle_antisym; apply Hv].
Qed.

Lemma burst_threshold_val :
  fin 0.04 /\ val 0.04 = F2R 5764607523034235 (-57).
Proof. split; [exact I | reflexivity]. Qed.

End Binary64More.

(* ================================================================== *)
(** ** Ticks in sequence *)

Section TickLoop.

Variables cos sin : float -> float.

Lemma emit_spiral_calls s g :
  snd (emit_spiral cos sin s g) = burst_draw g.
Proof.
  rewrite emit_spiral_eq.
  rewrite (spawn_closed (spiral_particle cos sin s) 4 (spiral_particle_calls cos sin s)).
  cbn [snd]. unfold burst_draw. reflexivity.
Qed.

Lemma burst_new_calls s g :
  snd (burst_new cos sin s g) = Rng (outcome g) (63 + calls g).
Proof.
  unfold burst_new. rewrite !rand_bind_eq.
  change (snd (Random.random g)) with (Rng (outcome g) (1 + calls g)).
  destruct (Random.randint (-8) 8 (Rng (outcome g) (1 + calls g))) as [dx g2] eqn:E2.
  assert (g2 = Rng (outcome g) (2 + calls g)) as -> by (inversion E2; reflexivity).
  rewrite rand_bind_eq.
  destruct (Random.randint (-4) 4 (Rng (outcome g) (2 + calls g))) as [dy g3] eqn:E3.
  assert (g3 = Rng (outcome g) (3 + calls g)) as -> by (inversion E3; reflexivity).
  rewrite (spawn_closed (burst_particle cos sin (center_x s + dx) (center_y s + dy))
             4 (burst_particle_calls cos sin _ _)).
  cbn [snd outcome calls]. apply (f_equal (Rng (outcome g))). lia.
Qed.

Lemma burst_new_ext s1 s2 g :
  center_x s1 = center_x s2 -> center_y s1 = center_y s2 ->
  burst_new cos sin s1 g = burst_new cos sin s2 g.
Proof. intros Hx Hy. unfold burst_new. rewrite Hx, Hy. reflexivity. Qed.

(** The emission of a tick, in full: the spiral of the new frame, then the
    burst when the draw that follows the spiral fires. *)
Lemma emit_full s g :
  emit cos sin s g
  = (set_particles (set_frame s (frame s + 1))
       (particles s ++ spiral_new cos sin (set_frame s (frame s + 1)) g
        ++ (if burst_fires (burst_draw g)
            then fst (burst_new cos sin s (burst_draw g)) else nil)),
     if burst_fires (burst_draw g)
     then Rng (outcome g) (111 + calls g) else Rng (outcome g) (49 + calls g)).
Proof.
  unfold emit. rewrite rand_bind_eq.
  pose proof (emit_spiral_calls (set_frame s (frame s + 1)) g) as Hc.
  pose proof (emit_spiral_new cos sin (set_frame s (frame s + 1)) g) as Hs.
  destruct (emit_spiral cos sin (set_frame s (frame s + 1)) g) as [s1 g1].
  cbn [fst snd] in Hc, Hs. subst s1 g1.
  rewrite emit_burst_eq. destruct (burst_fires (burst_draw g)).
  - rewrite burst_new_calls.
    match goal with |- context [burst_new cos sin (set_particles ?a ?b) _] =>
      rewrite (burst_new_ext (set_particles a b) s (burst_draw g) eq_refl eq_refl)
    end.
    cbn [particles set_particles set_frame].
    rewrite set_particles_twice, <- app_assoc.
    apply f_equal. unfold burst_draw. cbn [outcome calls].
    apply (f_equal (Rng (outcome g))). lia.
  - rewrite app_nil_r. apply f_equal.
    unfold burst_draw, Random.random, Random.next. cbn [snd outcome calls].
    reflexivity.
Qed.

(** The particles a tick emits. *)
Local Abbreviation emitted_by s g :=
  (spiral_new cos sin (set_frame s (frame s + 1)) g
   ++ (if burst_fires (burst_draw g)
       then fst (burst_new cos sin s (burst_draw g)) else nil))
  (only parsing).

Lemma emit_fst s g :
  fst (emit cos sin s g)
  = set_particles (set_frame s (frame s + 1)) (particles s ++ emitted_by s g).
Proof. rewrite emit_full. cbn [fst]. reflexivity. Qed.

(** One tick that returns: the collection it found and the particles it
    emits are integrated in order, then filtered. *)
Lemma update_step s g s' :
  fst (update cos sin s g) = Some s' ->
  exists qs,
    integrate_all (particles s ++ emitted_by s g) = Some qs /\
    s' = set_particles (set_frame s (frame s + 1)) (List.filter (alive s) qs).
Proof.
  intros H. apply update_Some in H. destruct H as (qs & Hqs & ->).
  rewrite emit_fst in Hqs |- *. cbn [particles set_particles] in Hqs.
  exists qs. split; [exact Hqs|]. rewrite set_particles_twice. reflexivity.
Qed.

Lemma update_returns s g qs :
  integrate_all (particles s ++ emitted_by s g) = Some qs ->
  fst (update cos sin s g)
  = Some (set_particles (set_frame s (frame s + 1)) (List.filter (alive s) qs)).
Proof.
  intros Hqs. rewrite update_eq. cbn [fst]. rewrite emit_fst.
  cbn [particles set_particles]. rewrite Hqs. cbn [mbind option_bind].
  rewrite set_particles_twice. reflexivity.
Qed.

Lemma emit_calls s g :
  snd (emit cos sin s g)
  = Rng (outcome g) ((if burst_fires (burst_draw g) then 111 else 49) + calls g).
Proof.
  rewrite emit_full.
  destruct (burst_fires (burst_draw g)); reflexivity.
Qed.

Lemma update_snd s g : snd (update cos sin s g) = snd (emit cos sin s g).
Proof.
  unfold update, emit, rand_bind, rand_ret.
  destruct (emit_spiral cos sin (set_frame s (frame s + 1)) g) as [s1 g1].
  destruct (emit_burst cos sin s1 g1) as [s2 g2]. reflexivity.
Qed.

Lemma update_calls s g :
  snd (update cos sin s g)
  = Rng (outcome g) ((if burst_fires (burst_draw g) then 111 else 49) + calls g).
Proof. rewrite update_snd. apply emit_calls. Qed.

Lemma updates_S n s g :
  updates cos sin (S n) s g
  = match fst (update cos sin s g) with
    | Some s' => updates cos sin n s' (snd (update cos sin s g))
    | None => (None, snd (update cos sin s g))
    end.
Proof.
  cbn [updates]. destruct (update cos sin s g) as [[s'|] g']; reflexivity.
Qed.

End TickLoop.

Section Lives.

Variables cos sin : float -> float.

Local Abbreviation emitted_by s g :=
  (spiral_new cos sin (set_frame s (frame s + 1)) g
   ++ (if burst_fires (burst_draw g)
       then fst (burst_new cos sin s (burst_draw g)) else nil))
  (only parsing).

Lemma spiral_new_lives s g :
  Forall (fun p => 60 <= life p <= 90 /\ max_life p = life p) (spiral_new cos sin s g).
Proof.
  unfold spiral_new. apply spawn_Forall. intros i g0.
  apply spiral_particle_life_range.
Qed.

Lemma spiral_new_length s g : List.length (spiral_new cos sin s g) = 12%nat.
Proof. unfold spiral_new. rewrite spawn_length. reflexivity. Qed.

Lemma burst_new_lives s g :
  Forall (fun p => 35 <= life p <= 50 /\ max_life p = 50) (fst (burst_new cos sin s g)).
Proof.
  rewrite burst_new_closed. apply Forall_map, Forall_forall. intros j _.
  apply burst_particle_life_range.
Qed.

(** What the burst of a tick adds: nothing, or the fifteen particles. *)
Lemma burst_part_lives s g :
  Forall (fun p => 35 <= life p <= 50 /\ max_life p = 50)
         (if burst_fires (burst_draw g)
          then fst (burst_new cos sin s (burst_draw g)) else nil).
Proof. destruct (burst_fires (burst_draw g)); [apply burst_new_lives | constructor]. Qed.

Lemma burst_part_length s g :
  (List.length (if burst_fires (burst_draw g)
                then fst (burst_new cos sin s (burst_draw g)) else nil) <= 15)%nat.
Proof.
  destruct (burst_fires (burst_draw g)); [rewrite burst_new_length | cbn]; lia.
Qed.

Lemma integrate_all_Forall (Q R : Particle -> Prop) :
  (forall p q, Q p -> integrate p = Some q -> R q) ->
  forall ps qs, Forall Q ps -> integrate_all ps = Some qs -> Forall R qs.
Proof.
  intros HQR ps qs HQ Hqs. apply integrate_all_inv in Hqs.
  induction Hqs as [|p q ps qs Hpq _ IH]; [constructor|].
  constructor.
  - apply (HQR p q); [exact (Forall_inv HQ) | exact Hpq].
  - apply IH. exact (Forall_inv_tail HQ).
Qed.

Lemma Forall_filter_alive (R : Particle -> Prop) s qs :
  Forall R qs ->
  Forall (fun q => R q /\ 0 < life q) (List.filter (alive s) qs).
Proof.
  intros H. apply List.Forall_forall. intros q Hq. apply filter_In in Hq.
  destruct Hq as [Hin Ha]. split.
  - rewrite List.Forall_forall in H. exact (H q Hin).
  - apply alive_spec in Ha. tauto.
Qed.

(** Every particle a tick finds or emits has a [max_life] that is not
    zero, so the tick returns, and the lives it leaves are positive and
    below [max_life]. *)
Lemma update_in_its_life s g :
  Forall in_its_life (particles s) ->
  exists s', fst (update cos sin s g) = Some s' /\ Forall in_its_life (particles s').
Proof.
  intros Hs.
  assert (Forall (fun p => life p <= max_life p /\
                           (max_life p = 50 \/ 60 <= max_life p <= 90))
                 (particles s ++ emitted_by s g)) as Hall.
  { apply Forall_app. split; [|apply Forall_app; split].
    - eapply Forall_impl; [exact Hs|]. unfold in_its_life. intros p Hp. lia.
    - eapply Forall_impl; [apply spiral_new_lives|]. intros p Hp. cbn beta in Hp. lia.
    - eapply Forall_impl; [apply burst_part_lives|]. intros p Hp. cbn beta in Hp. lia. }
  destruct (integrate_all_Some (particles s ++ emitted_by s g)) as [qs Hqs].
  { eapply Forall_impl; [exact Hall|]. intros p Hp. cbn beta in Hp. lia. }
  exists (set_particles (set_frame s (frame s + 1)) (List.filter (alive s) qs)).
  split; [apply update_returns; exact Hqs|].
  cbn [particles set_particles].
  assert (Forall (fun q => life q < max_life q /\
                           (max_life q = 50 \/ 60 <= max_life q <= 90)) qs) as Hq.
  { refine (integrate_all_Forall _ _ _ _ _ Hall Hqs).
    intros p q Hp Hpq. apply integrate_inv in Hpq.
    destruct Hpq as ((_ & _ & _ & _ & Hl) & Hm & _). rewrite Hl, Hm. lia. }
  eapply Forall_impl; [exact (Forall_filter_alive _ s qs Hq)|].
  intros q [Hq' Hpos]. cbn beta in Hq'. unfold in_its_life. lia.
Qed.

End Lives.

Section Crowd.

Variables cos sin : float -> float.

Local Abbreviation emitted_by s g :=
  (spiral_new cos sin (set_frame s (frame s + 1)) g
   ++ (if burst_fires (burst_draw g)
       then fst (burst_new cos sin s (burst_draw g)) else nil))
  (only parsing).

Lemma filter_filter_length {A} (f k : A -> bool) (l : list A) :
  (List.length (List.filter k (List.filter f l)) <= List.length (List.filter k l))%nat.
Proof.
  induction l as [|a l IH]; cbn [List.filter]; [lia|].
  destruct (f a), (k a) eqn:Hk; cbn [List.filter List.length]; rewrite ?Hk;
    cbn [List.length]; lia.
Qed.

Lemma count_from_app K j l1 l2 :
  count_from K j (l1 ++ l2) = (count_from K j l1 + count_from K j l2)%nat.
Proof. unfold count_from. rewrite List.filter_app, length_app. reflexivity. Qed.

Lemma count_from_filter K j f l :
  (count_from K j (List.filter f l) <= count_from K j l)%nat.
Proof. apply filter_filter_length. Qed.

Lemma count_from_length K j l : (count_from K j l <= List.length l)%nat.
Proof. apply List.filter_length_le. Qed.

Lemma count_from_none K j l :
  Forall (fun p => K p = true -> life p < j) l -> count_from K j l = 0%nat.
Proof.
  unfold count_from. induction 1 as [|p l Hp _ IH]; cbn [List.filter]; [reflexivity|].
  destruct (K p) eqn:HK; cbn [andb]; [|exact IH].
  destruct (Z.leb_spec j (life p)) as [Hle|_]; [|exact IH].
  specialize (Hp eq_refl). lia.
Qed.

(** Integration moves the particles with at least [j + 1] ticks left to
    those with at least [j]. *)
Lemma count_from_integrated K j ps qs :
  (forall p q, integrate p = Some q -> K q = K p) ->
  integrate_all ps = Some qs ->
  count_from K j qs = count_from K (j + 1) ps.
Proof.
  intros HK Hqs. apply integrate_all_inv in Hqs. unfold count_from.
  induction Hqs as [|p q ps qs Hpq _ IH]; [reflexivity|].
  cbn [List.filter]. rewrite (HK p q Hpq).
  apply integrate_inv in Hpq. destruct Hpq as ((_ & _ & _ & _ & Hl) & _).
  replace (j <=? life q) with (j + 1 <=? life p)
    by (rewrite Hl; destruct (Z.leb_spec (j + 1) (life p)), (Z.leb_spec j (life p - 1)); lia).
  destruct (K p && (j + 1 <=? life p)); cbn [List.length]; rewrite IH; reflexivity.
Qed.

(** A tick keeps a crowd: the particles of a kind it emits are at most [c],
    with a life of at most [L]. *)
Lemma crowd_step K c L ps new qs f :
  (forall p q, integrate p = Some q -> K q = K p) ->
  crowd K c L ps ->
  (forall j, count_from K j new <= c)%nat ->
  Forall (fun p => K p = true -> life p <= L) new ->
  integrate_all (ps ++ new) = Some qs ->
  crowd K c L (List.filter f qs).
Proof.
  intros HK Hps Hc HL Hqs j.
  pose proof (count_from_filter K j f qs) as H1.
  rewrite (count_from_integrated K j _ _ HK Hqs), count_from_app in H1.
  pose proof (Hps (j + 1)) as H2.
  destruct (Z_le_dec (j + 1) L) as [Hle|Hgt].
  - specialize (Hc (j + 1)).
    replace (Z.to_nat (L - j)) with (S (Z.to_nat (L - (j + 1)))) by lia. lia.
  - rewrite (count_from_none K (j + 1) new) in H1.
    + replace (Z.to_nat (L - (j + 1))) with 0%nat in H2 by lia. lia.
    + eapply Forall_impl; [exact HL|]. intros p Hp HKp. cbn beta in Hp.
      specialize (Hp HKp). lia.
Qed.

Lemma integrate_spiral_born p q : integrate p = Some q -> spiral_born q = spiral_born p.
Proof.
  intros H. apply integrate_inv in H. destruct H as (_ & Hm & _).
  unfold spiral_born. rewrite Hm. reflexivity.
Qed.

Lemma integrate_burst_born p q : integrate p = Some q -> burst_born q = burst_born p.
Proof.
  intros H. apply integrate_inv in H. destruct H as (_ & Hm & _).
  unfold burst_born. rewrite Hm. reflexivity.
Qed.

(** Of the particles a tick emits, at most 12 are of the spiral and at most
    15 of a burst. *)
Lemma emitted_spiral_born s g j :
  (count_from spiral_born j (emitted_by s g) <= 12)%nat.
Proof.
  rewrite count_from_app.
  pose proof (count_from_length spiral_born j
                (spiral_new cos sin (set_frame s (frame s + 1)) g)) as H1.
  rewrite spiral_new_length in H1.
  rewrite (count_from_none spiral_born j
             (if burst_fires (burst_draw g)
              then fst (burst_new cos sin s (burst_draw g)) else nil)); [lia|].
  eapply Forall_impl; [apply burst_part_lives|].
  intros p [_ Hm] HK. unfold spiral_born in HK. apply Z.leb_le in HK. lia.
Qed.

Lemma emitted_burst_born s g j :
  (count_from burst_born j (emitted_by s g) <= 15)%nat.
Proof.
  rewrite count_from_app.
  pose proof (count_from_length burst_born j
                (if burst_fires (burst_draw g)
                 then fst (burst_new cos sin s (burst_draw g)) else nil)) as H1.
  pose proof (burst_part_length cos sin s g) as H2.
  rewrite (count_from_none burst_born j
             (spiral_new cos sin (set_frame s (frame s + 1)) g)); [lia|].
  eapply Forall_impl; [apply spiral_new_lives|].
  intros p [Hl Hm] HK. unfold burst_born in HK. apply Z.eqb_eq in HK. lia.
Qed.

Lemma emitted_lives s g :
  Forall (fun p => (spiral_born p = true -> life p <= 90) /\
                   (burst_born p = true -> life p <= 50))
         (emitted_by s g).
Proof.
  apply Forall_app. split.
  - eapply Forall_impl; [apply spiral_new_lives|].
    intros p [Hl Hm]. unfold spiral_born, burst_born. split; intros HK; [lia|].
    apply Z.eqb_eq in HK. lia.
  - eapply Forall_impl; [apply burst_part_lives|].
    intros p [Hl Hm]. unfold spiral_born, burst_born. split; intros HK; [|lia].
    apply Z.leb_le in HK. lia.
Qed.

Lemma update_in_bounds s g :
  in_bounds s ->
  exists s', fst (update cos sin s g) = Some s' /\ in_bounds s'.
Proof.
  intros (Hl & Hsp & Hbu).
  destruct (update_in_its_life cos sin s g Hl) as (s' & Hs' & Hl').
  exists s'. split; [exact Hs'|]. split; [exact Hl'|].
  destruct (update_step cos sin s g s' Hs') as (qs & Hqs & ->).
  cbn [particles set_particles]. split.
  - apply (crowd_step spiral_born 12 90 (particles s) (emitted_by s g) qs);
      [exact integrate_spiral_born | exact Hsp | apply emitted_spiral_born | | exact Hqs].
    eapply Forall_impl; [apply emitted_lives|]. intros p Hp. exact (proj1 Hp).
  - apply (crowd_step burst_born 15 50 (particles s) (emitted_by s g) qs);
      [exact integrate_burst_born | exact Hbu | apply emitted_burst_born | | exact Hqs].
    eapply Forall_impl; [apply emitted_lives|]. intros p Hp. exact (proj2 Hp).
Qed.

Lemma updates_in_bounds n : forall s g,
  in_bounds s ->
  exists s', fst (updates cos sin n s g) = Some s' /\ in_bounds s'.
Proof.
  induction n as [|n IH]; intros s g Hs.
  - exists s. split; [reflexivity | exact Hs].
  - rewrite updates_S.
    destruct (update_in_bounds s g Hs) as (s1 & Hs1 & Hb1). rewrite Hs1.
    apply IH. exact Hb1.
Qed.

Lemma init_in_bounds w h terminal : in_bounds (init w h terminal).
Proof.
  assert (particles (init w h terminal) = nil) as E
    by (destruct terminal as [[tw th]|]; reflexivity).
  unfold in_bounds. rewrite E. split; [constructor|].
  split; intros j; cbn; lia.
Qed.

(** A collection in which every particle has life left is counted by its
    two kinds. *)
Lemma length_by_kind ps :
  Forall in_its_life ps ->
  List.length ps = (count_from spiral_born 1 ps + count_from burst_born 1 ps)%nat.
Proof.
  unfold count_from. induction 1 as [|p ps Hp _ IH]; [reflexivity|].
  cbn [List.filter List.length]. unfold in_its_life in Hp.
  unfold spiral_born at 1, burst_born at 1.
  destruct (Z.leb_spec 60 (max_life p)), (Z.eqb_spec (max_life p) 50),
           (Z.leb_spec 1 (life p)); cbn [andb List.length]; try lia.
Qed.

Lemma in_bounds_length s : in_bounds s -> (List.length (particles s) <= 1803)%nat.
Proof.
  intros (Hl & Hsp & Hbu). rewrite (length_by_kind _ Hl).
  specialize (Hsp 1). specialize (Hbu 1).
  change (Z.to_nat (90 - 1)) with 89%nat in Hsp.
  change (Z.to_nat (50 - 1)) with 49%nat in Hbu. lia.
Qed.

(** A tick moves the frame counter by one and leaves the canvas, the
    centre and the running flag alone. *)
Lemma update_fields s g s' :
  fst (update cos sin s g) = Some s' ->
  frame s' = frame s + 1 /\ width s' = width s /\ height s' = height s /\
  center_x s' = center_x s /\ center_y s' = center_y s /\ running s' = running s.
Proof.
  intros H. destruct (update_step cos sin s g s' H) as (qs & _ & ->).
  repeat split.
Qed.

Lemma updates_fields n : forall s g s',
  fst (updates cos sin n s g) = Some s' ->
  frame s' = frame s + Z.of_nat n /\ width s' = width s /\ height s' = height s /\
  center_x s' = center_x s /\ center_y s' = center_y s /\ running s' = running s.
Proof.
  induction n as [|n IH]; intros s g s' H.
  - cbn in H. apply (inj Some) in H. subst s'. repeat split. lia.
  - rewrite updates_S in H.
    destruct (fst (update cos sin s g)) as [s1|] eqn:H1; [|discriminate].
    destruct (update_fields s g s1 H1) as (F1 & W1 & H1' & X1 & Y1 & R1).
    destruct (IH _ _ _ H) as (F & W & Hh & X & Y & R).
    repeat split; try congruence. lia.
Qed.

End Crowd.


(** X2. The size of the collection, lines 64-157: a spiral particle lives at
    most 90 ticks and a burst particle at most 50, and a tick emits 12 of
    the first and at most 15 of the second, so the collection a tick leaves
    never holds more than [12 * 89 + 15 * 49 = 1803] particles, after any
    number of ticks from a new simulator. *)
Theorem population_is_bounded cos sin n w h terminal g s' :
  fst (updates cos sin n (init w h terminal) g) = Some s' ->
  (List.length (particles s') <= 1803)%nat.
Proof.
  intros H.
  destruct (updates_in_bounds cos sin n (init w h terminal) g (init_in_bounds w h terminal))
    as (s1 & Hs1 & Hb). rewrite Hs1 in H. apply (inj Some) in H. subst s1.
  apply in_bounds_length. exact Hb.
Qed.

Lemma population_is_bounded_witness :
  (List.length (particles sim2) <= 1803)%nat.
Proof.
  apply (population_is_bounded Libm.cos Libm.sin 2 80 24 None sample_rng sim2).
  vm_compute. reflexivity.
Defined.

(** X3. What ticks change, lines 123-157: [update] adds one to the frame
    counter and replaces the collection; the width, the height, the centre
    and the running flag are what they were, after any number of ticks. *)
Theorem updates_touch_frame_and_particles_only cos sin n s g s' :
  fst (updates cos sin n s g) = Some s' ->
  frame s' = frame s + Z.of_nat n /\ width s' = width s /\ height s' = height s /\
  center_x s' = center_x s /\ center_y s' = center_y s /\ running s' = running s.
Proof. apply updates_fields. Qed.

Lemma updates_touch_frame_and_particles_only_witness :
  frame sim2 = frame sim0 + Z.of_nat 2 /\ width sim2 = width sim0 /\
  height sim2 = height sim0 /\ center_x sim2 = center_x sim0 /\
  center_y sim2 = center_y sim0 /\ running sim2 = running sim0.
Proof.
  apply (updates_touch_frame_and_particles_only Libm.cos Libm.sin 2 sim0 sample_rng sim2).
  vm_compute. reflexivity.
Defined.

(** X4. The calls a tick makes to the generator, lines 64-121: four for each
    of the twelve spiral particles, then the draw of the burst, which is
    the 49th; then, when the burst fires, two for its point and four for
    each of its fifteen particles. A tick makes 49 calls, or 111 with a
    burst, and leaves the outcomes of the generator alone. *)
Theorem update_draws_49_or_111 cos sin s g :
  outcome (snd (update cos sin s g)) = outcome g /\
  calls (snd (update cos sin s g))
  = ((if burst_fires (Rng (outcome g) (48 + calls g)) then 111 else 49) + calls g)%nat.
Proof.
  rewrite update_calls. unfold burst_draw. split; reflexivity.
Qed.

(* ================================================================== *)
(** ** The shape of the emissions *)

Section EmitterShape.

Variables cos sin : float -> float.

Lemma Forall2_map_seq {A} (R : A -> A -> Prop) (f k : nat -> A) (l : list nat) :
  (forall j, R (f j) (k j)) -> Forall2 R (map f l) (map k l).
Proof. intros H. induction l as [|j l IH]; cbn [map]; constructor; auto. Qed.

Lemma nth_error_map_seq {A} (f : nat -> A) (n j : nat) (a : A) :
  nth_error (map f (seq 0 n)) j = Some a -> (j < n)%nat /\ a = f j.
Proof.
  intros H. rewrite nth_error_map in H.
  destruct (nth_error (seq 0 n) j) as [j'|] eqn:Hj; [|discriminate].
  cbn [option_map] in H. apply (inj Some) in H. subst a.
  assert (j < n)%nat as Hlt.
  { pose proof (nth_error_Some (seq 0 n) j) as HS. rewrite length_seq in HS.
    apply HS. rewrite Hj. discriminate. }
  split; [exact Hlt|].
  rewrite nth_error_nth' with (d := 0%nat) in Hj by (rewrite length_seq; exact Hlt).
  rewrite seq_nth in Hj by exact Hlt. apply (inj Some) in Hj. subst j'. reflexivity.
Qed.

(** The fields of a spiral particle the generator has no part in. *)
Lemma spiral_particle_fixed s i g :
  let p := fst (spiral_particle cos sin s i g) in
  x p = (Py.float_of_int (center_x s)
         + cos (spiral_angle (frame s) i)
           * (Py.float_of_int 1 + sin (spiral_phase (frame s)) * 0.5)
           * Py.float_of_int 3)%float /\
  y p = (Py.float_of_int (center_y s)
         + sin (spiral_angle (frame s) i)
           * (Py.float_of_int 1 + sin (spiral_phase (frame s)) * 0.5)
           * 1.5)%float /\
  color p = nth (Z.to_nat (frame s mod 7)) COLORS ""%string /\
  char p = nth (i mod 5)%nat spiral_chars ""%string.
Proof. repeat split; reflexivity. Qed.

Lemma colour_of_frame_In fr : In (nth (Z.to_nat (fr mod 7)) COLORS ""%string) COLORS.
Proof.
  apply nth_In. pose proof (Z.mod_pos_bound fr 7 ltac:(lia)).
  change (List.length COLORS) with 7%nat. lia.
Qed.

End EmitterShape.

(** X5. Spiral emission, lines 70-88: the position, the colour tag and the
    glyph of the twelve particles are functions of the frame counter, the
    centre and the index in the loop; the generator has no part in them (it
    draws the velocity and the life only). The colour is [COLORS[frame % 7]],
    one of the seven and the same for the twelve; the glyph of the particle
    of index [j] is the [j % 5]-th of the five symbols. *)
Theorem spiral_shape_ignores_the_generator cos sin s g g' :
  Forall2 (fun p q => x p = x q /\ y p = y q /\ color p = color q /\ char p = char q)
          (spiral_new cos sin s g) (spiral_new cos sin s g') /\
  (forall j p,
     nth_error (spiral_new cos sin s g) j = Some p ->
     color p = nth (Z.to_nat (frame s mod 7)) COLORS ""%string /\
     In (color p) COLORS /\
     char p = nth (j mod 5)%nat spiral_chars ""%string /\
     In (char p) spiral_chars).
Proof.
  rewrite !spiral_new_closed. split.
  - apply Forall2_map_seq. intros j.
    destruct (spiral_particle_fixed cos sin s j (Rng (outcome g) (4 * j + calls g)))
      as (-> & -> & -> & ->).
    destruct (spiral_particle_fixed cos sin s j (Rng (outcome g') (4 * j + calls g')))
      as (-> & -> & -> & ->).
    repeat split.
  - intros j p Hj. apply nth_error_map_seq in Hj. destruct Hj as [Hlt ->].
    destruct (spiral_particle_fixed cos sin s j (Rng (outcome g) (4 * j + calls g)))
      as (_ & _ & -> & ->).
    split; [reflexivity|]. split; [apply colour_of_frame_In|].
    split; [reflexivity|].
    apply nth_In. change (List.length spiral_chars) with 5%nat.
    apply Nat.mod_upper_bound. lia.
Qed.

(** X6. Burst emission, lines 102-121: when a burst fires, its fifteen
    particles are all spawned at one point with integer coordinates, chosen
    once for the burst within 8 columns and 4 rows of the centre. *)
Theorem burst_spawns_at_one_point cos sin s g :
  burst_fires g = true ->
  exists bx by_ new,
    fst (emit_burst cos sin s g) = set_particles s (particles s ++ new) /\
    List.length new = 15%nat /\
    center_x s - 8 <= bx <= center_x s + 8 /\
    center_y s - 4 <= by_ <= center_y s + 4 /\
    Forall (fun p => x p = Py.float_of_int bx /\ y p = Py.float_of_int by_) new.
Proof.
  intros Hf. exists (center_x s + burst_dx g), (center_y s + burst_dy g).
  eexists. split; [apply emit_burst_new|]. rewrite Hf.
  split; [apply burst_new_length|].
  pose proof (randint_range (-8) 8 (Rng (outcome g) (1 + calls g)) ltac:(lia)) as Hx.
  pose proof (randint_range (-4) 4 (Rng (outcome g) (2 + calls g)) ltac:(lia)) as Hy.
  fold (burst_dx g) in Hx. fold (burst_dy g) in Hy.
  split; [lia|]. split; [lia|].
  rewrite burst_new_closed. apply Forall_map, Forall_forall. intros j _.
  split; reflexivity.
Qed.

Lemma burst_spawns_at_one_point_witness :
  exists bx by_ new,
    fst (emit_burst Libm.cos Libm.sin sim0 (constant_rng 9))
    = set_particles sim0 (particles sim0 ++ new) /\
    List.length new = 15%nat /\
    center_x sim0 - 8 <= bx <= center_x sim0 + 8 /\
    center_y sim0 - 4 <= by_ <= center_y sim0 + 4 /\
    Forall (fun p => x p = Py.float_of_int bx /\ y p = Py.float_of_int by_) new.
Proof.
  apply (burst_spawns_at_one_point Libm.cos Libm.sin sim0 (constant_rng 9)).
  vm_compute. reflexivity.
Defined.

(** X7. The draw of a burst, line 101: [random.random() < 0.04] holds exactly
    when the 53 bits of the draw are below 360287970189640, that is for
    360287970189640 of the [2^53] values [random.random()] can take. *)
Theorem burst_fires_below_the_threshold g :
  burst_fires g = true
  <-> Z.of_N (outcome g (calls g)) mod 2 ^ 53 < 360287970189640.
Proof.
  fold (random_bits g). unfold burst_fires.
  destruct (random_val g) as [Hf Hv]. destruct burst_threshold_val as [Hf4 Hv4].
  rewrite (ltb_val _ _ Hf Hf4), Hv, Hv4.
  rewrite <- (F2R_shift (random_bits g) (-53) 4) by lia.
  replace (-53 - 4) with (-57) by lia. rewrite F2R_lt.
  change (2 ^ 4) with 16. lia.
Qed.

(* ================================================================== *)
(** ** The fade in integers *)

Section FadeThresholds.

Lemma same_bucket_eq a b : same_bucket a b = true -> a = b.
Proof. destruct a, b; cbn; congruence. Qed.

(** The binary64 quotient falls in the bucket of the exact ratio, for every
    life and [max_life] up to 128. *)
Lemma bucket_at_by_integers m l :
  0 <= m <= 128 -> 0 <= l <= 128 -> bucket_at m l = bucket_by_integers m l.
Proof.
  intros Hm Hl. apply same_bucket_eq.
  assert (forallb (fun l => same_bucket (bucket_at m l) (bucket_by_integers m l))
                  (map Z.of_nat (seq 0 129)) = true) as H.
  { apply (forallb_range
             (fun m => forallb (fun l => same_bucket (bucket_at m l)
                                                     (bucket_by_integers m l))
                               (map Z.of_nat (seq 0 129)))
             129); [vm_compute; reflexivity | lia]. }
  rewrite forallb_forall in H. apply H. apply in_map_iff.
  exists (Z.to_nat l). split; [lia | apply in_seq; lia].
Qed.

Lemma integrate_by_integers p q :
  integrate p = Some q -> 0 < max_life p <= 128 -> 0 <= life q <= 128 ->
  char q = glyph_table (bucket_by_integers (max_life q) (life q)) (char p).
Proof.
  intros H Hm Hl. rewrite (integrate_bucket p q H).
  apply integrate_inv in H. destruct H as (_ & Hmq & _).
  rewrite bucket_at_by_integers by lia. reflexivity.
Qed.

End FadeThresholds.

(** X8. The fade of the glyph, lines 147-153, in integers: for every life and
    [max_life] up to 128 (all the emitters create), the binary64 quotient
    [life / max_life] falls on the same side of 0.25, 0.5 and 0.75 as the
    exact ratio, so the glyph a tick writes is decided by [4 * life <
    max_life], [2 * life < max_life] and [4 * life < 3 * max_life], on the
    life the tick leaves. *)
Theorem fade_by_integer_thresholds p q :
  integrate p = Some q -> 0 < max_life p <= 128 -> 0 <= life q <= 128 ->
  char q = if 4 * life q <? max_life q then "."%string
           else if 2 * life q <? max_life q then "+"%string
           else if 4 * life q <? 3 * max_life q then "o"%string
           else char p.
Proof.
  intros H Hm Hl. rewrite (integrate_by_integers p q H Hm Hl).
  unfold bucket_by_integers.
  destruct (4 * life q <? max_life q); [reflexivity|].
  destruct (2 * life q <? max_life q); [reflexivity|].
  destruct (4 * life q <? 3 * max_life q); reflexivity.
Qed.

Lemma fade_by_integer_thresholds_witness :
  char (default half_way (integrate half_way))
  = if 4 * life (default half_way (integrate half_way))
          <? max_life (default half_way (integrate half_way)) then "."%string
    else if 2 * life (default half_way (integrate half_way))
              <? max_life (default half_way (integrate half_way)) then "+"%string
    else if 4 * life (default half_way (integrate half_way))
              <? 3 * max_life (default half_way (integrate half_way)) then "o"%string
    else char half_way.
Proof.
  apply (fade_by_integer_thresholds half_way (default half_way (integrate half_way))).
  - vm_compute. reflexivity.
  - vm_compute. split; [reflexivity | discriminate].
  - vm_compute. split; discriminate.
Defined.

(** X9. A burst particle is spawned with 35 to 50 ticks out of 50, and a frame
    is rendered only after the first integration: with a spawn life of at
    most 38 the ratio is already below 0.75 and the glyph drawn for the
    burst is replaced by [o] before it is ever shown; with a spawn life of
    39 or more the first frame shows the glyph drawn. *)
Theorem burst_glyph_shown_from_life_39 cos sin s g :
  burst_fires g = true ->
  exists new,
    fst (emit_burst cos sin s g) = set_particles s (particles s ++ new) /\
    Forall (fun p =>
      exists q, integrate p = Some q /\
                char q = if life p <=? 38 then "o"%string else char p) new.
Proof.
  intros Hf. eexists. split; [apply emit_burst_new|]. rewrite Hf.
  eapply Forall_impl; [apply burst_new_lives|].
  intros p [Hl Hm]. destruct (integrate_Some p ltac:(lia)) as [q Hq].
  exists q. split; [exact Hq|].
  pose proof (integrate_inv p q Hq) as ((_ & _ & _ & _ & Hlq) & Hmq & _).
  rewrite (integrate_by_integers p q Hq) by lia.
  unfold bucket_by_integers. rewrite Hlq, Hmq, Hm.
  destruct (Z.ltb_spec (4 * (life p - 1)) 50); [lia|].
  destruct (Z.ltb_spec (2 * (life p - 1)) 50); [lia|].
  destruct (Z.ltb_spec (4 * (life p - 1)) (3 * 50)), (Z.leb_spec (life p) 38);
    try lia; reflexivity.
Qed.

Lemma burst_glyph_shown_from_life_39_witness :
  exists new,
    fst (emit_burst Libm.cos Libm.sin sim0 (constant_rng 9))
    = set_particles sim0 (particles sim0 ++ new) /\
    Forall (fun p =>
      exists q, integrate p = Some q /\
                char q = if life p <=? 38 then "o"%string else char p) new.
Proof.
  apply (burst_glyph_shown_from_life_39 Libm.cos Libm.sin sim0 (constant_rng 9)).
  vm_compute. reflexivity.
Defined.

(* ================================================================== *)
(** ** Velocities *)

(** X10. The velocity through one integration, lines 137-141: the friction never
    makes the horizontal speed larger, whatever the rounding, and the
    gravity and the friction together keep a vertical speed of at most 2
    cells per tick within that bound. *)
Theorem friction_never_speeds_up p q a :
  integrate p = Some q ->
  a < 2 ^ 52 -> inside (- a) a (vx p) ->
  fin (vx q) /\ (Rabs (val (vx q)) <= Rabs (val (vx p)))%R /\
  (inside (-512) 512 (vy p) -> inside (-512) 512 (vy q)).
Proof.
  intros H Ha Hvx. apply integrate_inv in H.
  destruct H as ((_ & _ & Evx & Evy & _) & _). rewrite Evx, Evy.
  destruct (mul_shrinks a (vx p) 0.99 Ha Hvx ltac:(known_inside)) as [Hf Hle].
  split; [exact Hf|]. split; [exact Hle|].
  intros Hvy.
  assert (inside (-512 + 3) (512 + 4) (vy p + 0.015)) as Hs.
  { apply inside_add; [exact Hvy | known_inside | lia | lia]. }
  apply (inside_mul 516 254 512); [|known_inside|lia|lia].
  apply (inside_weaken _ _ _ _ _ Hs); lia.
Qed.

Lemma friction_never_speeds_up_witness :
  fin (vx (default fresh (integrate fresh))) /\
  (Rabs (val (vx (default fresh (integrate fresh)))) <= Rabs (val (vx fresh)))%R /\
  (inside (-512) 512 (vy fresh) ->
   inside (-512) 512 (vy (default fresh (integrate fresh)))).
Proof.
  apply (friction_never_speeds_up fresh (default fresh (integrate fresh)) 256).
  - vm_compute. reflexivity.
  - lia.
  - known_inside.
Defined.

(* ================================================================== *)
(** ** The spiral at every tick *)

Section EveryTick.

Variables cos sin : float -> float.

Local Open Scope float_scope.

(** A spiral particle emitted around the centre (40, 12) is integrated and
    passes the filter of a canvas of 80 x 24, at any frame. *)
Lemma spiral_particle_survives_on s1 s2 fr i g :
  center_x s1 = 40%Z -> center_y s1 = 12%Z -> frame s1 = fr ->
  width s2 = 80%Z -> height s2 = 24%Z ->
  unit_range (cos (spiral_angle fr i)) ->
  unit_range (sin (spiral_angle fr i)) ->
  unit_range (sin (spiral_phase fr)) ->
  exists q,
    integrate (fst (spiral_particle cos sin s1 i g)) = Some q /\
    alive s2 q = true.
Proof.
  intros Hcx Hcy Hfr Hw Hh Hc Hs Hs0. rewrite <- Hfr in Hc, Hs, Hs0.
  set (p := fst (spiral_particle cos sin s1 i g)).
  destruct (spiral_particle_life_range cos sin s1 i g) as [Hl Hm].
  fold p in Hl, Hm.
  destruct (integrate_Some p ltac:(lia)) as [q Hq]. exists q.
  split; [exact Hq|].
  apply integrate_inv in Hq. destruct Hq as ((Hx & Hy & _ & _ & Hlq) & _).
  destruct (spiral_particle_fields cos sin s1 i g) as (Ex & Ey & Evx & Evy).
  fold p in Ex, Ey, Evx, Evy. rewrite Hcx in Ex. rewrite Hcy in Ey.
  assert (inside 8805 11675 (x q)) as Bx.
  { rewrite Hx, Ex, Evx.
    apply spiral_x_inside; try assumption; apply random_inside. }
  assert (inside 2354 3790 (y q)) as By.
  { rewrite Hy, Ey, Evy.
    apply spiral_y_inside; try assumption; apply random_inside. }
  apply alive_spec. split; [lia|]. unfold on_canvas. rewrite Hw, Hh.
  split.
  - apply (inside_in_range _ _ _ _ Bx); lia.
  - apply (inside_in_range _ _ _ _ By); lia.
Qed.

Lemma integrate_all_app l1 l2 qs :
  integrate_all (l1 ++ l2) = Some qs ->
  exists q1 q2,
    qs = q1 ++ q2 /\ integrate_all l1 = Some q1 /\ integrate_all l2 = Some q2.
Proof.
  revert qs. induction l1 as [|p l1 IH]; intros qs H.
  - exists nil, qs. repeat split. exact H.
  - cbn [app integrate_all] in H |- *.
    destruct (integrate p) as [q|]; cbn [mbind option_bind] in H |- *; [|discriminate].
    destruct (integrate_all (l1 ++ l2)) as [qs'|] eqn:E;
      cbn [mbind option_bind] in H; [|discriminate].
    apply (inj Some) in H. subst qs.
    destruct (IH qs' eq_refl) as (q1 & q2 & -> & -> & ->).
    exists (q :: q1), q2. repeat split.
Qed.

(** The twelve particles a tick emits at the centre (40, 12) pass the
    filter of a canvas of 80 x 24. *)
Lemma spiral_new_survives s g :
  width s = 80%Z -> height s = 24%Z -> center_x s = 40%Z -> center_y s = 12%Z ->
  Forall (fun i => unit_range (cos (spiral_angle (frame s + 1) i)) /\
                   unit_range (sin (spiral_angle (frame s + 1) i))) (seq 0 12) ->
  unit_range (sin (spiral_phase (frame s + 1))) ->
  Forall (fun p => exists q, integrate p = Some q /\ alive s q = true)
         (spiral_new cos sin (set_frame s (frame s + 1)) g).
Proof.
  intros Hw Hh Hcx Hcy Hlibm Hphase.
  rewrite spiral_new_closed. apply Forall_map.
  rewrite List.Forall_forall in Hlibm |- *. intros i Hi.
  destruct (Hlibm i Hi) as [Hc Hs].
  exact (spiral_particle_survives_on (set_frame s (frame s + 1)) s (frame s + 1)%Z i _
           Hcx Hcy eq_refl Hw Hh Hc Hs Hphase).
Qed.

Lemma update_keeps_the_spiral s g s' :
  Forall (fun p => exists q, integrate p = Some q /\ alive s q = true)
         (spiral_new cos sin (set_frame s (frame s + 1)) g) ->
  fst (update cos sin s g) = Some s' ->
  exists before spiral after,
    particles s' = before ++ spiral ++ after /\
    Forall2 (fun p q => integrate p = Some q)
            (spiral_new cos sin (set_frame s (frame s + 1)) g) spiral.
Proof.
  intros Halive H.
  destruct (update_step cos sin s g s' H) as (qs & Hqs & Hs').
  destruct (integrate_all_app _ _ _ Hqs) as (q1 & q23 & Eqs & _ & H23).
  destruct (integrate_all_app _ _ _ H23) as (q2 & q3 & E23 & H2 & _).
  destruct (integrate_all_alive s _ Halive) as (q2' & H2' & Hf & HF2).
  rewrite H2' in H2. apply (inj Some) in H2. subst q2'.
  exists (List.filter (alive s) q1), q2, (List.filter (alive s) q3).
  split; [|exact HF2].
  rewrite Hs', Eqs, E23. cbn [particles set_particles].
  rewrite !List.filter_app, Hf. reflexivity.
Qed.

End EveryTick.

(** X11. Every tick on the canvas of 80 x 24 centred at (40, 12), lines 123-157,
    with a C library whose sine and cosine are within [[-1, 1]] at the
    angles of the tick: the twelve spiral particles the tick emits are all
    in the collection the tick leaves, each integrated once, after the
    survivors of the earlier ticks and before those of a burst. The
    collection therefore holds at least 12 particles after every tick. *)
Theorem spiral_survives_every_tick cos sin s g s' :
  width s = 80 -> height s = 24 -> center_x s = 40 -> center_y s = 12 ->
  Forall (fun i => unit_range (cos (spiral_angle (frame s + 1) i)) /\
                   unit_range (sin (spiral_angle (frame s + 1) i))) (seq 0 12) ->
  unit_range (sin (spiral_phase (frame s + 1))) ->
  fst (update cos sin s g) = Some s' ->
  exists before spiral after,
    particles s' = before ++ spiral ++ after /\
    Forall2 (fun p q => integrate p = Some q)
            (spiral_new cos sin (set_frame s (frame s + 1)) g) spiral /\
    (12 <= List.length (particles s'))%nat.
Proof.
  intros Hw Hh Hcx Hcy Hlibm Hphase H.
  destruct (update_keeps_the_spiral cos sin s g s'
              (spiral_new_survives cos sin s g Hw Hh Hcx Hcy Hlibm Hphase) H)
    as (before & spiral & after & Hps & HF2).
  exists before, spiral, after. split; [exact Hps|]. split; [exact HF2|].
  rewrite Hps, !length_app, <- (Forall2_length _ _ _ HF2), spiral_new_length. lia.
Qed.

Lemma spiral_survives_every_tick_witness :
  exists before spiral after,
    particles sim1 = before ++ spiral ++ after /\
    Forall2 (fun p q => integrate p = Some q)
            (spiral_new Libm.cos Libm.sin (set_frame sim0 (frame sim0 + 1)) sample_rng)
            spiral /\
    (12 <= List.length (particles sim1))%nat.
Proof.
  apply (spiral_survives_every_tick Libm.cos Libm.sin sim0 sample_rng sim1).
  - reflexivity.
  - reflexivity.
  - reflexivity.
  - reflexivity.
  - repeat (constructor; [split; known_inside|]). constructor.
  - known_inside.
  - vm_compute. reflexivity.
Defined.

Section BurstSurvives.

Variables cos sin : float -> float.

Local Open Scope float_scope.

(** [float(n)] is exact on the integers of 53 bits. *)
Lemma float_of_int_val n :
  (0 <= n < 2 ^ 53)%Z ->
  fin (Py.float_of_int n) /\ val (Py.float_of_int n) = IZR n.
Proof.
  intros Hn. unfold fin, val, Py.float_of_int.
  assert (Prim2SF (of_uint63 (of_Z n)) = binary_normalize prec emax n 0 false) as E.
  { rewrite of_uint63_spec, of_Z_spec.
    rewrite Z.mod_small by (change wB with (2 ^ 63)%Z; lia). reflexivity. }
  rewrite Prim2SF_SF2Prim by (rewrite <- E; apply Prim2SF_valid).
  destruct (binary_normalize_val n n 0 ltac:(rewrite emin_is; lia) ltac:(lia) ltac:(lia)
              n 0%Z false ltac:(lra)) as [Hf Hv].
  split; [exact Hf|]. rewrite <- F2R_IZR. apply Rle_antisym; apply Hv.
Qed.

Lemma float_of_int_inside n :
  (0 <= n < 2 ^ 44)%Z -> inside (256 * n) (256 * n) (Py.float_of_int n).
Proof.
  intros Hn. destruct (float_of_int_val n ltac:(lia)) as [Hf Hv].
  split; [exact Hf|]. rewrite Hv, mult_IZR. lra.
Qed.

(** The position and the velocity a burst particle is spawned with. *)
Lemma burst_particle_fields bx by_ i g :
  let p := fst (burst_particle cos sin bx by_ i g) in
  let u := fst (Random.random g) in
  x p = Py.float_of_int bx /\ y p = Py.float_of_int by_ /\
  vx p = cos (burst_angle i) * (0.5 + u * 0.6) /\
  vy p = sin (burst_angle i) * (0.5 + u * 0.6) * 0.5.
Proof. repeat split; reflexivity. Qed.

Lemma burst_speed_inside u : inside 0 256 u -> inside (-282) 282 (0.5 + u * 0.6).
Proof.
  intros Hu.
  assert (inside 0 154 (u * 0.6)) as Ht.
  { apply (inside_mul_pos 256 154 154); [exact Hu | known_inside | lia | lia]. }
  apply (inside_weaken (128 + 0) (128 + 154)); [|lia|lia].
  apply inside_add; [known_inside | exact Ht | lia | lia].
Qed.

(** A burst particle spawned within 8 columns and 4 rows of (40, 12) is
    integrated and passes the filter of a canvas of 80 x 24. *)
Lemma burst_particle_survives s bx by_ i g :
  width s = 80%Z -> height s = 24%Z ->
  (32 <= bx <= 48)%Z -> (8 <= by_ <= 16)%Z ->
  unit_range (cos (burst_angle i)) -> unit_range (sin (burst_angle i)) ->
  exists q,
    integrate (fst (burst_particle cos sin bx by_ i g)) = Some q /\
    alive s q = true.
Proof.
  intros Hw Hh Hbx Hby Hc Hs.
  set (p := fst (burst_particle cos sin bx by_ i g)).
  destruct (burst_particle_life_range cos sin bx by_ i g) as [Hl Hm].
  fold p in Hl, Hm.
  destruct (integrate_Some p ltac:(lia)) as [q Hq]. exists q.
  split; [exact Hq|].
  apply integrate_inv in Hq. destruct Hq as ((Hx & Hy & _ & _ & Hlq) & _).
  destruct (burst_particle_fields bx by_ i g) as (Ex & Ey & Evx & Evy).
  fold p in Ex, Ey, Evx, Evy.
  pose proof (burst_speed_inside _ (random_inside g)) as Hsp.
  assert (inside (-282) 282 (vx p)) as Bvx.
  { rewrite Evx. apply (inside_mul 256 282 282); [exact Hc | exact Hsp | lia | lia]. }
  assert (inside (-141) 141 (vy p)) as Bvy.
  { rewrite Evy. apply (inside_mul 282 128 141); [|known_inside|lia|lia].
    apply (inside_mul 256 282 282); [exact Hs | exact Hsp | lia | lia]. }
  assert (inside (256 * 32 + -282) (256 * 48 + 282) (x q)) as Bx.
  { rewrite Hx, Ex.
    apply inside_add; [|exact Bvx|lia|lia].
    apply (inside_weaken _ _ _ _ _ (float_of_int_inside bx ltac:(lia))); lia. }
  assert (inside (256 * 8 + -141) (256 * 16 + 141) (y q)) as By.
  { rewrite Hy, Ey.
    apply inside_add; [|exact Bvy|lia|lia].
    apply (inside_weaken _ _ _ _ _ (float_of_int_inside by_ ltac:(lia))); lia. }
  apply alive_spec. split; [lia|]. unfold on_canvas. rewrite Hw, Hh.
  split.
  - apply (inside_in_range _ _ _ _ Bx); lia.
  - apply (inside_in_range _ _ _ _ By); lia.
Qed.

Lemma burst_new_survives s g :
  width s = 80%Z -> height s = 24%Z -> center_x s = 40%Z -> center_y s = 12%Z ->
  Forall (fun i => unit_range (cos (burst_angle i)) /\
                   unit_range (sin (burst_angle i))) (seq 0 15) ->
  Forall (fun p => exists q, integrate p = Some q /\ alive s q = true)
         (fst (burst_new cos sin s g)).
Proof.
  intros Hw Hh Hcx Hcy Hlibm.
  rewrite burst_new_closed, Hcx, Hcy. apply Forall_map.
  rewrite List.Forall_forall in Hlibm |- *. intros i Hi.
  destruct (Hlibm i Hi) as [Hc Hs].
  pose proof (randint_range (-8) 8 (Rng (outcome g) (1 + calls g)) ltac:(lia)) as Hdx.
  pose proof (randint_range (-4) 4 (Rng (outcome g) (2 + calls g)) ltac:(lia)) as Hdy.
  fold (burst_dx g) in Hdx. fold (burst_dy g) in Hdy.
  apply burst_particle_survives; try assumption; lia.
Qed.

Lemma update_keeps_the_burst s g s' :
  burst_fires (burst_draw g) = true ->
  Forall (fun p => exists q, integrate p = Some q /\ alive s q = true)
         (fst (burst_new cos sin s (burst_draw g))) ->
  fst (update cos sin s g) = Some s' ->
  exists before burst,
    particles s' = before ++ burst /\
    Forall2 (fun p q => integrate p = Some q)
            (fst (burst_new cos sin s (burst_draw g))) burst.
Proof.
  intros Hfire Halive H.
  destruct (update_step cos sin s g s' H) as (qs & Hqs & Hs').
  rewrite Hfire in Hqs.
  destruct (integrate_all_app _ _ _ Hqs) as (q1 & q23 & Eqs & _ & H23).
  destruct (integrate_all_app _ _ _ H23) as (q2 & q3 & E23 & _ & H3).
  destruct (integrate_all_alive s _ Halive) as (q3' & H3' & Hf & HF2).
  rewrite H3' in H3. apply (inj Some) in H3. subst q3'.
  exists (List.filter (alive s) q1 ++ List.filter (alive s) q2), q3.
  split; [|exact HF2].
  rewrite Hs', Eqs, E23. cbn [particles set_particles].
  rewrite !List.filter_app, Hf, <- app_assoc. reflexivity.
Qed.

End BurstSurvives.

(** X12. A burst on the canvas of 80 x 24 centred at (40, 12), lines 99-157,
    with a C library whose sine and cosine are within [[-1, 1]] at the
    fifteen angles of a burst: when the burst of a tick fires, its fifteen
    particles are all in the collection the tick leaves, each integrated
    once, at the end of the collection. *)
Theorem burst_survives_its_tick cos sin s g s' :
  width s = 80 -> height s = 24 -> center_x s = 40 -> center_y s = 12 ->
  Forall (fun i => unit_range (cos (burst_angle i)) /\
                   unit_range (sin (burst_angle i))) (seq 0 15) ->
  burst_fires (Rng (outcome g) (48 + calls g)) = true ->
  fst (update cos sin s g) = Some s' ->
  exists before burst,
    particles s' = before ++ burst /\
    List.length burst = 15%nat /\
    Forall2 (fun p q => integrate p = Some q)
            (fst (burst_new cos sin s (Rng (outcome g) (48 + calls g)))) burst.
Proof.
  intros Hw Hh Hcx Hcy Hlibm Hfire H.
  destruct (update_keeps_the_burst cos sin s g s' Hfire
              (burst_new_survives cos sin s _ Hw Hh Hcx Hcy Hlibm) H)
    as (before & burst & Hps & HF2).
  exists before, burst. split; [exact Hps|]. split; [|exact HF2].
  rewrite <- (Forall2_length _ _ _ HF2). apply burst_new_length.
Qed.

Lemma burst_survives_its_tick_witness :
  exists before burst,
    particles sim1_burst = before ++ burst /\
    List.length burst = 15%nat /\
    Forall2 (fun p q => integrate p = Some q)
            (fst (burst_new Libm.cos Libm.sin sim0
                    (Rng (outcome (constant_rng 9)) (48 + calls (constant_rng 9)))))
            burst.
Proof.
  apply (burst_survives_its_tick Libm.cos Libm.sin sim0 (constant_rng 9) sim1_burst).
  - reflexivity.
  - reflexivity.
  - reflexivity.
  - reflexivity.
  - repeat (constructor; [split; known_inside|]). constructor.
  - vm_compute. reflexivity.
  - vm_compute. reflexivity.
Defined.

(* ================================================================== *)
(** ** The filter and the bounds test of [render] *)

Section Truncation.

(** A coordinate within [[0, w)] truncates to a column of the canvas. *)
Lemma in_range_column f w :
  fin f -> (0 <= val f < IZR w)%R ->
  exists t, Py.int_of_float f = Some t /\ 0 <= t < w.
Proof.
  intros Hf [H0 Hw]. destruct (int_of_float_val f Hf) as (t & Ht & Hpos & _).
  exists t. split; [exact Ht|]. specialize (Hpos H0). split.
  - apply Z.lt_succ_r. apply lt_IZR. rewrite succ_IZR. lra.
  - apply lt_IZR. lra.
Qed.

(** A coordinate within [(-1, 0)] truncates to 0. *)
Lemma below_zero_column f :
  fin f -> (-1 < val f < 0)%R -> Py.int_of_float f = Some 0.
Proof.
  intros Hf [H1 H0]. destruct (int_of_float_val f Hf) as (t & Ht & _ & Hneg).
  rewrite Ht. f_equal. specialize (Hneg ltac:(lra)).
  assert (-1 < t) by (apply lt_IZR; lra).
  assert (t < 1) by (apply lt_IZR; lra). lia.
Qed.

(** A particle the filter keeps hits a cell of the canvas. *)
Lemma alive_hits s p :
  alive s p = true ->
  exists ix iy, hits ix iy p /\ 0 <= ix < width s /\ 0 <= iy < height s.
Proof.
  intros H. apply alive_spec in H. destruct H as (_ & [Hfx Hx] & [Hfy Hy]).
  destruct (in_range_column _ _ Hfx Hx) as (ix & Eix & Bx).
  destruct (in_range_column _ _ Hfy Hy) as (iy & Eiy & By).
  exists ix, iy. repeat split; assumption || lia.
Qed.

Lemma last_hit_Some ix iy ps q :
  last_hit ix iy ps = Some q -> In q ps /\ hits ix iy q.
Proof.
  induction ps as [|a ps IH]; cbn [last_hit]; [discriminate|].
  destruct (last_hit ix iy ps) as [r|].
  - intros H. apply (inj Some) in H. subst r.
    destruct (IH eq_refl) as [Hin Hq]. split; [right; exact Hin | exact Hq].
  - destruct (hitsb ix iy a) eqn:Ha; [|discriminate].
    intros H. apply (inj Some) in H. subst q.
    split; [left; reflexivity | apply hitsb_spec; exact Ha].
Qed.

Lemma last_hit_of_hit ix iy ps p :
  In p ps -> hits ix iy p -> exists q, last_hit ix iy ps = Some q.
Proof.
  intros Hin Hp. destruct (last_hit ix iy ps) as [q|] eqn:Hq; [eauto|].
  apply last_hit_None in Hq. rewrite List.Forall_forall in Hq.
  exfalso. exact (Hq p Hin Hp).
Qed.

(** The cell of the rasterized grids a particle of the collection hits
    shows a particle of the collection that hits it. *)
Lemma rasterize_shows s gr p ix iy :
  rasterize s = Some gr -> In p (particles s) ->
  hits ix iy p -> 0 <= ix < width s -> 0 <= iy < height s ->
  exists q,
    In q (particles s) /\ hits ix iy q /\
    cell ""%string (fst gr) (Z.to_nat iy) (Z.to_nat ix) = char q /\
    cell None (snd gr) (Z.to_nat iy) (Z.to_nat ix) = Some (color q).
Proof.
  intros Hg Hin Hp Hx Hy. unfold rasterize in Hg.
  destruct (place_all_cell s (particles s)
              (blank (width s) (height s) " "%string, blank (width s) (height s) None)
              gr ix iy (rect_blank _ _ _) (rect_blank _ _ _) Hx Hy Hg) as [Hc Hk].
  destruct (last_hit_of_hit ix iy (particles s) p Hin Hp) as [q Hq].
  rewrite Hq in Hc, Hk. destruct (last_hit_Some _ _ _ _ Hq) as [Hqin Hqh].
  exists q. split; [exact Hqin|]. split; [exact Hqh|]. split; assumption.
Qed.

End Truncation.

(** X13. The filter of [update] and the bounds test of [render], lines 156-157
    and 167-168: every particle a tick keeps has its truncated position on
    the canvas, so that the frame rendered after the tick shows, in the
    cell of each particle, a particle of that cell: the particle itself
    unless a later one of the collection was written over it. No particle
    the tick keeps is left out by the test of [render]. *)
Theorem survivors_are_drawn cos sin s g s' :
  fst (update cos sin s g) = Some s' ->
  exists gr,
    rasterize s' = Some gr /\
    Forall (fun p =>
      exists ix iy q,
        hits ix iy p /\ 0 <= ix < width s' /\ 0 <= iy < height s' /\
        In q (particles s') /\ hits ix iy q /\
        cell ""%string (fst gr) (Z.to_nat iy) (Z.to_nat ix) = char q /\
        cell None (snd gr) (Z.to_nat iy) (Z.to_nat ix) = Some (color q))
      (particles s').
Proof.
  intros H. destruct (update_fields cos sin s g s' H) as (_ & Hw & Hh & _).
  apply update_Some in H. destruct H as (qs & _ & Hs').
  assert (particles s' = List.filter (alive s) qs) as Hps by (rewrite Hs'; reflexivity).
  assert (Forall (fun p => alive s p = true) (particles s')) as Halive.
  { rewrite Hps. apply List.Forall_forall. intros p Hp.
    apply filter_In in Hp. tauto. }
  clear Hs' Hps.
  destruct (place_all_total s' (particles s')
              (blank (width s') (height s') " "%string,
               blank (width s') (height s') None)) as [gr Hgr].
  { eapply Forall_impl; [exact Halive|]. intros p. apply alive_finite. }
  change (rasterize s' = Some gr) in Hgr.
  exists gr. split; [exact Hgr|].
  apply List.Forall_forall. intros p Hin.
  rewrite List.Forall_forall in Halive.
  destruct (alive_hits s p (Halive p Hin)) as (ix & iy & Hp & Hx & Hy).
  rewrite <- Hw in Hx. rewrite <- Hh in Hy.
  destruct (rasterize_shows s' gr p ix iy Hgr Hin Hp Hx Hy) as (q & Hq).
  exists ix, iy, q. tauto.
Qed.

Lemma survivors_are_drawn_witness :
  exists gr,
    rasterize sim1 = Some gr /\
    Forall (fun p =>
      exists ix iy q,
        hits ix iy p /\ 0 <= ix < width sim1 /\ 0 <= iy < height sim1 /\
        In q (particles sim1) /\ hits ix iy q /\
        cell ""%string (fst gr) (Z.to_nat iy) (Z.to_nat ix) = char q /\
        cell None (snd gr) (Z.to_nat iy) (Z.to_nat ix) = Some (color q))
      (particles sim1).
Proof.
  apply (survivors_are_drawn Libm.cos Libm.sin sim0 sample_rng sim1).
  vm_compute. reflexivity.
Defined.

(** X14. [int] truncates towards zero, line 167: a particle whose [x] lies
    strictly between -1 and 0 is outside the canvas for the filter of
    [update], which drops it, and yet [render], given that particle, puts
    it in column 0: the test of [render] is on the truncated position and
    is passed by positions the filter refuses. *)
Theorem render_draws_left_of_the_canvas s p :
  0 < width s ->
  fin (x p) -> (-1 < val (x p) < 0)%R ->
  fin (y p) -> (0 <= val (y p) < IZR (height s))%R ->
  alive s p = false /\
  exists iy gr,
    0 <= iy < height s /\
    rasterize (set_particles s (p :: nil)) = Some gr /\
    cell ""%string (fst gr) (Z.to_nat iy) 0 = char p /\
    cell None (snd gr) (Z.to_nat iy) 0 = Some (color p).
Proof.
  intros Hw Hfx Hx Hfy Hy. split.
  - destruct (alive s p) eqn:Ha; [|reflexivity].
    apply alive_spec in Ha. destruct Ha as (_ & [_ Hx'] & _). lra.
  - pose proof (below_zero_column _ Hfx Hx) as Ex.
    destruct (in_range_column _ _ Hfy Hy) as (iy & Ey & By).
    set (s1 := set_particles s (p :: nil)).
    destruct (place_all_total s1 (particles s1)
                (blank (width s1) (height s1) " "%string,
                 blank (width s1) (height s1) None)) as [gr Hgr].
    { constructor; [|constructor]. split; [rewrite Ex | rewrite Ey]; eauto. }
    change (rasterize s1 = Some gr) in Hgr.
    exists iy, gr. split; [exact By|]. split; [exact Hgr|].
    destruct (rasterize_shows s1 gr p 0 iy Hgr) as (q & Hq & _ & Hc & Hk).
    + left. reflexivity.
    + split; assumption.
    + exact (conj (Z.le_refl 0) Hw).
    + exact By.
    + destruct Hq as [<-|[]]. split; assumption.
Qed.

Lemma render_draws_left_of_the_canvas_witness :
  alive sim0 left_of_canvas = false /\
  exists iy gr,
    0 <= iy < height sim0 /\
    rasterize (set_particles sim0 (left_of_canvas :: nil)) = Some gr /\
    cell ""%string (fst gr) (Z.to_nat iy) 0 = char left_of_canvas /\
    cell None (snd gr) (Z.to_nat iy) 0 = Some (color left_of_canvas).
Proof.
  apply (render_draws_left_of_the_canvas sim0 left_of_canvas).
  - reflexivity.
  - exact I.
  - destruct (SFinside_sound (-128) (-128) (x left_of_canvas)) as [_ H];
      [vm_compute; reflexivity | lra].
  - exact I.
  - destruct (SFinside_sound 768 768 (y left_of_canvas)) as [_ H];
      [vm_compute; reflexivity | change (height sim0) with 24; lra].
Defined.

Section BlankFrame.

Lemma map_constant {A B} (f : A -> B) (c : B) (l : list A) :
  (forall a, In a l -> f a = c) -> map f l = repeat c (List.length l).
Proof.
  induction l as [|a l IH]; intros H; [reflexivity|].
  cbn [map List.length repeat]. rewrite (H a (or_introl eq_refl)), IH; [reflexivity|].
  intros b Hb. apply H. right. exact Hb.
Qed.

Lemma fold_right_blanks n :
  fold_right String.append ""%string (repeat " "%string n) = spaces n.
Proof. induction n as [|n IH]; [reflexivity|]. cbn. rewrite IH. reflexivity. Qed.

Lemma frame_line_nil w iy : frame_line w nil iy = spaces (Z.to_nat w).
Proof.
  unfold frame_line.
  rewrite (map_constant (shown nil iy) " "%string) by reflexivity.
  rewrite length_seq. apply fold_right_blanks.
Qed.

End BlankFrame.

(** X15. [render] on an empty collection, lines 159-183: the frame is
    [height] lines of [width] blanks each, joined by newlines, with no
    colour code; it is the empty string when the height is not positive. *)
Theorem render_of_no_particle s :
  particles s = nil ->
  render s = Some (String.concat (String "010" "")
                     (repeat (spaces (Z.to_nat (width s))) (Z.to_nat (height s)))).
Proof.
  intros Hp. rewrite render_frame_text by (rewrite Hp; constructor).
  rewrite Hp. unfold frame_text.
  rewrite (map_constant (frame_line (width s) nil) (spaces (Z.to_nat (width s))))
    by (intros iy _; apply frame_line_nil).
  rewrite length_seq. reflexivity.
Qed.

Lemma render_of_no_particle_witness :
  render sim0 = Some (String.concat (String "010" "")
                        (repeat (spaces (Z.to_nat (width sim0)))
                                (Z.to_nat (height sim0)))).
Proof. apply (render_of_no_particle sim0). reflexivity. Defined.

(* ================================================================== *)
(** ** The loop of [run] *)

Section RunLoop.

Variables cos sin : float -> float.
Variable clock : nat -> float.
Variable frame_time : float.







End RunLoop.


(** X17. The pacing of the loop of [run], lines 207-210, with a frame period in
    [[0, 1]] and two readings of the clock below [2^43] seconds: the loop
    sleeps exactly when the elapsed time is below the frame period; the
    duration it then hands to [time.sleep] is finite and positive, and is at
    most the frame period when the clock has not gone backwards. *)
Theorem pace_sleeps_the_remainder frame_time start_time now :
  inside 0 256 frame_time ->
  inside 0 (2 ^ 51) start_time -> inside 0 (2 ^ 51) now ->
  fin (now - start_time) /\
  ((val (now - start_time) < val frame_time)%R ->
     exists d, pace frame_time start_time now = Sleep d :: nil /\
               fin d /\ (0 < val d)%R /\
               ((val start_time <= val now)%R -> (val d <= val frame_time)%R)) /\
  ((val frame_time <= val (now - start_time))%R ->
     pace frame_time start_time now = nil).
Proof.
  intros Hft Ht0 Ht1.
  assert (inside (- 2 ^ 51) (2 ^ 51) (now - start_time)) as Hel.
  { apply (inside_weaken (0 - 2 ^ 51) (2 ^ 51 - 0)); [|lia|lia].
    apply inside_sub; [exact Ht1 | exact Ht0 | lia | lia]. }
  assert (inside (- 2 ^ 51) (2 ^ 51) frame_time) as Hft'.
  { apply (inside_weaken _ _ _ _ _ Hft); lia. }
  split; [exact (proj1 Hel)|]. split.
  - intros Hlt.
    destruct (sub_positive (2 ^ 51) frame_time (now - start_time) ltac:(lia) Hft' Hel Hlt)
      as [Hf Hpos].
    exists (frame_time - (now - start_time))%float. unfold pace.
    assert ((0 <? frame_time - (now - start_time))%float = true) as ->.
    { apply (ltb_val 0 _ I Hf). change (val 0) with 0%R. exact Hpos. }
    split; [reflexivity|]. split; [exact Hf|]. split; [exact Hpos|].
    intros Hmono. apply sub_below; [exact Hft | exact (proj1 Hel) |].
    split; [|lra].
    destruct (sub_fin_val now start_time 0 (2 ^ 51) (-8) grid_256) as [_ [Hv _]];
      try lia; try (apply Ht0 || apply Ht1).
    + destruct Ht0 as [_ B0], Ht1 as [_ B1]. rewrite F2R_0, F2R_256. lra.
    + rewrite F2R_0 in Hv. exact Hv.
  - intros Hle.
    destruct (sub_not_positive (2 ^ 51) frame_time (now - start_time) ltac:(lia) Hft' Hel Hle)
      as [Hf Hneg].
    unfold pace.
    destruct (0 <? frame_time - (now - start_time))%float eqn:E; [|reflexivity].
    apply (ltb_val 0 _ I Hf) in E. change (val 0) with 0%R in E. lra.
Qed.

Lemma pace_sleeps_the_remainder_witness :
  fin (1000.25 - 1000.125)%float /\
  ((val (1000.25 - 1000.125)%float < val (1 / Py.float_of_int 4)%float)%R ->
     exists d, pace (1 / Py.float_of_int 4)%float 1000.125%float 1000.25%float
               = Sleep d :: nil /\
               fin d /\ (0 < val d)%R /\
               ((val 1000.125%float <= val 1000.25%float)%R ->
                (val d <= val (1 / Py.float_of_int 4)%float)%R)) /\
  ((val (1 / Py.float_of_int 4)%float <= val (1000.25 - 1000.125)%float)%R ->
     pace (1 / Py.float_of_int 4)%float 1000.125%float 1000.25%float = nil).
Proof.
  apply (pace_sleeps_the_remainder (1 / Py.float_of_int 4)%float 1000.125%float
           1000.25%float); known_inside.
Defined.
